(** * Credential resolution of the vendored [aws_api] client

    A shallow embedding of the credential machinery that the secret-santa
    script uses through [deno.land/x/aws_api]: the provider chain
    ([CredentialsProviderChain]), the shared ini-file provider, the
    environment provider, the three providers that fetch credentials over
    the network and cache them with an expiry watermark, and the instance
    metadata client ([IMDSv2]) with its token cache.

    Conventions of the embedding.
    - A JavaScript promise is a cell of a promise heap (a list indexed by
      the promise's identity) that is [Pending] or settled; the event loop
      is an explicit list of events (calls, settlements, timers).
    - [await] inside the chain is run to completion: the chain is the only
      caller during discovery, so a provider's [getCredentials] is taken as
      a function of the world that returns the settled outcome.
    - Time is the millisecond clock of [Date.now()], an integer.
    - Numbers that the code computes with ([tokenTtlSeconds] and the
      time-outs of the metadata client) are IEEE 754 binary64 floats. *)

From Stdlib Require Import ZArith Ascii String Floats Lia.
From stdpp Require Import gmap strings list pretty.

Set Default Proof Using "Type".
(* A decimal literal such as 0.95 stands for the nearest binary64 value,
   as it does in JavaScript. *)
#[local] Set Warnings "-inexact-float".
#[local] Set Warnings "-register-all".
Local Open Scope string_scope.
Local Open Scope list_scope.

(** ** JavaScript values that the code inspects *)

Module Js.

(** What a [catch] clause can receive.  [VError] is an instance of
    [Error] as the engine makes it, with a string or nothing as [stack].
    [VErrorOdd] is an instance of [Error] whose [stack] has been set to
    something that is no string, so that [err.stack?.split('\n')]
    throws [thrown].  [VOther] is any other truthy value (an object, a
    number that is not zero, a symbol), with what its [toString()]
    returns, or what calling it throws (a [TypeError] when an object
    has no such method, as one made by [Object.create(null)]).  The
    remaining constructors are [undefined], [null], the booleans and
    the strings; a falsy value of another type (zero, NaN) fares in a
    [catch] clause as [false] does. *)
Inductive Value :=
| VError (message : string) (stack : option string)
| VUndefined
| VNull
| VBool (b : bool)
| VString (s : string)
| VErrorOdd (message : string) (thrown : Value)
| VOther (text : Value + string).

(** The engine decides which stack text [new Error(message)] captures. *)
Class Engine := { captureStack : string -> option string }.

Definition newError `{Engine} (message : string) : Value :=
  VError message (captureStack message).

Definition truthyString (s : string) : bool :=
  match s with EmptyString => false | String _ _ => true end.

(** [!!v] *)
Definition truthy (v : Value) : bool :=
  match v with
  | VError _ _ | VErrorOdd _ _ | VOther _ => true
  | VUndefined | VNull => false
  | VBool b => b
  | VString s => truthyString s
  end.

(** [!!s] for [s : string | undefined] *)
Definition truthyOpt (s : option string) : bool :=
  match s with Some s => truthyString s | None => false end.

(** [v.toString()] for a [v] other than [undefined] and [null] (for
    these, [String(v)]): the string, or what the call throws. *)
Definition toString (v : Value) : Value + string :=
  match v with
  | VError message _ | VErrorOdd message _ =>
      inr (if truthyString message then "Error: " +:+ message else "Error")
  | VUndefined => inr "undefined"
  | VNull => inr "null"
  | VBool true => inr "true"
  | VBool false => inr "false"
  | VString s => inr s
  | VOther text => text
  end.

Definition newline : ascii := "010"%char.

(** V8, the engine under Deno: the stack starts with the error's name
    and message and goes on with the frames on further lines. *)
Definition v8 : Engine :=
  {| captureStack message :=
       Some ("Error: " +:+ message
             +:+ String newline "    at <anonymous>") |}.

(** [s.split('\n')[0]] *)
Fixpoint firstLine (s : string) : string :=
  match s with
  | EmptyString => EmptyString
  | String c rest =>
      if Ascii.eqb c newline then EmptyString else String c (firstLine rest)
  end.

(** [s.split('\n')] *)
Fixpoint lines (s : string) : list string :=
  match s with
  | EmptyString => [EmptyString]
  | String c rest =>
      if Ascii.eqb c newline then EmptyString :: lines rest
      else match lines rest with
           | l :: ls => String c l :: ls
           | [] => [String c EmptyString]
           end
  end.

(** [xs.join('\n')] *)
Definition joinLines (xs : list string) : string :=
  String.concat (String newline EmptyString) xs.

(** The rest of [s] behind the prefix [p], when [s] starts with [p]. *)
Fixpoint dropPrefix (p s : string) : option string :=
  match p, s with
  | EmptyString, _ => Some s
  | String a p', String b s' =>
      if Ascii.eqb a b then dropPrefix p' s' else None
  | String _ _, EmptyString => None
  end.

(** A [Date]: milliseconds since the epoch, or the invalid date. *)
Inductive Date :=
| DateMs (ms : Z)
| InvalidDate.

(** [a < b] on dates compares their time values; a comparison with the
    invalid date (NaN) is false. *)
Definition dateLt (a b : Date) : bool :=
  match a, b with
  | DateMs x, DateMs y => (x <? y)%Z
  | _, _ => false
  end.

(** [new Date(d.valueOf() - delta)] *)
Definition dateMinus (d : Date) (delta : Z) : Date :=
  match d with
  | DateMs x => DateMs (x - delta)
  | InvalidDate => InvalidDate
  end.

(** [Deno.env]: reading a variable needs a permission; without it the
    read throws [envDenial]. *)
Record Env := { envVars : gmap string string; envDenial : option Value }.

(** [Deno.env.get(name)]: the thrown value, or the variable. *)
Definition envGet (e : Env) (name : string) : Value + option string :=
  match envDenial e with
  | Some err => inl err
  | None => inr (envVars e !! name)
  end.

(** [Math.floor] on a binary64 float. *)
Definition mathFloor (x : float) : float :=
  match Prim2SF x with
  | S754_finite s m e =>
      if (0 <=? e)%Z then x
      else
        let q := Z.shiftr (if s then Z.neg m else Z.pos m) (- e) in
        if (q <? 0)%Z
        then PrimFloat.opp (PrimFloat.of_uint63 (Uint63.of_Z (- q)))
        else PrimFloat.of_uint63 (Uint63.of_Z q)
  | _ => x
  end.

(** [Math.max(a, b)] *)
Definition mathMax (a b : float) : float :=
  if PrimFloat.is_nan a || PrimFloat.is_nan b then PrimFloat.nan
  else if PrimFloat.ltb a b then b else a.

End Js.

Export Js.

(** ** Built-ins of the runtime that the code calls *)

Module Runtime.

(** Functions of JavaScript and Deno that are used as they are:
    [String(x)] of a number, [JSON.stringify] of a string and of an
    array of strings, [new Date(text)],
    [new URL(relative, base).toString()], which can throw,
    [new Date(parseInt(text) * 1000)], and the value that
    [headers.set(name, value)] stores, which throws on a value that is
    no header value. *)
Class Builtins := {
  numberToString : float -> string;
  jsonString : string -> string;
  jsonStrings : list string -> string;
  parseDate : string -> Date;
  resolveUrl : string -> string -> Value + string;
  dateFromSeconds : string -> Date;
  headerValue : string -> Value + string;
}.

(** [option || Deno.env.get(name)]: the variable is read only when the
    option is missing or empty, and the read can throw. *)
Definition orEnv (opt : option string) (env : Env) (name : string)
  : Value + option string :=
  if truthyOpt opt then inr opt else envGet env name.

(** [s.includes(c)] for a one-character [c] *)
Fixpoint includesChar (c : ascii) (s : string) : bool :=
  match s with
  | EmptyString => false
  | String c' rest => Ascii.eqb c' c || includesChar c rest
  end.

End Runtime.

Export Runtime.

(** ** [client/common.ts]: credentials and their providers *)

(** [interface Credentials] *)
Record Credentials := {
  awsAccessKeyId : string;
  awsSecretKey : string;
  sessionToken : option string;
  expiresAt : option Date;
  region : option string;
}.

(** How a [Promise<Credentials>] settles. *)
Inductive Settled :=
| Fulfilled (creds : Credentials)
| Rejected (err : Value).

(** A cell of the promise heap. *)
Inductive PromiseState :=
| Pending
| Done (outcome : Settled).

Definition isPending (st : PromiseState) : bool :=
  match st with Pending => true | Done _ => false end.

(** ** [Set] and [Map] of strings *)

Module Collections.

(** [new Set(xs)] as the list of its elements in insertion order: an
    element that is already there is not added again. *)
Definition setAdd (s : list string) (x : string) : list string :=
  if bool_decide (x ∈ s) then s else s ++ [x].

Definition newSet (xs : list string) : list string := foldl setAdd [] xs.

(** [s.has(x)] *)
Definition has (s : list string) (x : string) : bool := bool_decide (x ∈ s).

(** [s.delete(x)] *)
Definition setDelete (s : list string) (x : string) : list string :=
  List.filter (fun y => negb (String.eqb y x)) s.

(** [new Map(entries)]: a later entry replaces an earlier one with the
    same key. *)
Definition newMap {V : Type} (entries : list (string * V)) : gmap string V :=
  foldl (fun m kv => <[kv.1 := kv.2]> m) ∅ entries.

End Collections.


(** ** [encoding/xml.ts]: reading a parsed document *)

Module Xml.
Import Collections.

(** [class XmlNode] *)
Inductive XmlNode :=
| Node (name : string) (attributes : list (string * string))
       (content : option string) (children : list XmlNode).

Definition name (n : XmlNode) : string :=
  match n with Node name _ _ _ => name end.
Definition attributes (n : XmlNode) : list (string * string) :=
  match n with Node _ attributes _ _ => attributes end.
Definition content (n : XmlNode) : option string :=
  match n with Node _ _ content _ => content end.
Definition children (n : XmlNode) : list XmlNode :=
  match n with Node _ _ _ children => children end.

(** [interface Document] *)
Record Document := {
  declaration : option (list (string * string));
  root : option XmlNode;
}.

(** [this.children.find(x => x.name === name)] *)
Definition findChild (self : XmlNode) (key : string) : option XmlNode :=
  List.find (fun x => String.eqb (name x) key) (children self).

(** [this.children.filter(x => x.name === name)] *)
Definition childrenNamed (self : XmlNode) (key : string) : list XmlNode :=
  List.filter (fun x => String.eqb (name x) key) (children self).

Section Reading.
Context `{Engine} `{Builtins}.

(** What [throwMissingKeys] throws. *)
Definition missingKeys (self : XmlNode) (missing : list string) : Value :=
  newError ("BUG: XmlNode " +:+ jsonString (name self)
            +:+ " missing required keys " +:+ jsonStrings missing
            +:+ " - had keys "
            +:+ jsonStrings (newSet (map name (children self)))).

(** [first(name, required)], without accessor: [None] is [undefined]. *)
Definition first (self : XmlNode) (key : string) (required : bool)
  : Value + option XmlNode :=
  match findChild self key with
  | Some node => inr (Some node)
  | None => if required then inl (missingKeys self [key]) else inr None
  end.

(** [first(name, required, accessor)]: the accessor returns a value,
    nothing ([null] or [undefined]), or throws. *)
Definition firstWith {T : Type} (self : XmlNode) (key : string)
    (required : bool) (accessor : XmlNode -> Value + option T)
  : Value + option T :=
  let absent :=
    if required then inl (missingKeys self [key]) else inr None in
  match findChild self key with
  | None => absent
  | Some node =>
      match accessor node with
      | inl err => inl err
      | inr (Some value) => inr (Some value)
      | inr None => absent
      end
  end.

(** [getList(...names)], from the parent reached so far. *)
Fixpoint getListFrom (listParent : option XmlNode) (names : list string)
  : list XmlNode :=
  match names with
  | [] => []
  | [last] =>
      match listParent with
      | Some parent => childrenNamed parent last
      | None => []
      end
  | key :: rest =>
      getListFrom (match listParent with
                   | Some parent => findChild parent key
                   | None => None
                   end) rest
  end.

Definition getList (self : XmlNode) (names : list string) : list XmlNode :=
  getListFrom (Some self) names.

(** The loop of [strings] over the children: the object so far and the
    required keys still missing. *)
Definition stringsStep (wanted : list string)
    (state : gmap string string * list string) (child : XmlNode)
  : gmap string string * list string :=
  if has wanted (name child)
  then (<[name child := default "" (content child)]> state.1,
        setDelete state.2 (name child))
  else state.

(** [strings({required, optional})]; the arguments are the keys of the
    two objects. *)
Definition strings (self : XmlNode) (required optional : list string)
  : Value + gmap string string :=
  let wanted := newSet (required ++ optional) in
  let '(obj, missing) :=
    foldl (stringsStep wanted) (∅, newSet required) (children self) in
  match missing with
  | [] => inr obj
  | _ => inl (missingKeys self missing)
  end.

(** [readXmlResult] behind [parseXml]. *)
Definition readXmlResult (doc : Document) (resultWrapper : option string)
  : Value + XmlNode :=
  match root doc with
  | None => inl (newError "Response lacking XML root")
  | Some root =>
      if truthyOpt resultWrapper
      then
        let wrapper := default "" resultWrapper in
        match findChild root wrapper with
        | Some result => inr result
        | None =>
            inl (newError
                   ("Result Wrapper " +:+ jsonString wrapper
                    +:+ " is missing. Present keys: "
                    +:+ String.concat ", " (map name (children root))))
        end
      else inr root
  end.

End Reading.

End Xml.

(** ** [encoding/xml.ts]: entities *)

Module XmlEntities.
Local Open Scope N_scope.

(** A string is the list of its UTF-16 code units here:
    [String.fromCharCode] can give any of them. *)
Definition unit (c : ascii) : N := N_of_ascii c.
Definition text (s : string) : list N :=
  map N_of_ascii (list_ascii_of_string s).

Definition quote : N := unit "034".

(** [ALPHA_INDEX] and [CHAR_S_INDEX] *)
Definition ALPHA_INDEX : list (list N * list N) :=
  [ (text "&lt;", [unit "<"]); (text "&gt;", [unit ">"]);
    (text "&quot;", [quote]); (text "&apos;", [unit "'"]);
    (text "&amp;", [unit "&"]) ].

Definition CHAR_S_INDEX : list (N * list N) :=
  [ (unit "<", text "&lt;"); (unit ">", text "&gt;");
    (quote, text "&quot;"); (unit "'", text "&apos;");
    (unit "&", text "&amp;") ].

(** [index[key]] *)
Definition property {K : Type} `{EqDecision K} (index : list (K * list N))
    (key : K) : option (list N) :=
  snd <$> List.find (fun entry => bool_decide (entry.1 = key)) index.

(** The pattern of [encodeXmlEntities] on one code unit: it matches the
    five characters of [CHAR_S_INDEX]. *)
Definition special (s : N) : bool :=
  existsb (N.eqb s) [unit "<"; unit ">"; quote; unit "'"; unit "&"].

(** [encodeXmlEntities] *)
Definition encodeXmlEntities (str : list N) : list N :=
  flat_map (fun s => if special s
                     then default (text "undefined") (property CHAR_S_INDEX s)
                     else [s]) str.

(** [[0-9a-zA-Z]] *)
Definition isAlnum (u : N) : bool :=
  (48 <=? u) && (u <=? 57) || (65 <=? u) && (u <=? 90)
  || (97 <=? u) && (u <=? 122).

(** The longest run of [[0-9a-zA-Z]] at the start of [s], and what
    follows it. *)
Fixpoint alnumSpan (s : list N) : list N * list N :=
  match s with
  | u :: rest =>
      if isAlnum u
      then let '(run, tail) := alnumSpan rest in (u :: run, tail)
      else ([], s)
  | [] => ([], [])
  end.

(** The match of [/&#?[0-9a-zA-Z]+;?/] that starts at a [&] followed by
    [rest], without its [&]: an optional [#], the longest run of letters
    and digits, which is not empty, and a [;] when one follows. *)
Definition matchAfterAmp (rest : list N) : option (list N) :=
  let '(hash, rest1) :=
    match rest with
    | u :: r => if u =? unit "#" then ([u], r) else ([], rest)
    | [] => ([], rest)
    end in
  let '(run, rest2) := alnumSpan rest1 in
  let semi :=
    match rest2 with
    | u :: _ => if u =? unit ";" then [u] else []
    | [] => []
    end in
  match run with
  | [] => None
  | _ => Some (hash ++ run ++ semi)
  end.

(** The value of a digit or letter as a digit. *)
Definition digitValue (u : N) : option N :=
  if (48 <=? u) && (u <=? 57) then Some (u - 48)
  else if (97 <=? u) && (u <=? 122) then Some (u - 97 + 10)
  else if (65 <=? u) && (u <=? 90) then Some (u - 65 + 10)
  else None.

(** The number that the digits of radix [R] at the start of [s] write;
    [None] is NaN, the result when there is no digit. *)
Fixpoint readDigits (R : N) (acc : option N) (s : list N) : option N :=
  match s with
  | u :: rest =>
      match digitValue u with
      | Some d =>
          if d <? R then readDigits R (Some (default 0 acc * R + d)) rest
          else acc
      | None => acc
      end
  | [] => acc
  end.

(** A leading [0x] or [0X] taken off. *)
Definition stripHexPrefix (s : list N) : option (list N) :=
  match s with
  | a :: b :: rest =>
      if (a =? unit "0") && ((b =? unit "x") || (b =? unit "X"))
      then Some rest else None
  | _ => None
  end.

(** [parseInt(s, 16)] and [parseInt(s)], for an [s] that starts with
    neither white space nor a sign. *)
Definition parseInt16 (s : list N) : option N :=
  readDigits 16 None (default s (stripHexPrefix s)).

Definition parseInt (s : list N) : option N :=
  match stripHexPrefix s with
  | Some rest => readDigits 16 None rest
  | None => readDigits 10 None s
  end.

(** The function given to [replace] in [decodeXmlEntities], on the
    matched text [s]. *)
Definition replacement (s : list N) : list N :=
  if bool_decide (s !! 1%nat = Some (unit "#"))
  then
    let code :=
      if bool_decide (s !! 2%nat = Some (unit "x"))
         || bool_decide (s !! 2%nat = Some (unit "X"))
      then parseInt16 (drop 3 s)
      else parseInt (drop 2 s) in
    match code with
    | None => []
    | Some code => if 65535 <? code then [] else [code]
    end
  else default s (property ALPHA_INDEX s).

(** [decodeXmlEntities]: the scan of [replace] with the global flag;
    [skip] is how many code units of the last match are still ahead. *)
Fixpoint decodeFrom (skip : nat) (str : list N) : list N :=
  match str with
  | [] => []
  | u :: rest =>
      match skip with
      | S skip' => decodeFrom skip' rest
      | O =>
          if u =? unit "&"
          then match matchAfterAmp rest with
               | Some m => replacement (u :: m) ++ decodeFrom (length m) rest
               | None => u :: decodeFrom 0 rest
               end
          else u :: decodeFrom 0 rest
      end
  end.

Definition decodeXmlEntities (str : list N) : list N := decodeFrom 0 str.

End XmlEntities.

Module Common.

(** [interface CredentialsProvider].  [World] is everything outside that a
    provider reads or changes: files, the network, the clock, its own
    fields.  [getCredentials] is the call awaited to completion: a
    promise that rejects, or a call that throws, is [Rejected]. *)
Record CredentialsProvider (World : Type) := {
  getCredentials : World -> Settled * World;
}.
Global Arguments getCredentials {World}.

End Common.

(** ** [client/credentials.ts]: the provider chain *)

Module CredentialsProviderChain.
Section Chain.

Context {World : Type}.
Context `{Engine}.

(** An element of [#chain]: an arrow function [() => new P(...)].
    [source] is what [toString()] gives for it; [call] runs it and
    yields the instance, or what the constructor throws. *)
Record ProviderFunc := {
  source : string;
  call : World -> (Value + Common.CredentialsProvider World) * World;
}.

(** What the chain does to its providers, by position in [#chain]. *)
Inductive Event :=
| Instantiate (i : nat)
| Resolve (i : nat).

(** The fields of the class; the pinned supplier is kept with its
    position in the chain, for the event log only. *)
Record Chain := {
  chain : list ProviderFunc;
  supplier : option (nat * Common.CredentialsProvider World);
}.

(** [providerFunc.toString().replace(/^\(\) => new /, '')] *)
Definition providerLabel (providerFunc : ProviderFunc) : string :=
  match dropPrefix "() => new " (source providerFunc) with
  | Some rest => rest
  | None => source providerFunc
  end.

(** [err.stack?.split('\n')[0] || err.message] *)
Definition errorSummary (message : string) (stack : option string) : string :=
  match stack with
  | Some st => if truthyString (firstLine st) then firstLine st else message
  | None => message
  end.

(** [`    - ${providerLabel} `] *)
Definition srcName (providerFunc : ProviderFunc) : string :=
  "    - " +:+ providerLabel providerFunc +:+ " ".

(** What the [catch] clause says about the failure:
    [err.stack?.split('\n')[0] || err.message] for an [Error] and
    [err.toString()] for another value; or what evaluating that throws. *)
Definition describe (err : Value) : Value + string :=
  match err with
  | VError message stack => inr (errorSummary message stack)
  | VErrorOdd _ thrown => inl thrown
  | _ => toString err
  end.

(** The body of the [catch] clause: the line that is pushed to
    [errors], if one is pushed; or what the clause itself throws. *)
Definition errorLine (providerFunc : ProviderFunc) (err : Value)
  : Value + option string :=
  match err with
  | VError _ _ | VErrorOdd _ _ =>
      match describe err with
      | inl thrown => inl thrown
      | inr reason => inr (Some (srcName providerFunc +:+ reason))
      end
  | _ =>
      if truthy err
      then match describe err with
           | inl thrown => inl thrown
           | inr reason => inr (Some (srcName providerFunc +:+ reason))
           end
      else inr None
  end.

Definition pushError (errors : list string) (providerFunc : ProviderFunc)
    (err : Value) : Value + list string :=
  match errorLine providerFunc err with
  | inl thrown => inl thrown
  | inr (Some line) => inr (errors ++ [line])
  | inr None => inr errors
  end.

(** The [for] loop of [getCredentials] over the factories that are
    left, the first of them at position [i].  What the [catch] clause
    throws leaves the loop and rejects the call. *)
Fixpoint discover (i : nat) (fs : list ProviderFunc) (errors : list string)
    (w : World)
  : Settled * option (nat * Common.CredentialsProvider World) * World * list Event :=
  match fs with
  | [] =>
      (Rejected (newError (joinLines
         ("Failed to load any possible AWS credentials:" :: errors))),
       None, w, [])
  | providerFunc :: rest =>
      match call providerFunc w with
      | (inl err, w1) =>
          match pushError errors providerFunc err with
          | inl thrown => (Rejected thrown, None, w1, [Instantiate i])
          | inr errors =>
              let '(r, s, w2, log) := discover (S i) rest errors w1 in
              (r, s, w2, Instantiate i :: log)
          end
      | (inr provider, w1) =>
          match Common.getCredentials provider w1 with
          | (Fulfilled creds, w2) =>
              (Fulfilled creds, Some (i, provider), w2,
               [Instantiate i; Resolve i])
          | (Rejected err, w2) =>
              match pushError errors providerFunc err with
              | inl thrown =>
                  (Rejected thrown, None, w2, [Instantiate i; Resolve i])
              | inr errors =>
                  let '(r, s, w3, log) := discover (S i) rest errors w2 in
                  (r, s, w3, Instantiate i :: Resolve i :: log)
              end
          end
      end
  end.

(** [CredentialsProviderChain.getCredentials] *)
Definition getCredentials (c : Chain) (w : World)
  : Settled * Chain * World * list Event :=
  match supplier c with
  | Some (k, provider) =>
      let '(r, w1) := Common.getCredentials provider w in
      (r, c, w1, [Resolve k])
  | None =>
      let '(r, s, w1, log) := discover 0 (chain c) [] w in
      (r, {| chain := chain c; supplier := s |}, w1, log)
  end.

(** [new CredentialsProviderChain(chain)] *)
Definition new (fs : list ProviderFunc) : Chain :=
  {| chain := fs; supplier := None |}.

(** Top-level calls one after the other, each awaited before the next. *)
Fixpoint resolveMany (n : nat) (c : Chain) (w : World)
  : list Settled * Chain * World * list Event :=
  match n with
  | O => ([], c, w, [])
  | S n' =>
      let '(r, c1, w1, log1) := getCredentials c w in
      let '(rs, c2, w2, log2) := resolveMany n' c1 w1 in
      (r :: rs, c2, w2, log1 ++ log2)
  end.

(** [n] calls of one provider, each awaited before the next. *)
Fixpoint awaitMany (n : nat) (provider : Common.CredentialsProvider World) (w : World)
  : list Settled * World :=
  match n with
  | O => ([], w)
  | S n' =>
      let '(r, w1) := Common.getCredentials provider w in
      let '(rs, w2) := awaitMany n' provider w1 in
      (r :: rs, w2)
  end.

(** How one factory fails when it is tried in world [w]: its
    constructor throws, or the instance rejects.  [w'] is the world it
    leaves, the flag tells whether an instance was made. *)
Inductive failsAt (f : ProviderFunc) (w w' : World) : bool -> Value -> Prop :=
| fails_constructing err :
    call f w = (inl err, w') -> failsAt f w w' false err
| fails_resolving provider w1 err :
    call f w = (inr provider, w1) ->
    Common.getCredentials provider w1 = (Rejected err, w') ->
    failsAt f w w' true err.

(** Every factory of the list fails when they are tried in turn: each
    fails, and the [catch] clause puts the failure down without throwing
    itself, so that the next one is tried. *)
Inductive allFail : list ProviderFunc -> World -> World ->
                    list (bool * Value) -> Prop :=
| allFail_nil w : allFail [] w w []
| allFail_cons f fs w w1 w2 made err line rs :
    failsAt f w w1 made err ->
    errorLine f err = inr line ->
    allFail fs w1 w2 rs ->
    allFail (f :: fs) w w2 ((made, err) :: rs).

(** The events of one attempt. *)
Definition attemptLog (i : nat) (made : bool) : list Event :=
  Instantiate i :: (if made then [Resolve i] else []).

(** The events of failed attempts, the first at position [i]. *)
Fixpoint failureLog (i : nat) (rs : list (bool * Value)) : list Event :=
  match rs with
  | [] => []
  | (made, _) :: rs' =>
      Instantiate i :: (if made : bool then [Resolve i] else [])
        ++ failureLog (S i) rs'
  end.

(** The lines of failed attempts, in order. *)
Fixpoint failureLines (fs : list ProviderFunc) (rs : list (bool * Value))
  : list string :=
  match fs, rs with
  | f :: fs', (_, err) :: rs' =>
      match errorLine f err with
      | inr (Some line) => line :: failureLines fs' rs'
      | _ => failureLines fs' rs'
      end
  | _, _ => []
  end.

(** The positions of failed attempts whose constructor returned an
    instance, the first attempt at position [i]. *)
Fixpoint madeAt (i : nat) (rs : list (bool * Value)) : list nat :=
  match rs with
  | [] => []
  | (made, _) :: rs' =>
      (if made : bool then [i] else []) ++ madeAt (S i) rs'
  end.

(** The first line of the aggregate error's message. *)
Definition header : string :=
  "Failed to load any possible AWS credentials:".

(** What the line of a failed attempt says about the failure. *)
Definition failureReason (err : Value) : string :=
  match describe err with
  | inr reason => reason
  | inl _ => EmptyString
  end.

Definition instantiations (log : list Event) : list nat :=
  omap (fun e => match e with Instantiate i => Some i | _ => None end) log.

Definition resolutions (log : list Event) : list nat :=
  omap (fun e => match e with Resolve i => Some i | _ => None end) log.

End Chain.
Global Arguments ProviderFunc : clear implicits.
Global Arguments Chain : clear implicits.
End CredentialsProviderChain.

(** ** [SharedIniFileCredentials] *)

Module SharedIniFileCredentials.

(** A section of the decoded ini file, as [load] types it. *)
Record IniSection := {
  aws_access_key_id : option string;
  aws_secret_access_key : option string;
  aws_session_token : option string;
  credential_process : option string;
  ini_region : option string;            (* [region] *)
  x_principal_arn : option string;
  x_security_token_expires : option string;
}.

(** The private fields; [promise] points into the promise heap. *)
Record Instance := {
  filename : string;
  filedata : option string;
  profile : string;
  promise : option nat;
  promises : list PromiseState;
}.

Section Load.
Context `{Engine}.

(** [ini.decode], the parser of [./ini.ts]. *)
Variable decode : string -> gmap string IniSection.

(** The part of [load] behind [ini.decode]. *)
Definition loadFrom (profile : string) (data : gmap string IniSection)
  : Settled :=
  let config :=
    match data !! ("profile " +:+ profile) with
    | Some section => Some section
    | None => data !! profile
    end in
  match config with
  | None =>
      Rejected (newError
        ("Profile " +:+ profile +:+ " not found in credentials file"))
  | Some config =>
      if negb (truthyOpt (aws_access_key_id config))
         || negb (truthyOpt (aws_secret_access_key config))
      then Rejected (newError
             ("Profile " +:+ profile +:+ " lacks static credentials"))
      else Fulfilled {|
             awsAccessKeyId := default "" (aws_access_key_id config);
             awsSecretKey := default "" (aws_secret_access_key config);
             sessionToken := aws_session_token config;
             expiresAt := None;
             region := ini_region config |}
  end.

(** [load]: [readTextFile] is the outcome of [Deno.readTextFile] on
    [#filename], consulted only without inline data. *)
Definition load (self : Instance) (readTextFile : Value + string)
  : Settled :=
  let text :=
    match filedata self with
    | Some inline => inr inline
    | None => readTextFile
    end in
  match text with
  | inl err => Rejected err
  | inr text => loadFrom (profile self) (decode text)
  end.
End Load.

(** [getCredentials]: the promise the caller gets, and whether [load]
    was started for it. *)
Definition getCredentials (self : Instance) : nat * bool * Instance :=
  match promise self with
  | Some p => (p, false, self)
  | None =>
      let p := length (promises self) in
      (p, true,
       {| filename := filename self; filedata := filedata self;
          profile := profile self;
          promise := Some p;
          promises := promises self ++ [Pending] |})
  end.

(** The promise [p] of a started [load] settles. *)
Definition settle (p : nat) (r : Settled) (self : Instance) : Instance :=
  match promises self !! p with
  | Some Pending =>
      {| filename := filename self; filedata := filedata self;
         profile := profile self;
         promise := promise self;
         promises := <[p := Done r]> (promises self) |}
  | _ => self
  end.

Inductive Event :=
| Call
| Settle (p : nat) (r : Settled).

Definition step (self : Instance) (e : Event) : Instance :=
  match e with
  | Call => (getCredentials self).2
  | Settle p r => settle p r self
  end.

Definition run (self : Instance) (es : list Event) : Instance :=
  foldl step self es.

(** The number of [load] calls that a run of events starts. *)
Fixpoint loadsStarted (self : Instance) (es : list Event) : nat :=
  match es with
  | [] => 0
  | e :: es' =>
      (match e with
       | Call => if (getCredentials self).1.2 then 1 else 0
       | Settle _ _ => 0
       end) + loadsStarted (step self e) es'
  end.

Definition fresh (filename : string) (filedata : option string)
    (profile : string) : Instance :=
  {| filename := filename; filedata := filedata; profile := profile;
     promise := None; promises := [] |}.

(** How many promises of the heap are still pending. *)
Definition outstanding (self : Instance) : nat :=
  length (List.filter isPending (promises self)).

(** What holds of the fields between two events: nothing was loaded
    yet, or the one promise of the heap is in [#promise]. *)
Definition wellFormed (self : Instance) : Prop :=
  (promise self = None /\ promises self = [])
  \/ (promise self = Some 0 /\ length (promises self) = 1).

(** [constructor({profile, filename, filedata})]: what a denied read of
    the environment throws, or the instance. *)
Record Options := {
  optProfile : option string;
  optFilename : option string;
  optFiledata : option string;
}.

Definition new (env : Env) (opts : Options) : Value + Instance :=
  let inline := truthyOpt (optFiledata opts) in
  let filename :=
    if inline
    then (if truthyOpt (optFilename opts) then optFilename opts
          else Some "tmp://supplied-inline")
    else optFilename opts in
  match orEnv filename env "AWS_SHARED_CREDENTIALS_FILE" with
  | inl err => inl err
  | inr filename =>
      match (if truthyOpt filename then inr (default "" filename)
             else match envGet env "HOME" with
                  | inl err => inl err
                  | inr HOME =>
                      inr (default "undefined" HOME +:+ "/.aws/credentials")
                  end) with
      | inl err => inl err
      | inr filename =>
          match orEnv (optProfile opts) env "AWS_PROFILE" with
          | inl err => inl err
          | inr profile =>
              inr (fresh filename
                     (if inline then optFiledata opts else None)
                     (if truthyOpt profile then default "" profile
                      else "default"))
          end
      end
  end.

End SharedIniFileCredentials.

(** ** [EnvironmentCredentials] *)

Module EnvironmentCredentials.

(** [load] is not [async]: its promise is settled when it returns. *)
Record Instance := {
  prefix : string;
  promise : option Settled;
}.

Definition new (prefix : option string) : Instance :=
  {| prefix := default "AWS" prefix; promise := None |}.

(** [load]: the thrown value of a denied read, or the settled promise. *)
Definition load `{Engine} (env : Env) (self : Instance) : Value + Settled :=
  match envGet env (prefix self +:+ "_ACCESS_KEY_ID") with
  | inl err => inl err
  | inr AWS_ACCESS_KEY_ID =>
  match envGet env (prefix self +:+ "_SECRET_ACCESS_KEY") with
  | inl err => inl err
  | inr AWS_SECRET_ACCESS_KEY =>
  match envGet env (prefix self +:+ "_SESSION_TOKEN") with
  | inl err => inl err
  | inr AWS_SESSION_TOKEN =>
      if negb (truthyOpt AWS_ACCESS_KEY_ID)
         || negb (truthyOpt AWS_SECRET_ACCESS_KEY)
      then inr (Rejected (newError
             (prefix self +:+ " environment variables not set")))
      else inr (Fulfilled {|
             awsAccessKeyId := default "" AWS_ACCESS_KEY_ID;
             awsSecretKey := default "" AWS_SECRET_ACCESS_KEY;
             sessionToken := AWS_SESSION_TOKEN;
             expiresAt := None;
             region := None |})
  end end end.

(** [getCredentials]: the outcome, and whether [load] was called. *)
Definition getCredentials `{Engine} (env : Env) (self : Instance)
  : (Value + Settled) * bool * Instance :=
  match promise self with
  | Some r => (inr r, false, self)
  | None =>
      match load env self with
      | inl err => (inl err, true, self)
      | inr r => (inr r, true, {| prefix := prefix self; promise := Some r |})
      end
  end.

End EnvironmentCredentials.

(** ** The providers that cache with an expiry: [EcsTaskCredentials],
       [TokenFileWebIdentityCredentials], [EC2MetadataCredentials]

    The three classes have the same two fields [#promise] and
    [#expireAfter] and the same text of [getCredentials]; they differ in
    [load], whose outcome arrives here as a settlement event. *)

Module EcsTaskCredentials.

Record Instance := {
  promise : option nat;
  expireAfter : option Date;
  promises : list PromiseState;
}.

(** The fields as the class initialises them. *)
Definition fresh : Instance :=
  {| promise := None; expireAfter := None; promises := [] |}.

(** The first statement of [getCredentials], at clock reading [now]. *)
Definition expire (now : Z) (self : Instance) : Instance :=
  match expireAfter self with
  | Some limit =>
      if dateLt limit (DateMs now)
      then {| promise := None; expireAfter := None;
              promises := promises self |}
      else self
  | None => self
  end.

(** [getCredentials] at clock reading [now]: the promise the caller
    gets, and whether [load] was started for it. *)
Definition getCredentials (now : Z) (self : Instance)
  : nat * bool * Instance :=
  let self := expire now self in
  match promise self with
  | Some p => (p, false, self)
  | None =>
      let p := length (promises self) in
      (p, true,
       {| promise := Some p;
          expireAfter := expireAfter self;
          promises := promises self ++ [Pending] |})
  end.

(** The two callbacks given to [promise.then]: what they leave in
    [#expireAfter] when [load] settles with [r] at clock reading [now]. *)
Definition onSettled (now : Z) (r : Settled) (self : Instance)
  : option Date :=
  match r with
  | Fulfilled x =>
      match expiresAt x with
      | Some expires =>
          if dateLt (DateMs now) expires
          then Some (dateMinus expires (60 * 1000))
          else expireAfter self
      | None => expireAfter self
      end
  | Rejected _ => Some (DateMs (now + 30 * 1000))
  end.

(** The [load] behind promise [p] settles with [r] at [now]. *)
Definition settle (now : Z) (p : nat) (r : Settled) (self : Instance)
  : Instance :=
  match promises self !! p with
  | Some Pending =>
      {| promise := promise self;
         expireAfter := onSettled now r self;
         promises := <[p := Done r]> (promises self) |}
  | _ => self
  end.

Inductive Event :=
| Call (now : Z)
| Settle (now : Z) (p : nat) (r : Settled).

Definition step (self : Instance) (e : Event) : Instance :=
  match e with
  | Call now => (getCredentials now self).2
  | Settle now p r => settle now p r self
  end.

Definition run (self : Instance) (es : list Event) : Instance :=
  foldl step self es.

(** The number of [load] calls that a run of events starts. *)
Fixpoint loadsStarted (self : Instance) (es : list Event) : nat :=
  match es with
  | [] => 0
  | e :: es' =>
      (match e with
       | Call now => if (getCredentials now self).1.2 then 1 else 0
       | Settle _ _ _ => 0
       end) + loadsStarted (step self e) es'
  end.

(** The promises a run of calls hands out, in order. *)
Fixpoint handedOut (self : Instance) (times : list Z) : list nat :=
  match times with
  | [] => []
  | now :: rest =>
      (getCredentials now self).1.1
        :: handedOut (getCredentials now self).2 rest
  end.

(** How many promises of the heap are still pending. *)
Definition outstanding (self : Instance) : nat :=
  length (List.filter isPending (promises self)).

(** What holds of the fields between two events: a pending promise is
    the one in [#promise] and has no expiry yet, [#promise] points into
    the heap, and an expiry is only kept with a promise. *)
Record wellFormed (self : Instance) : Prop := {
  wf_pending : forall p,
    promises self !! p = Some Pending ->
    promise self = Some p /\ expireAfter self = None;
  wf_bound : forall p, promise self = Some p -> p < length (promises self);
  wf_unset : promise self = None -> expireAfter self = None;
}.

(** The state a call leaves when it starts [load] anew. *)
Definition reloading (self : Instance) : Instance :=
  {| promise := Some (length (promises self));
     expireAfter := None;
     promises := promises self ++ [Pending] |}.

(** *** The constructor and [load] *)

Record Options := {
  optRelativeUri : option string;
  optFullUri : option string;
  optServiceEndpoint : option string;
  optAuthHeader : option string;
}.

(** [#credUrl] and [#headers]. *)
Record Config := {
  credUrl : option string;
  requestHeaders : list (string * string);
}.

(** The constructor: what it throws (a denied read of the environment,
    [new URL], or [headers.set]), or the two fields. *)
Definition new `{Builtins} (env : Env) (opts : Options) : Value + Config :=
  match orEnv (optRelativeUri opts) env
          "AWS_CONTAINER_CREDENTIALS_RELATIVE_URI" with
  | inl err => inl err
  | inr relativeUri =>
  match orEnv (optFullUri opts) env "AWS_CONTAINER_CREDENTIALS_FULL_URI" with
  | inl err => inl err
  | inr fullUri =>
  match orEnv (optServiceEndpoint opts) env "AWS_CONTAINER_SERVICE_ENDPOINT" with
  | inl err => inl err
  | inr serviceEndpoint =>
  let serviceEndpoint :=
    if truthyOpt serviceEndpoint then default "" serviceEndpoint
    else "http://169.254.170.2" in
  match orEnv (optAuthHeader opts) env "AWS_CONTAINER_AUTHORIZATION_TOKEN" with
  | inl err => inl err
  | inr authHeader =>
  match (if truthyOpt relativeUri
         then match resolveUrl (default "" relativeUri) serviceEndpoint with
              | inl err => inl err
              | inr url => inr (Some url)
              end
         else inr fullUri) with
  | inl err => inl err
  | inr credUrl =>
      if truthyOpt authHeader
      then match headerValue (default "" authHeader) with
           | inl err => inl err
           | inr stored =>
               inr {| credUrl := credUrl;
                      requestHeaders :=
                        [("accept", "application/json");
                         ("authorization", stored)] |}
           end
      else inr {| credUrl := credUrl;
                  requestHeaders := [("accept", "application/json")] |}
  end end end end end.

(** The body of the endpoint's answer, as [load] types it. *)
Record Data := {
  AccessKeyId : string;
  SecretAccessKey : string;
  Token : string;
  Expiration : string;
  RoleArn : string;
}.

(** A response: its status, and what [resp.json()] gives or throws. *)
Record Response := {
  status : Z;
  json : Value + Data;
}.

(** A request of [load]: the URL and the headers that [fetch] is called
    with. *)
Definition Request : Type := string * list (string * string).

(** [load], awaited to completion: what it settles with, and the
    requests it has sent.  [fetch url headers] is how the request ends:
    a rejection (also that of the 5 second time-out) or a response. *)
Definition loadLogged `{Engine} `{Builtins} (self : Config)
    (fetch : string -> list (string * string) -> Value + Response)
  : Settled * list Request :=
  if negb (truthyOpt (credUrl self))
  then (Rejected (newError "AWS_CONTAINER_CREDENTIALS_RELATIVE_URI not set"),
        [])
  else
    (match fetch (default "" (credUrl self)) (requestHeaders self) with
     | inl err => Rejected err
     | inr resp =>
         if (300 <=? status resp)%Z
         then Rejected (newError
                ("ECS service endpoint returned HTTP "
                 +:+ pretty (status resp)))
         else
           match json resp with
           | inl err => Rejected err
           | inr data =>
               match parseDate (Expiration data) with
               | InvalidDate =>
                   Rejected (newError
                     ("Failed to parse ECS expiration date: "
                      +:+ jsonString (Expiration data)))
               | DateMs _ =>
                   Fulfilled {|
                     awsAccessKeyId := AccessKeyId data;
                     awsSecretKey := SecretAccessKey data;
                     sessionToken := Some (Token data);
                     expiresAt := Some (parseDate (Expiration data));
                     region := None |}
               end
           end
     end,
     [(default "" (credUrl self), requestHeaders self)]).

(** What [load] settles with. *)
Definition load `{Engine} `{Builtins} (self : Config)
    (fetch : string -> list (string * string) -> Value + Response)
  : Settled :=
  (loadLogged self fetch).1.

(** A call of [getCredentials] at [now], together with the [load] that
    it starts if it starts one: the requests made for that call. *)
Definition requestsOnCall `{Engine} `{Builtins} (self : Config)
    (fetch : string -> list (string * string) -> Value + Response)
    (now : Z) (cache : Instance) : list Request :=
  if (getCredentials now cache).1.2 then (loadLogged self fetch).2 else [].

End EcsTaskCredentials.

Module TokenFileWebIdentityCredentials.
Definition getCredentials := EcsTaskCredentials.getCredentials.
Definition settle := EcsTaskCredentials.settle.
(** *** The constructor and [load] *)

Record Options := {
  optRoleArn : option string;
  optTokenPath : option string;
  optSessionName : option string;
}.

Record Config := {
  roleArn : option string;
  tokenPath : option string;
  sessionName : string;
}.

Definition new (env : Env) (opts : Options) : Value + Config :=
  match orEnv (optRoleArn opts) env "AWS_ROLE_ARN" with
  | inl err => inl err
  | inr roleArn =>
  match orEnv (optTokenPath opts) env "AWS_WEB_IDENTITY_TOKEN_FILE" with
  | inl err => inl err
  | inr tokenPath =>
  match orEnv (optSessionName opts) env "AWS_ROLE_SESSION_NAME" with
  | inl err => inl err
  | inr sessionName =>
      inr {| roleArn := roleArn; tokenPath := tokenPath;
             sessionName :=
               if truthyOpt sessionName then default "" sessionName
               else "token-file-web-identity" |}
  end end end.

(** [interface AssumedCredentials] *)
Record AssumedCredentials := {
  AccessKeyId : string;
  SecretAccessKey : string;
  SessionToken : string;
  Expiration : Date;
}.

Section Load.
Context `{Engine} `{Builtins}.

(** [parseXmlTimestamp] *)
Definition parseXmlTimestamp (str : option string) : Value + Date :=
  match str with
  | Some str =>
      if includesChar "T" str then inr (parseDate str)
      else if (String.length str =? 10)%nat then inr (dateFromSeconds str)
      else inl (newError ("Timestamp from STS is unparsable: '" +:+ str +:+ "'"))
  | None => inl (newError "Timestamp from STS is unparsable: 'undefined'")
  end.

Definition assumedKeys : list string :=
  ["AccessKeyId"; "SecretAccessKey"; "SessionToken"].

(** [parseAssumedCredentials] *)
Definition parseAssumedCredentials (node : Xml.XmlNode)
  : Value + AssumedCredentials :=
  match Xml.strings node assumedKeys [] with
  | inl err => inl err
  | inr obj =>
      match Xml.firstWith node "Expiration" true
              (fun x => match parseXmlTimestamp (Xml.content x) with
                        | inl err => inl err
                        | inr date => inr (Some date)
                        end) with
      | inl err => inl err
      | inr expiration =>
          inr {| AccessKeyId := default "" (obj !! "AccessKeyId");
                 SecretAccessKey := default "" (obj !! "SecretAccessKey");
                 SessionToken := default "" (obj !! "SessionToken");
                 (* with [required] the result is never [undefined] *)
                 Expiration := default InvalidDate expiration |}
      end
  end.

(** [parseXml], the parser of this file. *)
Variable parseXml : string -> Xml.Document.

(** [assumeRoleWithWebIdentity] on what the request and [resp.text()]
    give. *)
Definition assumeRoleWithWebIdentity (response : Value + string)
  : Value + AssumedCredentials :=
  match response with
  | inl err => inl err
  | inr text =>
      match Xml.readXmlResult (parseXml text)
              (Some "AssumeRoleWithWebIdentityResult") with
      | inl err => inl err
      | inr xml =>
          match Xml.firstWith xml "Credentials" true
                  (fun node => match parseAssumedCredentials node with
                               | inl err => inl err
                               | inr creds => inr (Some creds)
                               end) with
          | inl err => inl err
          | inr (Some creds) => inr creds
          | inr None => inl (Xml.missingKeys xml ["Credentials"])
          end
      end
  end.

(** The client that [buildServiceClient] returns, as this file uses
    it: [performRequest] with the three parameters of the action, then
    [resp.text()]. *)
Definition StsClient := string -> string -> string -> Value + string.

(** A request of [load]: the three parameters that the client's
    [performRequest] is called with. *)
Definition Request : Type := string * string * string.

(** [load], awaited to completion: what it settles with, and the
    requests it has sent.  [buildServiceClient] is what building the
    client gives or throws, [readTextFile path] the outcome of reading
    the token file. *)
Definition loadLogged (self : Config)
    (buildServiceClient : Value + StsClient)
    (readTextFile : string -> Value + string) : Settled * list Request :=
  if negb (truthyOpt (tokenPath self))
  then (Rejected (newError "No WebIdentityToken file path is set"), [])
  else if negb (truthyOpt (roleArn self))
  then (Rejected (newError "No Role ARN is set"), [])
  else
    match buildServiceClient with
    | inl err => (Rejected err, [])
    | inr client =>
        match readTextFile (default "" (tokenPath self)) with
        | inl err => (Rejected err, [])
        | inr token =>
            (match assumeRoleWithWebIdentity
                     (client (default "" (roleArn self)) (sessionName self)
                        token) with
             | inl err => Rejected err
             | inr resp =>
                 Fulfilled {|
                   awsAccessKeyId := AccessKeyId resp;
                   awsSecretKey := SecretAccessKey resp;
                   sessionToken := Some (SessionToken resp);
                   expiresAt := Some (Expiration resp);
                   region := None |}
             end,
             [(default "" (roleArn self), sessionName self, token)])
        end
    end.

(** What [load] settles with. *)
Definition load (self : Config)
    (buildServiceClient : Value + StsClient)
    (readTextFile : string -> Value + string) : Settled :=
  (loadLogged self buildServiceClient readTextFile).1.

(** A call of [getCredentials] at [now], together with the [load] that
    it starts if it starts one: the requests made for that call. *)
Definition requestsOnCall (self : Config)
    (buildServiceClient : Value + StsClient)
    (readTextFile : string -> Value + string)
    (now : Z) (cache : EcsTaskCredentials.Instance) : list Request :=
  if (getCredentials now cache).1.2
  then (loadLogged self buildServiceClient readTextFile).2
  else [].

End Load.

End TokenFileWebIdentityCredentials.

(** ** [client/instance-metadata.ts]: the metadata client *)

Module IMDSv2.

Local Open Scope float_scope.

Inductive EndpointMode := IPv4 | IPv6.

(** The argument of the constructor. *)
Record Options := {
  optServiceEndpoint : option string;
  optEndpointMode : option EndpointMode;
  optEndpointPath : option string;
  optTimeoutMs : option float;
  optApiTimeoutMs : option float;
  optTokenTtlSeconds : option float;
}.

Definition noOptions : Options :=
  {| optServiceEndpoint := None; optEndpointMode := None;
     optEndpointPath := None; optTimeoutMs := None;
     optApiTimeoutMs := None; optTokenTtlSeconds := None |}.

Inductive Method := GET | HEAD | PUT.

Inductive HeaderValue :=
| Text (s : string)
| Fixed0 (x : float).          (* [x.toFixed(0)] *)

(** The argument of [#performRawRequest]. *)
Record RawRequest := {
  method : Method;
  path : string;
  requestTimeoutMs : float;
  headers : list (string * HeaderValue);
}.

(** A timer armed with [setTimeout]: the token its callback closes
    over, and the delay. *)
Record Timer := { timerToken : string; timerDelay : float }.

(** The fields of the client.  [baseUrl] keeps the two arguments of
    the [new URL(endpointPath, serviceEndpoint)] that the constructor
    has built; [timers] and [requests] are the runtime's timer queue and
    the requests issued so far. *)
Record Client := {
  baseUrl : string * string;
  timeoutMs : float;
  apiTimeoutMs : float;
  tokenTtlSeconds : float;
  cachedToken : option string;
  timers : list Timer;
  requests : list RawRequest;
}.

Definition disabledMessage : string :=
  "IMDSv2 client is disabled via environment: AWS_EC2_METADATA_DISABLED=true".

(** The constructor: what it throws (the error of the disabled client,
    or what [new URL] throws on an endpoint that is no URL), or the
    client. *)
Definition new `{Engine} `{Builtins} (env : Env) (opts : Options)
  : Value + Client :=
  let disabled :=
    match envGet env "AWS_EC2_METADATA_DISABLED" with
    | inr (Some v) => String.eqb v "true"
    | _ => false
    end in
  if disabled
  then inl (newError disabledMessage)
  else
    let serviceEndpoint := optServiceEndpoint opts in
    let serviceEndpoint :=
      if truthyOpt serviceEndpoint then serviceEndpoint
      else match envGet env "AWS_EC2_METADATA_SERVICE_ENDPOINT" with
           | inr v => v
           | inl _ => serviceEndpoint
           end in
    let serviceEndpoint :=
      if truthyOpt serviceEndpoint then default EmptyString serviceEndpoint
      else
        let endpointMode :=
          match optEndpointMode opts with
          | Some mode => Some mode
          | None =>
              match envGet env "AWS_EC2_METADATA_SERVICE_ENDPOINT_MODE" with
              | inr (Some v) =>
                  if String.eqb v "IPv6" then Some IPv6 else None
              | _ => None
              end
          end in
        match endpointMode with
        | Some IPv6 => "http://[fd00:ec2::254]"%string
        | _ => "http://169.254.169.254"%string
        end in
    let endpointPath := default "latest/"%string (optEndpointPath opts) in
    match resolveUrl endpointPath serviceEndpoint with
    | inl err => inl err
    | inr _ =>
        inr {| baseUrl := (endpointPath, serviceEndpoint);
               timeoutMs := mathFloor (default 1000 (optTimeoutMs opts));
               apiTimeoutMs :=
                 mathFloor (default 5000 (optApiTimeoutMs opts));
               tokenTtlSeconds :=
                 mathFloor (default 21600 (optTokenTtlSeconds opts));
               cachedToken := None;
               timers := [];
               requests := [] |}
    end.

(** [fetchNewToken] up to its [await]: the request it issues, and the
    [ttlSeconds] it keeps for the result. *)
Definition fetchNewToken (self : Client) : RawRequest * float :=
  let ttlSeconds := tokenTtlSeconds self in
  ({| method := PUT;
      path := "api/token";
      requestTimeoutMs :=
        if truthyOpt (cachedToken self)
        then apiTimeoutMs self else timeoutMs self;
      headers :=
        [("x-aws-ec2-metadata-token-ttl-seconds"%string,
          Fixed0 ttlSeconds)] |},
   ttlSeconds).

(** What [fetchNewToken] returns when the request answers [respText]. *)
Definition fetchNewTokenResult (ttlSeconds : float) (respText : string)
  : string * float :=
  (respText, mathFloor (ttlSeconds * 0.95 * 1000)).

(** [getToken] stops at its [await] or returns at once. *)
Inductive TokenStep :=
| TokenCached (token : string)
| TokenFetching (request : RawRequest) (ttlSeconds : float).

Definition withRequest (self : Client) (request : RawRequest) : Client :=
  {| baseUrl := baseUrl self; timeoutMs := timeoutMs self;
     apiTimeoutMs := apiTimeoutMs self;
     tokenTtlSeconds := tokenTtlSeconds self;
     cachedToken := cachedToken self; timers := timers self;
     requests := requests self ++ [request] |}.

Definition withToken (self : Client) (token : option string)
    (timers : list Timer) : Client :=
  {| baseUrl := baseUrl self; timeoutMs := timeoutMs self;
     apiTimeoutMs := apiTimeoutMs self;
     tokenTtlSeconds := tokenTtlSeconds self;
     cachedToken := token; timers := timers;
     requests := requests self |}.

(** [getToken] up to its [await]. *)
Definition getToken (self : Client) : TokenStep * Client :=
  if truthyOpt (cachedToken self)
  then (TokenCached (default EmptyString (cachedToken self)), self)
  else
    let '(request, ttlSeconds) := fetchNewToken self in
    (TokenFetching request ttlSeconds, withRequest self request).

(** [getToken] behind its [await]: [resp] is what [#performRawRequest]
    threw or returned for the token request. *)
Definition getTokenResume (ttlSeconds : float) (resp : Value + string)
    (self : Client) : (Value + string) * Client :=
  match resp with
  | inl err => (inl err, self)
  | inr respText =>
      let '(newToken, expireAfterMillis) :=
        fetchNewTokenResult ttlSeconds respText in
      (inr newToken,
       withToken self (Some newToken)
         (timers self ++
          [{| timerToken := newToken;
              timerDelay := mathMax 1000 expireAfterMillis |}]))
  end.

(** The callback given to [setTimeout]. *)
Definition timerCallback (newToken : string) (self : Client) : Client :=
  match cachedToken self with
  | Some token =>
      if String.eqb token newToken
      then withToken self None (timers self)
      else self
  | None => self
  end.

(** The runtime fires the timer at position [k] of its queue. *)
Definition fireTimer (k : nat) (self : Client) : Client :=
  match timers self !! k with
  | Some timer =>
      timerCallback (timerToken timer)
        (withToken self (cachedToken self) (delete k (timers self)))
  | None => self
  end.

(** The formula of the specification for the delay of the
    invalidation: max(1000, floor(0.95 * ttlSeconds * 1000)). *)
Definition specifiedDelay (ttlSeconds : float) : float :=
  mathMax 1000 (mathFloor (0.95 * ttlSeconds * 1000)).

(** *** Requests *)

(** An [Error] object, with the [status] property that
    [#performRawRequest] adds to some of them. *)
Record ErrorObject := {
  errMessage : string;
  errStack : option string;
  errStatus : option Z;
}.

Definition toValue (err : ErrorObject) : Value :=
  VError (errMessage err) (errStack err).

(** [new Error(message)] *)
Definition plainError `{Engine} (message : string) : ErrorObject :=
  {| errMessage := message; errStack := captureStack message;
     errStatus := None |}.

(** [new Error(message)] with [err.status = status] *)
Definition statusError `{Engine} (message : string) (status : Z)
  : ErrorObject :=
  {| errMessage := message; errStack := captureStack message;
     errStatus := Some status |}.

(** How the [fetch] of a request ends: the time-out aborts it, it
    rejects with an error, or a response arrives, whose [text()] is read
    only for a status that is let through. *)
Inductive FetchOutcome :=
| Aborted
| Failed (err : ErrorObject)
| Responded (status : Z) (text : ErrorObject + string).

Definition methodName (m : Method) : string :=
  match m with GET => "GET" | HEAD => "HEAD" | PUT => "PUT" end.

(** [#performRawRequest] on the outcome of its [fetch]. *)
Definition performRawRequest `{Engine} `{Builtins} (opts : RawRequest)
    (outcome : FetchOutcome) : ErrorObject + string :=
  let timeoutText :=
    "Instance Metadata Timeout: "
    +:+ numberToString (requestTimeoutMs opts) +:+ "ms" in
  match outcome with
  | Aborted => inl (plainError timeoutText)
  | Failed err => inl err
  | Responded status text =>
      if (400 <=? status)%Z && (status <? 500)%Z
         && String.eqb (path opts) "api/token"
      then inl (plainError
             ("Metadata server gave HTTP " +:+ pretty status
              +:+ " when asked for an IMDSv2 token; is this not AWS?"))
      else if (299 <? status)%Z
      then inl (statusError
             ("Metadata server gave HTTP " +:+ pretty status +:+ " to "
              +:+ methodName (method opts) +:+ " /" +:+ path opts)
             status)
      else text
  end.

(** The network as the client meets it: the outcome of the [n]-th
    request that the client issues. *)
Definition Network := nat -> RawRequest -> FetchOutcome.

(** [performRequest(method, path)], awaited to completion. *)
Definition performRequest `{Engine} `{Builtins} (net : Network)
    (method : Method) (path : string) (self : Client)
  : (ErrorObject + string) * Client :=
  let timeoutMs := apiTimeoutMs self in
  let send (token : string) (self : Client) :=
    let request :=
      {| method := method; path := path; requestTimeoutMs := timeoutMs;
         headers := [("x-aws-ec2-metadata-token"%string, Text token)] |} in
    (performRawRequest request (net (length (requests self)) request),
     withRequest self request) in
  match getToken self with
  | (TokenCached token, self1) => send token self1
  | (TokenFetching tokenRequest ttlSeconds, self1) =>
      match performRawRequest tokenRequest
              (net (length (requests self)) tokenRequest) with
      | inl err => (inl err, self1)
      | inr respText =>
          send respText (getTokenResume ttlSeconds (inr respText) self1).2
      end
  end.

(** What happens to the token cache: the token of a fetch arrives, or
    the runtime fires a timer. *)
Inductive CacheEvent :=
| TokenArrives (ttlSeconds : float) (respText : string)
| TimerFires (k : nat).

Definition cacheStep (self : Client) (e : CacheEvent) : Client :=
  match e with
  | TokenArrives ttlSeconds respText =>
      (getTokenResume ttlSeconds (inr respText) self).2
  | TimerFires k => fireTimer k self
  end.

Definition cacheRun (self : Client) (es : list CacheEvent) : Client :=
  foldl cacheStep self es.

(** A cached token has a timer that will clear it. *)
Definition tokenGuarded (self : Client) : Prop :=
  forall token, cachedToken self = Some token ->
    exists timer, timer ∈ timers self /\ timerToken timer = token.

(** [n] calls of [getToken], none of them answered yet. *)
Fixpoint getTokenTimes (n : nat) (self : Client) : Client :=
  match n with
  | O => self
  | S n' => getTokenTimes n' (getToken self).2
  end.

End IMDSv2.

(** ** [EC2MetadataCredentials]: the constructor *)

Module EC2MetadataCredentials.

Record Instance := {
  service : IMDSv2.Client;
  cache : EcsTaskCredentials.Instance;
}.

Definition getCredentials := EcsTaskCredentials.getCredentials.
Definition settle := EcsTaskCredentials.settle.

(** [new EC2MetadataCredentials(opts)]: [opts.client ?? new IMDSv2]. *)
Definition new `{Engine} `{Builtins} (env : Env)
    (client : option IMDSv2.Client) : Value + Instance :=
  match client with
  | Some c => inr {| service := c; cache := EcsTaskCredentials.fresh |}
  | None =>
      match IMDSv2.new env IMDSv2.noOptions with
      | inl err => inl err
      | inr c => inr {| service := c; cache := EcsTaskCredentials.fresh |}
      end
  end.

(** The last element of [DefaultCredentialsProvider]'s chain,
    [() => new EC2MetadataCredentials()].  [envOf] reads the
    environment off the world; [asProvider] is the instance's
    [getCredentials] awaited to completion. *)
Definition providerFunc `{Engine} `{Builtins} {World : Type}
    (envOf : World -> Env)
    (asProvider : Instance ->
                  Common.CredentialsProvider World)
  : CredentialsProviderChain.ProviderFunc World :=
  {| CredentialsProviderChain.source :=
       "() => new EC2MetadataCredentials()";
     CredentialsProviderChain.call w :=
       match new (envOf w) None with
       | inl err => (inl err, w)
       | inr instance => (inr (asProvider instance), w)
       end |}.

(** *** [load] *)

(** The credential document of the metadata service, as [load] types
    what [JSON.parse] returns. *)
Record CredentialDocument := {
  Code : string;
  LastUpdated : string;
  Type_ : string;
  AccessKeyId : string;
  SecretAccessKey : string;
  Token : string;
  Expiration : string;
}.

Definition roleListPath : string := "meta-data/iam/security-credentials/".
Definition regionPath : string := "meta-data/placement/region".

Section Load.
Context `{Engine} `{Builtins}.

(** [JSON.parse] of the credential document; it can throw. *)
Variable parseDocument : string -> IMDSv2.ErrorObject + CredentialDocument.

(** What [roleListReq] settles with. *)
Definition roleListOf (r : IMDSv2.ErrorObject + string)
  : IMDSv2.ErrorObject + list string :=
  match r with
  | inr x => inr (if truthyString x then lines x else [])
  | inl err =>
      match IMDSv2.errStatus err with
      | Some 404%Z =>
          inl (IMDSv2.plainError
                 "This EC2 Instance doesn't have an IAM instance role attached")
      | _ => inl err
      end
  end.

(** [roleList.length !== 1 || !roleList[0]] *)
Definition unexpectedRoleList (roleList : list string) : bool :=
  match roleList with
  | [role] => negb (truthyString role)
  | _ => true
  end.

(** [load] behind the check of the role list: the requests for the
    credential document of [role] and for the region. *)
Definition loadRole (net : IMDSv2.Network) (role : string)
    (s1 : IMDSv2.Client) : Settled * IMDSv2.Client :=
  let '(r2, s2) :=
    IMDSv2.performRequest net IMDSv2.GET (roleListPath +:+ role) s1 in
  match r2 with
  | inl err => (Rejected (IMDSv2.toValue err), s2)
  | inr text =>
      match parseDocument text with
      | inl err => (Rejected (IMDSv2.toValue err), s2)
      | inr credential =>
          if negb (String.eqb (Code credential) "Success")
          then (Rejected (newError
                  ("Unexpected EC2 instance credential code: "
                   +:+ Code credential)), s2)
          else if negb (String.eqb (Type_ credential) "AWS-HMAC")
          then (Rejected (newError
                  ("Unexpected EC2 instance credential type: "
                   +:+ Type_ credential)), s2)
          else
            let '(r3, s3) :=
              IMDSv2.performRequest net IMDSv2.GET regionPath s2 in
            match r3 with
            | inl err => (Rejected (IMDSv2.toValue err), s3)
            | inr region =>
                (Fulfilled {|
                   awsAccessKeyId := AccessKeyId credential;
                   awsSecretKey := SecretAccessKey credential;
                   sessionToken := Some (Token credential);
                   expiresAt := Some (parseDate (Expiration credential));
                   region := Some region |}, s3)
            end
      end
  end.

(** [load], awaited to completion, with the client it leaves. *)
Definition load (net : IMDSv2.Network) (service : IMDSv2.Client)
  : Settled * IMDSv2.Client :=
  let '(r1, s1) := IMDSv2.performRequest net IMDSv2.GET roleListPath service in
  match roleListOf r1 with
  | inl err => (Rejected (IMDSv2.toValue err), s1)
  | inr roleList =>
      if unexpectedRoleList roleList
      then (Rejected (newError
              ("Unexpected EC2 instance role list: "
               +:+ jsonStrings roleList)), s1)
      else loadRole net (List.hd EmptyString roleList) s1
  end.

(** A call of [getCredentials] at [now], together with the [load] that
    it starts if it starts one: the requests made for that call, which
    are those that [load] adds to the requests of the client, one for
    each call of [#performRawRequest]. *)
Definition requestsOnCall (net : IMDSv2.Network) (service : IMDSv2.Client)
    (now : Z) (cache : EcsTaskCredentials.Instance)
  : list IMDSv2.RawRequest :=
  if (getCredentials now cache).1.2
  then drop (length (IMDSv2.requests service))
         (IMDSv2.requests (load net service).2)
  else [].

End Load.

End EC2MetadataCredentials.

(** ** Sample inputs *)

Module Samples.
Import CredentialsProviderChain.

(** A world that only counts the calls made to providers. *)
Definition rejecting (err : Value) : Common.CredentialsProvider nat :=
  {| Common.getCredentials w := (Rejected err, S w) |}.

Definition resolving (creds : Credentials) : Common.CredentialsProvider nat :=
  {| Common.getCredentials w := (Fulfilled creds, S w) |}.

Definition factory (name : string) (p : Common.CredentialsProvider nat)
  : ProviderFunc nat :=
  {| source := "() => new " +:+ name; call w := (inr p, w) |}.

Definition throwing (name : string) (err : Value) : ProviderFunc nat :=
  {| source := "() => new " +:+ name; call w := (inl err, w) |}.

Definition staticCreds : Credentials :=
  {| awsAccessKeyId := "AKIDEXAMPLE"; awsSecretKey := "secret";
     sessionToken := None; expiresAt := None; region := None |}.

(** What [load] throws on HTTP 500 from the container endpoint. *)
Definition http500 : Value :=
  newError (H := v8) "ECS service endpoint returned HTTP 500".

(** A factory whose constructor throws. *)
Definition unavailable : Value :=
  newError (H := v8) "Broken is not available here".

Definition broken : ProviderFunc nat := throwing "Broken()" unavailable.

(** A foreign provider that rejects with [Object.create(null)]: calling
    its [toString] throws a [TypeError]. *)
Definition notCallable : Value :=
  newError (H := v8) "err.toString is not a function".

Definition bare : ProviderFunc nat :=
  factory "Bare()" (rejecting (VOther (inl notCallable))).

(** A foreign provider that rejects with [undefined]. *)
Definition silent : ProviderFunc nat :=
  factory "Silent()" (rejecting VUndefined).

Definition unset : ProviderFunc nat :=
  factory "EnvironmentCredentials('AWS')"
    (rejecting (newError (H := v8) "AWS environment variables not set")).

Definition static : ProviderFunc nat :=
  factory "Static()" (resolving staticCreds).

(** Session credentials that expire at clock reading [T]. *)
Definition expiringAt (T : Z) : Credentials :=
  {| awsAccessKeyId := "ASIAEXAMPLE"; awsSecretKey := "secret";
     sessionToken := Some "token"; expiresAt := Some (DateMs T);
     region := None |}.

(** An environment that disables the metadata service. *)
Definition metadataDisabled : Env :=
  {| envVars := {[ "AWS_EC2_METADATA_DISABLED" := "true" ]};
     envDenial := None |}.

Definition noEnvironment : Env := {| envVars := ∅; envDenial := None |}.

(** [new IMDSv2()] in an environment without metadata settings. *)
Definition defaultClient : IMDSv2.Client :=
  {| IMDSv2.baseUrl := ("latest/", "http://169.254.169.254");
     IMDSv2.timeoutMs := 1000;
     IMDSv2.apiTimeoutMs := 5000;
     IMDSv2.tokenTtlSeconds := 21600;
     IMDSv2.cachedToken := None;
     IMDSv2.timers := [];
     IMDSv2.requests := [] |}.

(** [[profile foo]] with an access key that is there but empty:
    [aws_access_key_id =] and [aws_secret_access_key = secret]. *)
Definition emptyKeySection : SharedIniFileCredentials.IniSection :=
  {| SharedIniFileCredentials.aws_access_key_id := Some "";
     SharedIniFileCredentials.aws_secret_access_key := Some "secret";
     SharedIniFileCredentials.aws_session_token := None;
     SharedIniFileCredentials.credential_process := None;
     SharedIniFileCredentials.ini_region := None;
     SharedIniFileCredentials.x_principal_arn := None;
     SharedIniFileCredentials.x_security_token_expires := None |}.

Definition emptyKeyFile : gmap string SharedIniFileCredentials.IniSection :=
  {[ "profile foo" := emptyKeySection ]}.

End Samples.

(** ** [main.ts]: the secret-santa script *)

Module SecretSanta.
Import Collections.

Record Person := { name : string; email : string }.

(** [z.infer<typeof DataSchema>] *)
Record SecretSantaInput := {
  people : list Person;
  pools : list (list string);
}.

(** [pools.flatMap((it) => it)] *)
Definition flatten (pools : list (list string)) : list string := concat pools.

(** The four predicates given to [.refine], with their messages. *)
Definition sameTotal (input : SecretSantaInput) : bool :=
  bool_decide (length (people input) = length (flatten (pools input))).

Definition poolsDistinct (input : SecretSantaInput) : bool :=
  let flat := flatten (pools input) in
  bool_decide (length (newSet flat) = length flat).

Definition peopleDistinct (input : SecretSantaInput) : bool :=
  let flat := map name (people input) in
  bool_decide (length (newSet flat) = length flat).

Definition poolsKnown (input : SecretSantaInput) : bool :=
  let peopleSet := newSet (map name (people input)) in
  forallb (fun person => has peopleSet person) (flatten (pools input)).

Definition refinements : list ((SecretSantaInput -> bool) * string) :=
  [(sameTotal,
    "The total number of elements in people and pools should be the same");
   (poolsDistinct, "There should be no duplicates in the pools");
   (peopleDistinct, "There should be no duplicates in the people list");
   (poolsKnown,
    "The names in the pools should correspond to the names in the people list")].

(** [DataSchema.parse] on data of the right shape: the messages of the
    refinements that fail, or the data. *)
Definition parse (input : SecretSantaInput) : list string + SecretSantaInput :=
  match List.filter (fun r => negb (r.1 input)) refinements with
  | [] => inr input
  | failed => inl (map snd failed)
  end.

(** The private fields of [SecretSantaAssigner]. *)
Record Assigner := {
  peopleSet : list string;
  peopleDetails : gmap string Person;
  poolMap : gmap string (list string);
}.

(** The constructor. *)
Definition new (input : SecretSantaInput) : Assigner :=
  {| peopleSet := newSet (map name (people input));
     peopleDetails := newMap (map (fun p => (name p, p)) (people input));
     poolMap :=
       newMap (flat_map (fun pool =>
                           let poolSet := newSet pool in
                           map (fun person => (person, poolSet)) pool)
                        (pools input)) |}.

(** [[array[i], array[j]] = [array[j], array[i]]] for indices inside
    the array. *)
Definition swap {T : Type} (i j : nat) (array : list T) : list T :=
  match array !! i, array !! j with
  | Some ai, Some aj => <[j := ai]> (<[i := aj]> array)
  | _, _ => array
  end.

(** The loop of [#shuffle] from index [i] down to 1.  [draw k i] is what
    [Math.floor(Math.random() * (i + 1))] gives at the [k]-th call of
    [Math.random], a "random index from 0 to i"; the result carries the
    number of calls made so far. *)
Fixpoint shuffleFrom {T : Type} (draw : nat -> nat -> nat) (k i : nat)
    (array : list T) : list T * nat :=
  match i with
  | O => (array, k)
  | S i' =>
      let j := draw k i in
      shuffleFrom draw (S k) i' (swap i j array)
  end.

(** [#shuffle(array)] *)
Definition shuffle {T : Type} (draw : nat -> nat -> nat) (k : nat)
    (array : list T) : list T * nat :=
  shuffleFrom draw k (length array - 1) array.

(** [#isOkayAssignment] *)
Definition isOkayAssignment (self : Assigner) (a : string * string) : bool :=
  let '(giver, receiver) := a in
  has (peopleSet self) giver
  && has (peopleSet self) receiver
  && negb (match poolMap self !! giver with
           | Some pool => has pool receiver
           | None => false
           end).

(** [#makeAssignments] *)
Definition makeAssignments (draw : nat -> nat -> nat) (k : nat)
    (self : Assigner) : list (string * string) * nat :=
  let givers := peopleSet self in
  let '(receivers, k') := shuffle draw k givers in
  (zip givers receivers, k').

Record Assignment := {
  giverName : string;
  giverEmail : string;
  receiverName : string;
}.

(** [#formatAssignment]: [None] when [get(giver)!.email] throws. *)
Definition formatAssignment (self : Assigner) (a : string * string)
  : option Assignment :=
  let '(giver, receiver) := a in
  match peopleDetails self !! giver with
  | Some p =>
      Some {| giverName := giver; giverEmail := email p;
              receiverName := receiver |}
  | None => None
  end.

Inductive RunResult :=
| Looping                       (* still in the [do] loop when the fuel ends *)
| Threw
| Returned (assignments : list Assignment).

(** [candidateAssignments.map(this.#formatAssignment.bind(this))] *)
Definition formatAll (self : Assigner) (candidate : list (string * string))
  : RunResult :=
  match mapM (formatAssignment self) candidate with
  | Some assignments => Returned assignments
  | None => Threw
  end.

(** [run]: at most [fuel] rounds of the [do ... while] loop. *)
Fixpoint run (fuel : nat) (draw : nat -> nat -> nat) (k : nat)
    (self : Assigner) : RunResult :=
  match fuel with
  | O => Looping
  | S fuel' =>
      let '(candidateAssignments, k') := makeAssignments draw k self in
      if forallb (isOkayAssignment self) candidateAssignments
      then formatAll self candidateAssignments
      else run fuel' draw k' self
  end.

(** The candidate of round [n] of the loop, rounds counted from 0. *)
Fixpoint candidate (n : nat) (draw : nat -> nat -> nat) (k : nat)
    (self : Assigner) : list (string * string) :=
  match n with
  | O => (makeAssignments draw k self).1
  | S n' => candidate n' draw (makeAssignments draw k self).2 self
  end.

Record Line := { giver : string; receiver : string }.

(** The names that [{}] inherits from [Object.prototype] under Deno,
    the runtime of the script: for these [acc[email]] is a function,
    not [undefined].  Deno removes the accessor [__proto__] from
    [Object.prototype], so that name is a key like any other. *)
Definition objectPrototypeKeys : list string :=
  ["constructor"; "__defineGetter__"; "__defineSetter__"; "hasOwnProperty";
   "__lookupGetter__"; "__lookupSetter__"; "isPrototypeOf";
   "propertyIsEnumerable"; "toString"; "valueOf"; "toLocaleString"].

(** The callback given to [assignments.reduce]: [None] when spreading
    [currentRecords] throws because it is not iterable. *)
Definition consolidateStep (acc : gmap string (list Line)) (a : Assignment)
  : option (gmap string (list Line)) :=
  let line := {| giver := giverName a; receiver := receiverName a |} in
  match acc !! giverEmail a with
  | Some currentRecords =>
      Some (<[giverEmail a := line :: currentRecords]> acc)
  | None =>
      if bool_decide (giverEmail a ∈ objectPrototypeKeys) then None
      else Some (<[giverEmail a := [line]]> acc)
  end.

(** [consolidatedAssignments]; the order of its keys is not modelled. *)
Fixpoint consolidate (acc : gmap string (list Line))
    (assignments : list Assignment) : option (gmap string (list Line)) :=
  match assignments with
  | [] => Some acc
  | a :: rest =>
      match consolidateStep acc a with
      | Some acc' => consolidate acc' rest
      | None => None
      end
  end.

Definition greeting : string :=
  "Olá! Aqui estão os amigos ocultos que te são relevantes:".

(** [formatEmail] *)
Definition formatEmail (assignments : list Line) : string :=
  (greeting +:+ String newline EmptyString)
  +:+ joinLines
        (map (fun assignment =>
                " - " +:+ giver assignment +:+ " vai dar presente a "
                +:+ receiver assignment)
             assignments).

(** The lines of one address that the script has to tell about. *)
Definition relevant (address : string) (assignments : list Assignment)
  : list Line :=
  map (fun a => {| giver := giverName a; receiver := receiverName a |})
      (List.filter (fun a => String.eqb (giverEmail a) address) assignments).

End SecretSanta.

(** ** Sample runs *)

Module Scenarios.
Local Open Scope Z_scope.

(** The data of the README: Alice and Cathrine share a pool (and an
    address). *)
Definition readme : SecretSanta.SecretSantaInput :=
  {| SecretSanta.people :=
       [ {| SecretSanta.name := "Alice";
            SecretSanta.email := "alice@example.com" |};
         {| SecretSanta.name := "Bob";
            SecretSanta.email := "bob@example.com" |};
         {| SecretSanta.name := "Cathrine";
            SecretSanta.email := "alice@example.com" |};
         {| SecretSanta.name := "Mike";
            SecretSanta.email := "mike@example.com" |};
         {| SecretSanta.name := "Hannah";
            SecretSanta.email := "hannah@example.com" |} ];
     SecretSanta.pools :=
       [["Alice"; "Cathrine"]; ["Bob"]; ["Mike"]; ["Hannah"]] |}.

(** Three people, two of them in one pool. *)
Definition crowded : SecretSanta.SecretSantaInput :=
  {| SecretSanta.people :=
       [ {| SecretSanta.name := "Ana"; SecretSanta.email := "ana@example.com" |};
         {| SecretSanta.name := "Rui"; SecretSanta.email := "rui@example.com" |};
         {| SecretSanta.name := "Eva"; SecretSanta.email := "eva@example.com" |} ];
     SecretSanta.pools := [["Ana"; "Rui"]; ["Eva"]] |}.

(** [Math.random()] that always returns 0: every draw is the index 0. *)
Definition alwaysFirst (k i : nat) : nat := 0%nat.

(** [Math.random()] that is just under 1 for the first four draws, which
    leave the array as it is, and 0 from then on. *)
Definition lateFirst (k i : nat) : nat := if (k <? 4)%nat then i else 0%nat.

(** A runtime that knows the values the samples need: one date, and
    JSON strings without characters to escape. *)
Definition jsonQuoted (s : string) : string :=
  String "034" (s +:+ String "034" EmptyString).

Definition builtins : Builtins :=
  {| numberToString := fun x => if PrimFloat.eqb x 1000 then "1000" else "5000";
     jsonString := jsonQuoted;
     jsonStrings := fun xs =>
       "[" +:+ String.concat "," (map jsonQuoted xs) +:+ "]";
     parseDate := fun text =>
       if String.eqb text "2030-01-01T00:00:00Z" then DateMs 1893456000000
       else InvalidDate;
     resolveUrl := fun relative base =>
       if String.prefix "http://" base then inr (base +:+ "/" +:+ relative)
       else inl (newError (H := v8) "Invalid URL");
     dateFromSeconds := fun text =>
       if String.eqb text "1893456000" then DateMs 1893456000000
       else InvalidDate;
     headerValue := fun value => inr value |}.

(** An instance with the role [app-role], as the metadata service
    answers by path. *)
Definition documentText : string := "{credential document of app-role}".

Definition document : EC2MetadataCredentials.CredentialDocument :=
  {| EC2MetadataCredentials.Code := "Success";
     EC2MetadataCredentials.LastUpdated := "2029-12-31T18:00:00Z";
     EC2MetadataCredentials.Type_ := "AWS-HMAC";
     EC2MetadataCredentials.AccessKeyId := "ASIAEXAMPLE";
     EC2MetadataCredentials.SecretAccessKey := "secret";
     EC2MetadataCredentials.Token := "session";
     EC2MetadataCredentials.Expiration := "2030-01-01T00:00:00Z" |}.

Definition parseDocument (text : string)
  : IMDSv2.ErrorObject + EC2MetadataCredentials.CredentialDocument :=
  if String.eqb text documentText then inr document
  else inl (IMDSv2.plainError (H := v8) "Unexpected token in JSON").

Definition instance : IMDSv2.Network := fun n request =>
  let path := IMDSv2.path request in
  if String.eqb path "api/token"
  then IMDSv2.Responded 200 (inr "token-1")
  else if String.eqb path EC2MetadataCredentials.roleListPath
  then IMDSv2.Responded 200 (inr "app-role")
  else if String.eqb path (EC2MetadataCredentials.roleListPath +:+ "app-role")
  then IMDSv2.Responded 200 (inr documentText)
  else if String.eqb path EC2MetadataCredentials.regionPath
  then IMDSv2.Responded 200 (inr "eu-west-1")
  else IMDSv2.Responded 404 (inr "").

(** A machine that is no EC2 instance but answers on the address. *)
Definition notAws : IMDSv2.Network := fun n request =>
  IMDSv2.Responded 403 (inr "Forbidden").

(** The answer of the token service, parsed: the four fields of
    [Credentials], the expiry having the text [expiration]. *)
Definition assumedNode (expiration : string) : Xml.XmlNode :=
  Xml.Node "Credentials" [] None
    [ Xml.Node "AccessKeyId" [] (Some "ASIAEXAMPLE") [];
      Xml.Node "SecretAccessKey" [] (Some "secret") [];
      Xml.Node "SessionToken" [] (Some "session") [];
      Xml.Node "Expiration" [] (Some expiration) [] ].

Definition resultNode (expiration : string) : Xml.XmlNode :=
  Xml.Node "AssumeRoleWithWebIdentityResult" [] None
    [assumedNode expiration].

Definition stsDocument (expiration : string) : Xml.Document :=
  {| Xml.declaration := None;
     Xml.root :=
       Some (Xml.Node "AssumeRoleWithWebIdentityResponse" [] None
               [resultNode expiration]) |}.

Definition webIdentity : TokenFileWebIdentityCredentials.Config :=
  {| TokenFileWebIdentityCredentials.roleArn :=
       Some "arn:aws:iam::123456789012:role/app";
     TokenFileWebIdentityCredentials.tokenPath :=
       Some "/var/run/secrets/token";
     TokenFileWebIdentityCredentials.sessionName :=
       "token-file-web-identity" |}.

Definition stsClient : TokenFileWebIdentityCredentials.StsClient :=
  fun RoleArn RoleSessionName WebIdentityToken => inr "<response/>".

Definition tokenFile (path : string) : Value + string := inr "jwt".

(** The container endpoint and its answer. *)
Definition container : EcsTaskCredentials.Config :=
  {| EcsTaskCredentials.credUrl :=
       Some "http://169.254.170.2/v2/credentials/task";
     EcsTaskCredentials.requestHeaders :=
       [("accept", "application/json")] |}.

Definition containerData : EcsTaskCredentials.Data :=
  {| EcsTaskCredentials.AccessKeyId := "ASIAEXAMPLE";
     EcsTaskCredentials.SecretAccessKey := "secret";
     EcsTaskCredentials.Token := "session";
     EcsTaskCredentials.Expiration := "2030-01-01T00:00:00Z";
     EcsTaskCredentials.RoleArn := "arn:aws:iam::123456789012:role/task" |}.

(** What [new EcsTaskCredentials()] gives in an empty environment. *)
Definition unconfigured : EcsTaskCredentials.Config :=
  {| EcsTaskCredentials.credUrl := None;
     EcsTaskCredentials.requestHeaders :=
       [("accept", "application/json")] |}.

(** The endpoint answers HTTP 500. *)
Definition failingFetch (url : string) (headers : list (string * string))
  : Value + EcsTaskCredentials.Response :=
  inr {| EcsTaskCredentials.status := 500;
         EcsTaskCredentials.json := inl (VString "not read") |}.

Definition containerFetch (url : string) (headers : list (string * string))
  : Value + EcsTaskCredentials.Response :=
  inr {| EcsTaskCredentials.status := 200;
         EcsTaskCredentials.json := inr containerData |}.

End Scenarios.

(** * Properties *)

(** ** The provider chain *)

Section ChainFacts.
Import CredentialsProviderChain.
Context {World : Type} `{Engine}.
Implicit Types (f : ProviderFunc World) (fs pre post : list (ProviderFunc World)).
Implicit Types (w : World) (rs : list (bool * Value)).

Lemma failureLog_app i rs1 rs2 :
  failureLog i (rs1 ++ rs2)
  = failureLog i rs1 ++ failureLog (i + length rs1) rs2.
Proof.
  revert i; induction rs1 as [|[made err] rs1 IH]; intros i; simpl.
  - by rewrite Nat.add_0_r.
  - rewrite IH. replace (S i + length rs1) with (i + S (length rs1)) by lia.
    by rewrite <- app_assoc.
Qed.

Lemma allFail_length fs w w' rs : allFail fs w w' rs -> length rs = length fs.
Proof. induction 1; simpl; congruence. Qed.

Lemma allFail_app pre post w w1 w2 rs1 rs2 :
  allFail pre w w1 rs1 -> allFail post w1 w2 rs2 ->
  allFail (pre ++ post) w w2 (rs1 ++ rs2).
Proof.
  induction 1; simpl; intros Hpost; [done|].
  econstructor; eauto.
Qed.

Lemma failureLines_app pre post rs1 rs2 :
  length rs1 = length pre ->
  failureLines (pre ++ post) (rs1 ++ rs2)
  = failureLines pre rs1 ++ failureLines post rs2.
Proof.
  revert rs1; induction pre as [|f pre IH]; intros [|[made err] rs1]; simpl;
    try done.
  intros [= Hlen]. rewrite IH by done.
  by destruct (errorLine f err) as [thrown|[line|]].
Qed.

(** The values on which the [catch] clause itself throws. *)
Lemma errorLine_throws f err thrown :
  errorLine f err = inl thrown
  <-> (exists message, err = VErrorOdd message thrown)
      \/ err = VOther (inl thrown).
Proof.
  split.
  - destruct err as [m st| | |[]|[|c s]|m t|[t|s]]; simpl; try done.
    + intros [= <-]. left. by exists m.
    + intros [= <-]. by right.
  - intros [[message ->]| ->]; reflexivity.
Qed.

(** The loop when every factory fails. *)
Lemma discover_allFail fs w w' rs i errors :
  allFail fs w w' rs ->
  discover i fs errors w
  = (Rejected (newError (joinLines (header :: errors ++ failureLines fs rs))),
     None, w', failureLog i rs).
Proof.
  intros Hall. revert i errors.
  induction Hall as [w|f fs w w1 w2 made err line rs Hf Hline Hall IH];
    intros i errors.
  - simpl. by rewrite app_nil_r.
  - destruct Hf as [err Hcall|provider w0 err Hcall Hget]; simpl;
      rewrite Hcall; [|rewrite Hget]; unfold pushError; rewrite Hline;
      destruct line; rewrite IH; simpl; by rewrite <- ?app_assoc.
Qed.

(** The loop when the factories of [pre] fail and the next succeeds. *)
Lemma discover_first_success pre f post provider creds w w1 w2 w3 rs i errors :
  allFail pre w w1 rs ->
  call f w1 = (inr provider, w2) ->
  Common.getCredentials provider w2 = (Fulfilled creds, w3) ->
  discover i (pre ++ f :: post) errors w
  = (Fulfilled creds, Some (i + length pre, provider), w3,
     failureLog i rs ++ [Instantiate (i + length pre);
                         Resolve (i + length pre)]).
Proof.
  intros Hall Hcall Hget. revert i errors.
  induction Hall as [w|f0 fs w w1' w2' made err line rs Hf Hline Hall IH];
    intros i errors.
  - simpl. rewrite Hcall, Hget. by rewrite Nat.add_0_r.
  - specialize (IH Hcall).
    destruct Hf as [err Hc|p0 w0 err Hc Hg]; simpl; rewrite Hc;
      [|rewrite Hg]; unfold pushError; rewrite Hline; destruct line;
      rewrite IH;
      replace (S i + length fs) with (i + S (length fs)) by lia; done.
Qed.

(** The loop when the factories of [pre] fail and the [catch] clause
    throws on the failure of the next: no factory behind it is tried. *)
Lemma discover_catch_throws pre f post made err thrown w w1 w2 rs i errors :
  allFail pre w w1 rs ->
  failsAt f w1 w2 made err ->
  errorLine f err = inl thrown ->
  discover i (pre ++ f :: post) errors w
  = (Rejected thrown, None, w2,
     failureLog i rs ++ attemptLog (i + length pre) made).
Proof.
  intros Hall Hf Hthrown. revert i errors.
  induction Hall as [w|f0 fs w w1' w2' made0 err0 line rs Hf0 Hline Hall IH];
    intros i errors.
  - destruct Hf as [err Hcall|provider w0 err Hcall Hget]; simpl;
      rewrite Hcall; [|rewrite Hget]; unfold pushError; rewrite Hthrown;
      by rewrite Nat.add_0_r.
  - specialize (IH Hf).
    destruct Hf0 as [err0 Hc|p0 w0 err0 Hc Hg]; simpl; rewrite Hc;
      [|rewrite Hg]; unfold pushError; rewrite Hline; destruct line;
      rewrite IH;
      replace (S i + length fs) with (i + S (length fs)) by lia; done.
Qed.

(** A rejected discovery went through every factory, or left the loop
    from the [catch] clause. *)
Lemma discover_rejected fs w i errors err s w' log :
  discover i fs errors w = (Rejected err, s, w', log) ->
  (exists rs, allFail fs w w' rs)
  \/ (exists pre f post w1 rs made e,
        fs = pre ++ f :: post /\ allFail pre w w1 rs
        /\ failsAt f w1 w' made e /\ errorLine f e = inl err).
Proof.
  revert s w i errors log.
  induction fs as [|f fs IH]; intros s w i errors log; simpl.
  - intros [= <- <- <- <-]. left. eexists; constructor.
  - assert (Hnext : forall made e w1 errors' r s' w2 log' line,
              failsAt f w w1 made e ->
              errorLine f e = inr line ->
              discover (S i) fs errors' w1 = (r, s', w2, log') ->
              r = Rejected err -> w2 = w' ->
              (exists rs, allFail (f :: fs) w w' rs)
              \/ (exists pre f0 post w0 rs made0 e0,
                    f :: fs = pre ++ f0 :: post /\ allFail pre w w0 rs
                    /\ failsAt f0 w0 w' made0 e0
                    /\ errorLine f0 e0 = inl err)).
    { intros made e w1 errors' r s' w2 log' line Hf Hline Hd -> ->.
      destruct (IH _ _ _ _ _ Hd)
        as [[rs Hrs]|(pre & f0 & post & w0 & rs & made0 & e0
                      & -> & Hpre & Hf0 & Hthrown)].
      - left. eexists. econstructor; eauto.
      - right. exists (f :: pre), f0, post, w0, ((made, e) :: rs), made0, e0.
        split; [done|]. split; [econstructor; eauto|]. done. }
    destruct (call f w) as [[e|provider] w1] eqn:Hcall.
    + unfold pushError.
      destruct (errorLine f e) as [thrown|line] eqn:Hline.
      * intros [= -> _ -> _]. right.
        exists [], f, fs, w, [], false, e.
        split; [done|]. split; [constructor|]. split; [by constructor|done].
      * destruct line as [l|]; cbv iota;
          (destruct (discover (S i) fs _ w1) as [[[r s'] w2] log'] eqn:Hd;
           intros [= -> _ -> _];
           eapply (Hnext false e); eauto; by constructor).
    + destruct (Common.getCredentials provider w1) as [[creds|e] w2] eqn:Hget.
      * intros [=].
      * unfold pushError.
        destruct (errorLine f e) as [thrown|line] eqn:Hline.
        -- intros [= -> _ -> _]. right.
           exists [], f, fs, w, [], true, e.
           split; [done|]. split; [constructor|].
           split; [by econstructor|done].
        -- destruct line as [l|]; cbv iota;
             (destruct (discover (S i) fs _ w2) as [[[r s'] w3] log'] eqn:Hd;
              intros [= -> _ -> _];
              eapply (Hnext true e); eauto; by econstructor).
Qed.

Lemma instantiations_app (l1 l2 : list Event) :
  instantiations (l1 ++ l2) = instantiations l1 ++ instantiations l2.
Proof. apply omap_app. Qed.

Lemma resolutions_app (l1 l2 : list Event) :
  resolutions (l1 ++ l2) = resolutions l1 ++ resolutions l2.
Proof. apply omap_app. Qed.

Lemma instantiations_failureLog i rs :
  instantiations (failureLog i rs) = seq i (length rs).
Proof.
  revert i; induction rs as [|[made err] rs IH]; intros i; simpl; [done|].
  unfold instantiations in *. simpl. destruct made; simpl; by rewrite IH.
Qed.

Lemma resolutions_failureLog i rs :
  resolutions (failureLog i rs) = madeAt i rs.
Proof.
  revert i; induction rs as [|[made err] rs IH]; intros i; simpl; [done|].
  unfold resolutions in *. simpl. destruct made; simpl; by rewrite IH.
Qed.

Lemma madeAt_all i rs :
  Forall (fun r => r.1 = true) rs -> madeAt i rs = seq i (length rs).
Proof.
  intros Hall. revert i.
  induction Hall as [|[made err] rs Hm _ IH]; intros i; simpl; [done|].
  simpl in Hm; subst made. simpl. by rewrite IH.
Qed.

Lemma madeAt_sublist i rs : sublist (madeAt i rs) (seq i (length rs)).
Proof.
  revert i; induction rs as [|[[] err] rs IH]; intros i; simpl.
  - constructor.
  - by constructor.
  - by constructor.
Qed.

(** A factory whose constructor threw is not among the positions that
    were asked to resolve. *)
Lemma madeAt_elem i rs j :
  j ∈ madeAt i rs <-> exists err, rs !! (j - i) = Some (true, err) /\ i <= j.
Proof.
  revert i; induction rs as [|[made err] rs IH]; intros i; simpl.
  - split; [by intros ?%elem_of_nil|]. by intros (err & [=] & _).
  - rewrite elem_of_app, IH. split.
    + intros [Hhere|(e & Hlook & Hle)].
      * destruct made; [|by apply elem_of_nil in Hhere].
        apply list_elem_of_singleton in Hhere as ->.
        exists err. rewrite Nat.sub_diag. done.
      * exists e. split; [|lia].
        replace (j - i) with (S (j - S i)) by lia. done.
    + intros (e & Hlook & Hle). destruct (decide (j = i)) as [->|Hne].
      * rewrite Nat.sub_diag in Hlook. injection Hlook as -> ->.
        left. by apply list_elem_of_singleton.
      * right. exists e. split; [|lia].
        replace (j - i) with (S (j - S i)) in Hlook by lia. done.
Qed.

Lemma failureLog_all i rs :
  Forall (fun r => r.1 = true) rs ->
  failureLog i rs
  = flat_map (fun j => [Instantiate j; Resolve j]) (seq i (length rs)).
Proof.
  intros Hall. revert i.
  induction Hall as [|[made err] rs Hm _ IH]; intros i; simpl; [done|].
  simpl in Hm; subst made. simpl. by rewrite IH.
Qed.

(** A pinned chain only ever calls its supplier. *)
Lemma resolveMany_pinned n fs k provider w :
  let c := {| chain := fs; supplier := Some (k, provider) |} in
  resolveMany n c w
  = ((awaitMany n provider w).1, c, (awaitMany n provider w).2,
     replicate n (Resolve k)).
Proof.
  intros c. revert w. induction n as [|n IH]; intros w; simpl; [done|].
  unfold getCredentials at 1. simpl.
  destruct (Common.getCredentials provider w) as [r w1].
  rewrite IH. by destruct (awaitMany n provider w1).
Qed.

End ChainFacts.

Section ChainClaims.
Import CredentialsProviderChain.
Context {World : Type} `{Engine}.
Implicit Types (f : ProviderFunc World) (fs pre post : list (ProviderFunc World)).
Implicit Types (w : World) (rs : list (bool * Value)).

Lemma errorLine_reason f err line :
  errorLine f err = inr line ->
  line = if truthy err
         then Some (srcName f +:+ failureReason err)
         else None.
Proof.
  destruct err as [m st| | |[]|[|c s]|m t|[t|s]]; simpl; try done;
    by intros [= <-].
Qed.

Lemma failureLines_zip fs w w' rs :
  allFail fs w w' rs ->
  failureLines fs rs
  = omap (fun '(f, r) =>
            if truthy r.2
            then Some (srcName f +:+ failureReason r.2)
            else None) (zip fs rs).
Proof.
  induction 1 as [w|f fs w w1 w2 made err line rs Hf Hline Hall IH]; simpl;
    [done|].
  rewrite Hline, IH. rewrite (errorLine_reason _ _ _ Hline).
  by destruct (truthy err).
Qed.

(** C1, as the code has it.  With the factories before position [k]
    failing and the one at [k] the first to succeed, the first top-level
    call tries the factories [0..k] once each and in order and calls
    [getCredentials] once on every instance it got: on the positions
    whose constructor returned one, and on no position whose constructor
    threw (so on all of [0..k] only when every constructor returned).
    It pins the instance of [k] as supplier, returns its credentials and
    leaves the factories behind [k] alone; each later top-level call
    calls the pinned instance and nothing else. *)
Theorem chain_pins_first_success pre f post provider creds w w1 w2 w3 rs :
  allFail pre w w1 rs ->
  call f w1 = (inr provider, w2) ->
  Common.getCredentials provider w2 = (Fulfilled creds, w3) ->
  let k := length pre in
  let fs := pre ++ f :: post in
  let pinned := {| chain := fs; supplier := Some (k, provider) |} in
  exists log,
    getCredentials (new fs) w = (Fulfilled creds, pinned, w3, log)
    /\ instantiations log = seq 0 (S k)
    /\ resolutions log = madeAt 0 rs ++ [k]
    /\ sublist (resolutions log) (seq 0 (S k))
    /\ (forall j, j < k ->
          (j ∈ resolutions log <-> exists err, rs !! j = Some (true, err))
          /\ (j ∉ resolutions log <-> exists err, rs !! j = Some (false, err)))
    /\ (Forall (fun r => r.1 = true) rs ->
        log = flat_map (fun j => [Instantiate j; Resolve j]) (seq 0 (S k)))
    /\ forall n w',
        resolveMany n pinned w'
        = ((awaitMany n provider w').1, pinned, (awaitMany n provider w').2,
           replicate n (Resolve k)).
Proof.
  intros Hall Hcall Hget. cbv zeta.
  pose proof (allFail_length _ _ _ _ Hall) as Hlen.
  exists (failureLog 0 rs ++ [Instantiate (length pre); Resolve (length pre)]).
  assert (Hres : resolutions (failureLog 0 rs
                              ++ [Instantiate (length pre);
                                  Resolve (length pre)])
                 = madeAt 0 rs ++ [length pre]).
  { by rewrite resolutions_app, resolutions_failureLog. }
  assert (Hin : forall j, j < length pre ->
            (j ∈ madeAt 0 rs ++ [length pre]
             <-> exists err, rs !! j = Some (true, err))).
  { intros j Hj. rewrite elem_of_app, madeAt_elem, Nat.sub_0_r. split.
    - intros [(err & Hlook & _)|Hk]; [by exists err|].
      apply list_elem_of_singleton in Hk. lia.
    - intros [err Hlook]. left. exists err. split; [done|lia]. }
  split; [|split; [|split; [|split; [|split; [|split]]]]].
  - unfold getCredentials, new; simpl.
    by rewrite (discover_first_success _ _ _ _ _ _ _ _ _ _ 0 [] Hall Hcall Hget).
  - rewrite instantiations_app, instantiations_failureLog, Hlen.
    by rewrite seq_S.
  - exact Hres.
  - rewrite Hres, seq_S. simpl.
    apply sublist_app; [|done]. rewrite <- Hlen. apply madeAt_sublist.
  - intros j Hj. rewrite Hres. split; [by apply Hin|].
    rewrite (Hin j Hj). rewrite <- Hlen in Hj.
    destruct (lookup_lt_is_Some_2 rs j Hj) as [[[] err] Hlook].
    + split; [|by intros [e He]; rewrite Hlook in He].
      intros Hno. exfalso. apply Hno. by exists err.
    + split; [by exists err|]. intros _ [e He]. by rewrite Hlook in He.
  - intros Hmade. rewrite (failureLog_all _ _ Hmade), Hlen.
    by rewrite seq_S, flat_map_app.
  - intros n w'. apply resolveMany_pinned.
Qed.

(** C2, as the code has it.  Discovery is rejected exactly when every
    factory fails, or when the factories fail up to one on whose failure
    the [catch] clause itself throws.  In the first case it is rejected
    with the aggregate error: its message is the header followed, in
    order, by one line for every failed attempt whose error is an
    [Error] or another truthy value, the line being the provider's label
    and the reason of its failure; an attempt that fails with a falsy
    value gets no line.  In the second case it is rejected with what the
    clause threw, and no later factory is tried; the clause throws on an
    [Error] whose [stack] is no string and on an object whose
    [toString()] throws or is missing. *)
Theorem chain_aggregate_failure fs w :
  let '(r, c', w', log) := getCredentials (new fs) w in
  ((exists err, r = Rejected err)
   <-> (exists w1 rs, allFail fs w w1 rs)
       \/ (exists pre f post w1 w2 rs made err thrown,
             fs = pre ++ f :: post /\ allFail pre w w1 rs
             /\ failsAt f w1 w2 made err /\ errorLine f err = inl thrown))
  /\ (forall w1 rs, allFail fs w w1 rs ->
        r = Rejected (newError (joinLines (header :: failureLines fs rs)))
        /\ supplier c' = None /\ w' = w1 /\ log = failureLog 0 rs
        /\ failureLines fs rs
           = omap (fun '(f, r) =>
                     if truthy r.2
                     then Some (srcName f +:+ failureReason r.2)
                     else None) (zip fs rs))
  /\ (forall pre f post w1 w2 rs made err thrown,
        fs = pre ++ f :: post -> allFail pre w w1 rs ->
        failsAt f w1 w2 made err -> errorLine f err = inl thrown ->
        r = Rejected thrown /\ supplier c' = None /\ w' = w2
        /\ log = failureLog 0 rs ++ attemptLog (length pre) made)
  /\ (forall f err thrown,
        errorLine f err = inl thrown
        <-> (exists message, err = VErrorOdd message thrown)
            \/ err = VOther (inl thrown)).
Proof.
  unfold getCredentials, new; simpl.
  destruct (discover 0 fs [] w) as [[[r s] w'] log] eqn:Hd.
  split; [split|split; [|split]].
  - intros [err ->].
    destruct (discover_rejected _ _ _ _ _ _ _ _ Hd)
      as [[rs Hrs]|(pre & f & post & w1 & rs & made & e & Hfs & Hpre & Hf & He)].
    + left. eauto.
    + right. exists pre, f, post, w1, w', rs, made, e, err. done.
  - intros [(w1 & rs & Hall)
           |(pre & f & post & w1 & w2 & rs & made & e & thrown
             & -> & Hpre & Hf & He)].
    + rewrite (discover_allFail _ _ _ _ 0 [] Hall) in Hd.
      injection Hd as <- _ _ _. eauto.
    + rewrite (discover_catch_throws _ _ post _ _ _ _ _ _ _ 0 [] Hpre Hf He)
        in Hd.
      injection Hd as <- _ _ _. eauto.
  - intros w1 rs Hall.
    rewrite (discover_allFail _ _ _ _ 0 [] Hall) in Hd.
    injection Hd as <- <- <- <-. simpl. repeat split; try done.
    by eapply failureLines_zip.
  - intros pre f post w1 w2 rs made e thrown -> Hpre Hf He.
    rewrite (discover_catch_throws _ _ post _ _ _ _ _ _ _ 0 [] Hpre Hf He)
      in Hd.
    injection Hd as <- <- <- <-. done.
  - intros f err thrown. apply errorLine_throws.
Qed.
End ChainClaims.

(** The chain [unset; static; silent] over the call-counting world: the
    second factory is the first to succeed. *)
Lemma chain_pins_first_success_witness :
  let fs := [Samples.unset; Samples.static; Samples.silent] in
  let provider := Samples.resolving Samples.staticCreds in
  let pinned :=
    {| CredentialsProviderChain.chain := fs;
       CredentialsProviderChain.supplier := Some (1, provider) |} in
  exists log,
    CredentialsProviderChain.getCredentials (H := v8)
      (CredentialsProviderChain.new fs) 0
    = (Fulfilled Samples.staticCreds, pinned, 2, log)
    /\ CredentialsProviderChain.instantiations log = [0; 1]
    /\ CredentialsProviderChain.resolutions log = [0; 1]
    /\ forall n w',
        CredentialsProviderChain.resolveMany (H := v8) n pinned w'
        = ((CredentialsProviderChain.awaitMany n provider w').1, pinned,
           (CredentialsProviderChain.awaitMany n provider w').2,
           replicate n (CredentialsProviderChain.Resolve 1)).
Proof.
  intros fs provider pinned.
  destruct (chain_pins_first_success (H := v8)
              [Samples.unset] Samples.static [Samples.silent]
              provider Samples.staticCreds 0 1 1 2
              [(true, newError (H := v8) "AWS environment variables not set")])
    as (log & Hres & Hinst & Hcalls & _ & _ & _ & Hlater).
  - econstructor; [|reflexivity|constructor].
    eapply CredentialsProviderChain.fails_resolving; reflexivity.
  - reflexivity.
  - reflexivity.
  - exists log. repeat split; assumption.
Defined.

(** C1, as the specification words it, does not hold: in the chain
    [broken; static] the constructor of the first provider throws, so
    the first provider is tried but never asked to resolve; the second
    is the first to succeed, and the positions asked to resolve are not
    [0; 1]. *)
Lemma chain_constructor_throws_counterexample :
  ~ (forall (pre post : list (CredentialsProviderChain.ProviderFunc nat))
            f provider creds (w w1 w2 w3 : nat) rs,
       CredentialsProviderChain.allFail pre w w1 rs ->
       CredentialsProviderChain.call f w1 = (inr provider, w2) ->
       Common.getCredentials provider w2 = (Fulfilled creds, w3) ->
       CredentialsProviderChain.resolutions
         (CredentialsProviderChain.getCredentials (H := v8)
            (CredentialsProviderChain.new (pre ++ f :: post)) w).2
       = seq 0 (S (length pre))).
Proof.
  intros Hclaim.
  assert (CredentialsProviderChain.allFail [Samples.broken] 0 0
            [(false, Samples.unavailable)]) as Hall.
  { econstructor; [|reflexivity|constructor].
    eapply CredentialsProviderChain.fails_constructing; reflexivity. }
  pose proof (Hclaim [Samples.broken] [] Samples.static
                (Samples.resolving Samples.staticCreds) Samples.staticCreds
                0 0 0 1 [(false, Samples.unavailable)] Hall eq_refl eq_refl)
    as Hcalls.
  vm_compute in Hcalls. discriminate Hcalls.
Qed.

(** C2, as the specification words it, does not hold: a chain whose only
    provider rejects with [undefined] fails with an aggregate error whose
    message has no line for that provider. *)
Lemma chain_line_per_provider_counterexample :
  ~ (forall (fs : list (CredentialsProviderChain.ProviderFunc nat))
            (w w1 : nat) rs,
       CredentialsProviderChain.allFail fs w w1 rs ->
       exists message stack,
         (CredentialsProviderChain.getCredentials (H := v8)
            (CredentialsProviderChain.new fs) w).1.1.1
         = Rejected (VError message stack)
         /\ Forall (fun f => exists reason,
                      In (CredentialsProviderChain.srcName f +:+ reason)
                         (lines message)) fs).
Proof.
  intros Hclaim.
  destruct (Hclaim [Samples.silent] 0 1 [(true, VUndefined)])
    as (message & stack & Hres & Hlines).
  - econstructor; [|reflexivity|constructor].
    eapply CredentialsProviderChain.fails_resolving; reflexivity.
  - vm_compute in Hres. injection Hres as <- _.
    apply Forall_cons_1 in Hlines as [[reason Hin] _].
    vm_compute in Hin. destruct Hin as [Heq|[]]. discriminate Heq.
Qed.

Section MetadataDisabled.
Import CredentialsProviderChain.
Context {World : Type} `{Engine} `{Builtins}.

(** C9. When AWS_EC2_METADATA_DISABLED reads "true", the constructor of
    the metadata client throws, whatever its options, and so does the
    constructor of [EC2MetadataCredentials] without a client; in a chain
    that ends with [() => new EC2MetadataCredentials()] and whose
    earlier factories fail, the factory is tried, leaves the world as
    it found it, is never asked to resolve, and the aggregate error
    ends with its line. *)
Theorem ec2_metadata_disabled (envOf : World -> Env)
    (asProvider : EC2MetadataCredentials.Instance -> Common.CredentialsProvider World)
    (pre : list (ProviderFunc World)) (w w1 : World) rs
    (opts : IMDSv2.Options) :
  allFail pre w w1 rs ->
  envGet (envOf w1) "AWS_EC2_METADATA_DISABLED" = inr (Some "true") ->
  let err := newError IMDSv2.disabledMessage in
  let ec2 := EC2MetadataCredentials.providerFunc envOf asProvider in
  IMDSv2.new (envOf w1) opts = inl err
  /\ EC2MetadataCredentials.new (envOf w1) None = inl err
  /\ call ec2 w1 = (inl err, w1)
  /\ getCredentials (new (pre ++ [ec2])) w
     = (Rejected (newError (joinLines
          (header :: failureLines pre rs
             ++ ["    - EC2MetadataCredentials() "
                 +:+ errorSummary IMDSv2.disabledMessage
                       (captureStack IMDSv2.disabledMessage)]))),
        new (pre ++ [ec2]), w1,
        failureLog 0 rs ++ [Instantiate (length pre)]).
Proof.
  intros Hall Henv err ec2.
  assert (Hnew : forall o, IMDSv2.new (envOf w1) o = inl err).
  { intros o. unfold IMDSv2.new. by rewrite Henv. }
  assert (Hec2 : EC2MetadataCredentials.new (envOf w1) None = inl err).
  { unfold EC2MetadataCredentials.new. by rewrite Hnew. }
  assert (Hcall : call ec2 w1 = (inl err, w1)).
  { cbv [ec2 EC2MetadataCredentials.providerFunc call]. by rewrite Hec2. }
  repeat split; try done.
  assert (Hlast : allFail [ec2] w1 w1 [(false, err)]).
  { econstructor; [by constructor|reflexivity|constructor]. }
  pose proof (allFail_app _ _ _ _ _ _ _ Hall Hlast) as Hfull.
  unfold getCredentials, new; simpl.
  rewrite (discover_allFail _ _ _ _ 0 [] Hfull). simpl.
  rewrite failureLines_app by (by eapply allFail_length).
  rewrite failureLog_app. simpl.
  by rewrite (allFail_length _ _ _ _ Hall).
Qed.
End MetadataDisabled.

(** The chain that holds only the metadata provider, under V8 and with
    the variable set: the line of the aggregate error in full. *)
Lemma ec2_metadata_disabled_witness :
  let ec2 :=
    EC2MetadataCredentials.providerFunc (H := v8)
      (H0 := Scenarios.builtins) (World := Env) id
      (fun _ => {| Common.getCredentials w :=
                     (Fulfilled Samples.staticCreds, w) |}) in
  CredentialsProviderChain.getCredentials (H := v8)
    (CredentialsProviderChain.new [ec2]) Samples.metadataDisabled
  = (Rejected (newError (H := v8) (joinLines
       [CredentialsProviderChain.header;
        "    - EC2MetadataCredentials() Error: IMDSv2 client is disabled via environment: AWS_EC2_METADATA_DISABLED=true"])),
     CredentialsProviderChain.new [ec2], Samples.metadataDisabled,
     [CredentialsProviderChain.Instantiate 0]).
Proof.
  intros ec2.
  destruct (ec2_metadata_disabled (H := v8) (H0 := Scenarios.builtins) id
              (fun _ => {| Common.getCredentials w :=
                             (Fulfilled Samples.staticCreds, w) |})
              [] Samples.metadataDisabled Samples.metadataDisabled []
              IMDSv2.noOptions)
    as (_ & _ & _ & Hres).
  - constructor.
  - reflexivity.
  - exact Hres.
Defined.

(** ** The shared ini file *)

Section SharedFile.
Import SharedIniFileCredentials.
Context `{Engine}.

(** C3, as the code has it.  The section ["profile p"] is taken when
    the decoded file has it, else the section [p]; without either,
    [load] fails with the not-found error; with a section whose access
    key id or secret key is missing or empty, it fails with the
    lacks-static-credentials error; with both there and not empty, it
    resolves to them, with the section's session token and region. *)
Theorem shared_file_profile_lookup (p : string)
    (data : gmap string IniSection) :
  let notFound :=
    Rejected (newError ("Profile " +:+ p +:+ " not found in credentials file")) in
  let incomplete :=
    Rejected (newError ("Profile " +:+ p +:+ " lacks static credentials")) in
  (data !! ("profile " +:+ p) = None -> data !! p = None ->
   loadFrom p data = notFound)
  /\ forall c,
       data !! ("profile " +:+ p) = Some c
       \/ (data !! ("profile " +:+ p) = None /\ data !! p = Some c) ->
       (aws_access_key_id c = None \/ aws_access_key_id c = Some ""
        \/ aws_secret_access_key c = None \/ aws_secret_access_key c = Some "" ->
        loadFrom p data = incomplete)
       /\ forall a k,
            aws_access_key_id c = Some a -> aws_secret_access_key c = Some k ->
            a <> "" -> k <> "" ->
            loadFrom p data
            = Fulfilled {| awsAccessKeyId := a; awsSecretKey := k;
                           sessionToken := aws_session_token c;
                           expiresAt := None;
                           region := ini_region c |}.
Proof.
  cbv zeta. split.
  - intros Hprofile Hbare. unfold loadFrom. by rewrite Hprofile, Hbare.
  - intros c Hsel.
    assert (Hload : loadFrom p data
                    = if negb (truthyOpt (aws_access_key_id c))
                         || negb (truthyOpt (aws_secret_access_key c))
                      then Rejected (newError
                             ("Profile " +:+ p +:+ " lacks static credentials"))
                      else Fulfilled {|
                             awsAccessKeyId := default "" (aws_access_key_id c);
                             awsSecretKey := default "" (aws_secret_access_key c);
                             sessionToken := aws_session_token c;
                             expiresAt := None;
                             region := ini_region c |}).
    { unfold loadFrom. destruct Hsel as [->|[-> ->]]; reflexivity. }
    rewrite Hload. split.
    + intros [Ha|[Ha|[Hk|Hk]]]; rewrite ?Ha, ?Hk; simpl;
        by rewrite ?orb_true_r.
    + intros a k -> -> Ha Hk. destruct a, k; done.
Qed.
End SharedFile.

(** C3, as the specification words it, does not hold: the section
    [[profile foo]] has both fields, the access key id empty, and [load]
    fails. *)
Lemma shared_file_present_fields_counterexample :
  ~ (forall (p : string)
            (data : gmap string SharedIniFileCredentials.IniSection) c a k,
       data !! ("profile " +:+ p) = Some c ->
       SharedIniFileCredentials.aws_access_key_id c = Some a ->
       SharedIniFileCredentials.aws_secret_access_key c = Some k ->
       exists creds,
         SharedIniFileCredentials.loadFrom (H := v8) p data = Fulfilled creds).
Proof.
  intros Hclaim.
  destruct (Hclaim "foo" Samples.emptyKeyFile Samples.emptyKeySection
              "" "secret") as [creds Hload]; try reflexivity.
  unfold SharedIniFileCredentials.loadFrom, Samples.emptyKeyFile in Hload.
  change ("profile " +:+ "foo") with "profile foo" in Hload.
  rewrite lookup_singleton_eq in Hload. discriminate Hload.
Qed.

(** ** The providers that cache with an expiry *)


Section Expiring.
Import EcsTaskCredentials.
Implicit Types (s self : Instance) (p : nat) (now t : Z).

Lemma wellFormed_fresh : wellFormed fresh.
Proof. split; simpl; intros; try done. Qed.


Lemma wellFormed_expire s now : wellFormed s -> wellFormed (expire now s).
Proof.
  intros Hwf. unfold expire.
  destruct (expireAfter s) as [limit|] eqn:Hexp; [|done].
  destruct (dateLt limit (DateMs now)); [|done].
  split; simpl; try done.
  intros p Hp. destruct (wf_pending _ Hwf _ Hp) as [_ Hnone]. congruence.
Qed.

Lemma wellFormed_getCredentials s now :
  wellFormed s -> wellFormed (getCredentials now s).2.
Proof.
  intros Hwf0. unfold getCredentials.
  pose proof (wellFormed_expire _ now Hwf0) as Hwf.
  destruct (promise (expire now s)) as [p|] eqn:Hprom; simpl; [done|].
  split; simpl.
  - intros p Hp. destruct (decide (p < length (promises (expire now s)))).
    + rewrite lookup_app_l in Hp by done.
      destruct (wf_pending _ Hwf _ Hp). congruence.
    + apply lookup_lt_Some in Hp. rewrite length_app in Hp. simpl in Hp.
      split; [f_equal; lia|]. by apply (wf_unset _ Hwf).
  - intros p [= <-]. rewrite length_app. simpl. lia.
  - done.
Qed.

Lemma wellFormed_settle s now p r :
  wellFormed s -> wellFormed (settle now p r s).
Proof.
  intros Hwf. unfold settle.
  destruct (promises s !! p) as [[|o]|] eqn:Hp; try done.
  destruct (wf_pending _ Hwf _ Hp) as [Hprom _].
  split; simpl.
  - intros q Hq. destruct (decide (q = p)) as [->|Hne].
    + rewrite list_lookup_insert_eq in Hq by (by eapply lookup_lt_Some).
      done.
    + rewrite list_lookup_insert_ne in Hq by done.
      destruct (wf_pending _ Hwf _ Hq). congruence.
  - intros q Hq. rewrite length_insert. by apply (wf_bound _ Hwf).
  - congruence.
Qed.

Lemma wellFormed_step s e : wellFormed s -> wellFormed (step s e).
Proof.
  destruct e; simpl; auto using wellFormed_getCredentials, wellFormed_settle.
Qed.

Lemma wellFormed_run s es : wellFormed s -> wellFormed (run s es).
Proof.
  revert s; induction es as [|e es IH]; intros s Hwf; simpl; [done|].
  apply IH, wellFormed_step, Hwf.
Qed.

Lemma wellFormed_reachable es : wellFormed (run fresh es).
Proof. apply wellFormed_run, wellFormed_fresh. Qed.



(** A call with a settled promise and an expiry that has not passed. *)
Lemma getCredentials_cached s p limit now :
  promise s = Some p -> expireAfter s = Some limit ->
  dateLt limit (DateMs now) = false ->
  getCredentials now s = (p, false, s).
Proof.
  intros Hp Hexp Hlt. unfold getCredentials, expire.
  by rewrite Hexp, Hlt, Hp.
Qed.

(** A call with an expiry that has passed. *)
Lemma getCredentials_expired s limit now :
  expireAfter s = Some limit -> dateLt limit (DateMs now) = true ->
  getCredentials now s = (length (promises s), true, reloading s).
Proof.
  intros Hexp Hlt. unfold getCredentials, expire. by rewrite Hexp, Hlt.
Qed.

(** A call with a promise and no expiry. *)
Lemma getCredentials_unlimited s p now :
  promise s = Some p -> expireAfter s = None ->
  getCredentials now s = (p, false, s).
Proof.
  intros Hp Hexp. unfold getCredentials, expire. by rewrite Hexp, Hp.
Qed.

Lemma settle_pending s now p r :
  promises s !! p = Some Pending ->
  settle now p r s
  = {| promise := promise s; expireAfter := onSettled now r s;
       promises := <[p := Done r]> (promises s) |}.
Proof. intros Hp. unfold settle. by rewrite Hp. Qed.

Lemma calls_unchanged s p times :
  (forall now, getCredentials now s = (p, false, s)) ->
  run s (map Call times) = s
  /\ handedOut s times = replicate (length times) p
  /\ loadsStarted s (map Call times) = 0.
Proof.
  intros Hcall. induction times as [|now times (IH1 & IH2 & IH3)]; simpl;
    [done|].
  rewrite !Hcall. simpl. rewrite IH1, IH2, IH3. done.
Qed.

End Expiring.

Section ExpiringClaims.
Import EcsTaskCredentials.
Local Open Scope Z_scope.
Implicit Types (s : Instance) (p : nat) (t T : Z).

(** C4, as the code has it.  When the pending resolution settles at
    [t0] with a credential whose [expiresAt = T] is still in the
    future, the watermark is [T - 60 s]: a call before it (or at it)
    gets the settled promise and starts no [load]; a call after it
    drops promise and watermark and starts [load] anew. *)
Theorem credential_cached_until_watermark es p x T (t0 : Z) :
  let s := run fresh es in
  promises s !! p = Some Pending ->
  expiresAt x = Some (DateMs T) ->
  t0 < T ->
  let s1 := settle t0 p (Fulfilled x) s in
  promises s1 !! p = Some (Done (Fulfilled x))
  /\ expireAfter s1 = Some (DateMs (T - 60 * 1000))
  /\ (forall t, t <= T - 60 * 1000 -> getCredentials t s1 = (p, false, s1))
  /\ (forall t, T - 60 * 1000 < t ->
      getCredentials t s1 = (length (promises s1), true, reloading s1)
      /\ length (promises s1) <> p).
Proof.
  intros s Hp Hexp Hfuture s1.
  pose proof (wellFormed_reachable es) as Hwf. fold s in Hwf.
  destruct (wf_pending _ Hwf _ Hp) as [Hprom Hnone].
  assert (Hs1 : s1 = {| promise := Some p;
                        expireAfter := Some (DateMs (T - 60 * 1000));
                        promises := <[p := Done (Fulfilled x)]> (promises s) |}).
  { unfold s1. rewrite (settle_pending _ _ _ _ Hp). f_equal; [done|].
    unfold onSettled. rewrite Hexp. simpl.
    by destruct (Z.ltb_spec t0 T); [|lia]. }
  pose proof (lookup_lt_Some _ _ _ Hp) as Hlt.
  split; [|split; [|split]].
  - rewrite Hs1. simpl. by apply list_lookup_insert_eq.
  - by rewrite Hs1.
  - intros t Ht. apply getCredentials_cached with (DateMs (T - 60 * 1000)).
    + by rewrite Hs1.
    + by rewrite Hs1.
    + simpl. apply Z.ltb_ge. lia.
  - intros t Ht. split.
    + apply getCredentials_expired with (DateMs (T - 60 * 1000)).
      * by rewrite Hs1.
      * simpl. apply Z.ltb_lt. lia.
    + rewrite Hs1. simpl. rewrite length_insert. lia.
Qed.

(** C10. When the pending resolution settles with a credential, the
    watermark is recorded exactly when [expiresAt] is a date strictly
    after the clock reading of the settlement; otherwise (no
    [expiresAt], an invalid date, a date not in the future) none is
    recorded and every later call, at whatever time, gets the settled
    promise and starts no [load]. *)
Theorem watermark_only_for_future_expiry es p x (t0 : Z) :
  let s := run fresh es in
  promises s !! p = Some Pending ->
  let s1 := settle t0 p (Fulfilled x) s in
  (is_Some (expireAfter s1)
   <-> exists T, expiresAt x = Some (DateMs T) /\ t0 < T)
  /\ ((forall T, expiresAt x = Some (DateMs T) -> T <= t0) ->
      expireAfter s1 = None
      /\ promises s1 !! p = Some (Done (Fulfilled x))
      /\ forall times,
           run s1 (map Call times) = s1
           /\ handedOut s1 times = replicate (length times) p
           /\ loadsStarted s1 (map Call times) = 0%nat).
Proof.
  intros s Hp s1.
  pose proof (wellFormed_reachable es) as Hwf. fold s in Hwf.
  destruct (wf_pending _ Hwf _ Hp) as [Hprom Hnone].
  assert (Hs1 : s1 = {| promise := Some p;
                        expireAfter := onSettled t0 (Fulfilled x) s;
                        promises := <[p := Done (Fulfilled x)]> (promises s) |}).
  { unfold s1. rewrite (settle_pending _ _ _ _ Hp). by f_equal. }
  pose proof (lookup_lt_Some _ _ _ Hp) as Hlt.
  split.
  - rewrite Hs1. simpl. rewrite Hnone.
    destruct (expiresAt x) as [[T|]|] eqn:Hx; simpl.
    + destruct (Z.ltb_spec t0 T); split.
      * intros _. by exists T.
      * intros _. by eexists.
      * intros [? [=]].
      * intros (T' & [= <-] & ?). lia.
    + split; [intros [? [=]]|intros (T' & [=] & _)].
    + split; [intros [? [=]]|intros (T' & [=] & _)].
  - intros Hpast.
    assert (Hexp : expireAfter s1 = None).
    { rewrite Hs1. simpl. rewrite Hnone.
      destruct (expiresAt x) as [[T|]|] eqn:Hx; simpl; try done.
      specialize (Hpast T eq_refl).
      by destruct (Z.ltb_spec t0 T); [lia|]. }
    split; [done|]. split.
    + rewrite Hs1. simpl. by apply list_lookup_insert_eq.
    + intros times. apply calls_unchanged. intros now.
      apply getCredentials_unlimited; [by rewrite Hs1|done].
Qed.

End ExpiringClaims.

Section NegativeCache.
Import EcsTaskCredentials.
Context `{Engine} `{Builtins}.
Variable parseXml : string -> Xml.Document.
Variable parseDocument :
  string -> IMDSv2.ErrorObject + EC2MetadataCredentials.CredentialDocument.
Local Open Scope Z_scope.
Implicit Types (s : Instance) (p : nat) (t : Z).

(** A request of the metadata client always reaches the network: with
    the token request, or with the request itself. *)
Lemma performRequest_requests (net : IMDSv2.Network) (m : IMDSv2.Method)
    (path : string) (self : IMDSv2.Client) :
  exists request rest,
    IMDSv2.requests (IMDSv2.performRequest net m path self).2
    = IMDSv2.requests self ++ request :: rest.
Proof.
  unfold IMDSv2.performRequest, IMDSv2.getToken.
  destruct (truthyOpt (IMDSv2.cachedToken self)).
  - cbn. by eexists _, [].
  - destruct (IMDSv2.fetchNewToken self) as [tokenRequest ttlSeconds].
    cbn [fst snd].
    destruct (IMDSv2.performRawRequest tokenRequest _) as [err|respText].
    + cbn. by eexists _, [].
    + cbn. rewrite <- app_assoc. by eexists _, [_].
Qed.

(** The metadata provider's [load] begins with a request. *)
Lemma ec2_load_requests (net : IMDSv2.Network) (service : IMDSv2.Client) :
  exists request rest,
    IMDSv2.requests (EC2MetadataCredentials.load parseDocument net service).2
    = IMDSv2.requests service ++ request :: rest.
Proof.
  unfold EC2MetadataCredentials.load.
  destruct (performRequest_requests net IMDSv2.GET
              EC2MetadataCredentials.roleListPath service)
    as (request & rest & Hfirst).
  destruct (IMDSv2.performRequest net IMDSv2.GET
              EC2MetadataCredentials.roleListPath service) as [r1 s1].
  cbn [snd] in Hfirst.
  destruct (EC2MetadataCredentials.roleListOf r1) as [err|roleList];
    [by exists request, rest|].
  destruct (EC2MetadataCredentials.unexpectedRoleList roleList);
    [by exists request, rest|].
  unfold EC2MetadataCredentials.loadRole.
  destruct (performRequest_requests net IMDSv2.GET
              (EC2MetadataCredentials.roleListPath +:+ hd EmptyString roleList)
              s1) as (request2 & rest2 & Hsecond).
  destruct (IMDSv2.performRequest net IMDSv2.GET
              (EC2MetadataCredentials.roleListPath +:+ hd EmptyString roleList)
              s1) as [r2 s2].
  cbn [snd] in Hsecond.
  assert (Hs2 : IMDSv2.requests s2
                = IMDSv2.requests service
                  ++ request :: (rest ++ request2 :: rest2)).
  { rewrite Hsecond, Hfirst. by rewrite <- app_assoc. }
  destruct r2 as [err|text]; [by eexists _, _|].
  destruct (parseDocument text) as [err|credential]; [by eexists _, _|].
  destruct (negb (String.eqb (EC2MetadataCredentials.Code credential) _));
    [by eexists _, _|].
  destruct (negb (String.eqb (EC2MetadataCredentials.Type_ credential) _));
    [by eexists _, _|].
  destruct (performRequest_requests net IMDSv2.GET
              EC2MetadataCredentials.regionPath s2)
    as (request3 & rest3 & Hthird).
  destruct (IMDSv2.performRequest net IMDSv2.GET
              EC2MetadataCredentials.regionPath s2) as [r3 s3].
  cbn [snd] in Hthird.
  exists request, (rest ++ request2 :: rest2 ++ request3 :: rest3).
  destruct r3 as [err|region]; cbn [snd]; rewrite Hthird, Hs2;
    rewrite <- !app_assoc; cbn [app]; by rewrite <- !app_assoc.
Qed.

(** C5, as the code has it.  When the pending resolution fails at
    [t0], every call up to [t0 + 30 s] gets the promise rejected with
    that failure, starts no [load] and so makes no request, for each of
    the three providers.  A call later than that drops the failure and
    starts [load] anew.  That [load] makes a request (calls [fetch], or
    the request routine of its client) in the metadata provider always,
    in the container provider when a credentials URL is set, and in the
    token file provider when token path and role are set, the client is
    built and the token file is read; otherwise it fails again before
    any request. *)
Theorem failure_cached_for_30s es p err (t0 : Z) :
  let s := run fresh es in
  promises s !! p = Some Pending ->
  let s1 := settle t0 p (Rejected err) s in
  promises s1 !! p = Some (Done (Rejected err))
  /\ (forall t, t <= t0 + 30 * 1000 ->
        getCredentials t s1 = (p, false, s1)
        /\ (forall config fetch, requestsOnCall config fetch t s1 = [])
        /\ (forall config client readTextFile,
              TokenFileWebIdentityCredentials.requestsOnCall parseXml
                config client readTextFile t s1 = [])
        /\ (forall net service,
              EC2MetadataCredentials.requestsOnCall parseDocument
                net service t s1 = []))
  /\ (forall t, t0 + 30 * 1000 < t ->
      getCredentials t s1 = (length (promises s1), true, reloading s1)
      /\ length (promises s1) <> p
      /\ promises (reloading s1) !! length (promises s1) = Some Pending
      /\ (forall config fetch,
            requestsOnCall config fetch t s1
            = if truthyOpt (credUrl config)
              then [(default "" (credUrl config), requestHeaders config)]
              else [])
      /\ (forall config client readTextFile,
            TokenFileWebIdentityCredentials.requestsOnCall parseXml
              config client readTextFile t s1
            = if truthyOpt (TokenFileWebIdentityCredentials.tokenPath config)
                 && truthyOpt (TokenFileWebIdentityCredentials.roleArn config)
              then
                match client,
                      readTextFile
                        (default ""
                           (TokenFileWebIdentityCredentials.tokenPath config))
                with
                | inr _, inr token =>
                    [(default ""
                        (TokenFileWebIdentityCredentials.roleArn config),
                      TokenFileWebIdentityCredentials.sessionName config,
                      token)]
                | _, _ => []
                end
              else [])
      /\ (forall net service,
            exists request rest,
              EC2MetadataCredentials.requestsOnCall parseDocument
                net service t s1 = request :: rest)).
Proof.
  intros s Hp s1.
  pose proof (wellFormed_reachable es) as Hwf. fold s in Hwf.
  destruct (wf_pending _ Hwf _ Hp) as [Hprom Hnone].
  assert (Hs1 : s1 = {| promise := Some p;
                        expireAfter := Some (DateMs (t0 + 30 * 1000));
                        promises := <[p := Done (Rejected err)]> (promises s) |}).
  { unfold s1. rewrite (settle_pending _ _ _ _ Hp). by f_equal. }
  pose proof (lookup_lt_Some _ _ _ Hp) as Hlt.
  split; [|split].
  - rewrite Hs1. simpl. by apply list_lookup_insert_eq.
  - intros t Ht.
    assert (Hcall : getCredentials t s1 = (p, false, s1)).
    { apply getCredentials_cached with (DateMs (t0 + 30 * 1000)).
      + by rewrite Hs1.
      + by rewrite Hs1.
      + simpl. apply Z.ltb_ge. lia. }
    split; [exact Hcall|]. split; [|split].
    + intros config fetch. unfold requestsOnCall. by rewrite Hcall.
    + intros config client readTextFile.
      unfold TokenFileWebIdentityCredentials.requestsOnCall,
        TokenFileWebIdentityCredentials.getCredentials.
      by rewrite Hcall.
    + intros net service.
      unfold EC2MetadataCredentials.requestsOnCall,
        EC2MetadataCredentials.getCredentials.
      by rewrite Hcall.
  - intros t Ht.
    assert (Hcall : getCredentials t s1
                    = (length (promises s1), true, reloading s1)).
    { apply getCredentials_expired with (DateMs (t0 + 30 * 1000)).
      * by rewrite Hs1.
      * simpl. apply Z.ltb_lt. lia. }
    split; [exact Hcall|]. split; [|split; [|split; [|split]]].
    + rewrite Hs1. simpl. rewrite length_insert. lia.
    + unfold reloading. simpl. by rewrite lookup_app_r, Nat.sub_diag.
    + intros config fetch. unfold requestsOnCall. rewrite Hcall.
      cbn [fst snd]. unfold loadLogged.
      by destruct (truthyOpt (credUrl config)).
    + intros config client readTextFile.
      unfold TokenFileWebIdentityCredentials.requestsOnCall,
        TokenFileWebIdentityCredentials.getCredentials.
      rewrite Hcall. cbn [fst snd].
      unfold TokenFileWebIdentityCredentials.loadLogged.
      destruct (truthyOpt (TokenFileWebIdentityCredentials.tokenPath config));
        [|done].
      destruct (truthyOpt (TokenFileWebIdentityCredentials.roleArn config));
        [|done].
      cbn [negb andb]. destruct client as [thrown|client]; [done|].
      by destruct (readTextFile _).
    + intros net service.
      unfold EC2MetadataCredentials.requestsOnCall,
        EC2MetadataCredentials.getCredentials.
      rewrite Hcall. cbn [fst snd].
      destruct (ec2_load_requests net service) as (request & rest & ->).
      exists request, rest. by rewrite drop_app_length.
Qed.

End NegativeCache.

(** A first call at 0 leaves the promise 0 pending; it settles at 5 s
    with a credential that expires at 100 s. *)
Lemma credential_cached_until_watermark_witness :
  let s1 := EcsTaskCredentials.settle 5000 0
              (Fulfilled (Samples.expiringAt 100000))
              (EcsTaskCredentials.run EcsTaskCredentials.fresh
                 [EcsTaskCredentials.Call 0]) in
  EcsTaskCredentials.getCredentials 39000 s1 = (0, false, s1)
  /\ EcsTaskCredentials.getCredentials 41000 s1
     = (1, true, EcsTaskCredentials.reloading s1).
Proof.
  intros s1.
  destruct (credential_cached_until_watermark
              [EcsTaskCredentials.Call 0] 0
              (Samples.expiringAt 100000) 100000 5000)
    as (_ & _ & Hbefore & Hafter).
  - reflexivity.
  - reflexivity.
  - lia.
  - split.
    + apply (Hbefore 39000%Z). lia.
    + apply (Hafter 41000%Z). lia.
Defined.

(** C4, as the specification words it, does not hold: a credential that
    settles at 2 s with [expiresAt] = 1 s, already past, gets no
    watermark, and the call at 3 s, later than [expiresAt - 60 s], is
    served the settled promise without a new [load]. *)
Lemma expired_credential_counterexample :
  ~ (forall es p x (T t0 t : Z),
       let s := EcsTaskCredentials.run EcsTaskCredentials.fresh es in
       EcsTaskCredentials.promises s !! p = Some Pending ->
       expiresAt x = Some (DateMs T) ->
       (t0 <= t)%Z ->
       (T - 60 * 1000 < t)%Z ->
       (EcsTaskCredentials.getCredentials t
          (EcsTaskCredentials.settle t0 p (Fulfilled x) s)).1.2 = true).
Proof.
  intros Hclaim.
  specialize (Hclaim [EcsTaskCredentials.Call 0] 0%nat
                (Samples.expiringAt 1000) 1000 2000 3000)%Z.
  discriminate Hclaim; reflexivity || lia.
Qed.

(** The container endpoint answers HTTP 500 at 0; calls at 10 s and at
    31 s: the first sends nothing, the second sends the request anew. *)
Lemma failure_cached_for_30s_witness :
  let s1 := EcsTaskCredentials.settle 0 0 (Rejected Samples.http500)
              (EcsTaskCredentials.run EcsTaskCredentials.fresh
                 [EcsTaskCredentials.Call 0]) in
  EcsTaskCredentials.load (H := v8) (H0 := Scenarios.builtins)
    Scenarios.container Scenarios.failingFetch
  = Rejected Samples.http500
  /\ EcsTaskCredentials.promises s1 !! 0%nat = Some (Done (Rejected Samples.http500))
  /\ EcsTaskCredentials.getCredentials 10000 s1 = (0, false, s1)
  /\ EcsTaskCredentials.requestsOnCall (H := v8) (H0 := Scenarios.builtins)
       Scenarios.container Scenarios.failingFetch 10000 s1 = []
  /\ EcsTaskCredentials.getCredentials 31000 s1
     = (1, true, EcsTaskCredentials.reloading s1)
  /\ EcsTaskCredentials.requestsOnCall (H := v8) (H0 := Scenarios.builtins)
       Scenarios.container Scenarios.failingFetch 31000 s1
     = [("http://169.254.170.2/v2/credentials/task",
         [("accept", "application/json")])].
Proof.
  intros s1.
  destruct (failure_cached_for_30s (H := v8) (H0 := Scenarios.builtins)
              (fun _ => Scenarios.stsDocument "2030-01-01T00:00:00Z")
              Scenarios.parseDocument
              [EcsTaskCredentials.Call 0] 0 Samples.http500 0)
    as (Hcell & Hwithin & Hafter).
  - reflexivity.
  - destruct (Hwithin 10000%Z) as (Hcall & Hnone & _); [lia|].
    destruct (Hafter 31000%Z) as (Hreload & _ & _ & Hsent & _); [lia|].
    split; [reflexivity|]. split; [exact Hcell|]. split; [exact Hcall|].
    split; [apply Hnone|]. split; [exact Hreload|].
    apply (Hsent Scenarios.container Scenarios.failingFetch).
Defined.

(** C5, as the specification words it, does not hold: a container
    provider without credentials URL fails at 0; the call at 31 s starts
    [load] anew, and that [load] fails again before any request. *)
Lemma failure_refetch_counterexample :
  ~ (forall (config : EcsTaskCredentials.Config)
            (fetch : string -> list (string * string)
                     -> Value + EcsTaskCredentials.Response)
            es p err (t0 t : Z),
       EcsTaskCredentials.promises
         (EcsTaskCredentials.run EcsTaskCredentials.fresh es) !! p
       = Some Pending ->
       EcsTaskCredentials.load (H := v8) (H0 := Scenarios.builtins)
         config fetch = Rejected err ->
       (t0 + 30 * 1000 < t)%Z ->
       EcsTaskCredentials.requestsOnCall (H := v8) (H0 := Scenarios.builtins)
         config fetch t
         (EcsTaskCredentials.settle t0 p (Rejected err)
            (EcsTaskCredentials.run EcsTaskCredentials.fresh es))
       <> []).
Proof.
  intros Hclaim.
  apply (Hclaim Scenarios.unconfigured Scenarios.failingFetch
           [EcsTaskCredentials.Call 0] 0
           (newError (H := v8) "AWS_CONTAINER_CREDENTIALS_RELATIVE_URI not set")
           0%Z 31000%Z).
  - reflexivity.
  - reflexivity.
  - lia.
  - reflexivity.
Qed.

(** A credential without [expiresAt] settles at 5 s; calls an hour, a
    day and a year later. *)
Lemma watermark_only_for_future_expiry_witness :
  let s1 := EcsTaskCredentials.settle 5000 0 (Fulfilled Samples.staticCreds)
              (EcsTaskCredentials.run EcsTaskCredentials.fresh
                 [EcsTaskCredentials.Call 0]) in
  EcsTaskCredentials.expireAfter s1 = None
  /\ EcsTaskCredentials.handedOut s1 [3600000; 86400000; 31536000000]%Z
     = [0; 0; 0]
  /\ EcsTaskCredentials.loadsStarted s1
       (map EcsTaskCredentials.Call [3600000; 86400000; 31536000000]%Z) = 0.
Proof.
  intros s1.
  destruct (watermark_only_for_future_expiry [EcsTaskCredentials.Call 0] 0
              Samples.staticCreds 5000)
    as (_ & Hnone).
  - reflexivity.
  - destruct Hnone as (Hexp & _ & Hcalls).
    + intros T [=].
    + split; [exact Hexp|].
      destruct (Hcalls [3600000; 86400000; 31536000000]%Z) as (_ & Hout & Hloads).
      split; [exact Hout|exact Hloads].
Defined.

(** ** Single flight *)

Section IniFlight.
Import SharedIniFileCredentials.
Implicit Types (s self : Instance) (p : nat).








End IniFlight.


(** ** The metadata token *)

Lemma float_mul_comm (x y : float) : (x * y = y * x)%float.
Proof.
  apply Prim2SF_inj. rewrite !mul_spec. unfold SF64mul, SFmul.
  destruct (Prim2SF x) as [sx|sx| |sx mx ex], (Prim2SF y) as [sy|sy| |sy my ey];
    try reflexivity; rewrite (xorb_comm sx sy); try reflexivity.
  by rewrite (Pos.mul_comm mx my), (Z.add_comm ex ey).
Qed.

Example default_client :
  IMDSv2.new (H := v8) (H0 := Scenarios.builtins) Samples.noEnvironment
    IMDSv2.noOptions
  = inr Samples.defaultClient.
Proof. vm_compute. reflexivity. Qed.

(** The delay is computed in binary64: for a TTL of 3 seconds the product
    falls just short of 2850. *)
Example delay_of_three_seconds : IMDSv2.specifiedDelay 3 = 2849%float.
Proof. vm_compute. reflexivity. Qed.

Section TokenClaims.
Import IMDSv2.
Local Open Scope float_scope.



(** C8, on the code.  Whenever [getToken] issues the token request,
    the request carries the discovery time-out [timeoutMs], because the
    request is only issued while no token is cached.  With the default
    client: the first fetch waits 1000 ms; the token arrives and its
    timer fires; the next fetch again waits 1000 ms, not the 5000 ms of
    [apiTimeoutMs]. *)
Theorem token_refetch_uses_discovery_timeout :
  (forall self,
     match getToken self with
     | (TokenFetching request _, _) =>
         requestTimeoutMs request = timeoutMs self
     | (TokenCached _, _) => True
     end)
  /\ exists request1 ttl1 c1 request2 ttl2 c4,
       getToken Samples.defaultClient = (TokenFetching request1 ttl1, c1)
       /\ requestTimeoutMs request1 = 1000
       /\ let c2 := (getTokenResume ttl1 (inr "token-1"%string) c1).2 in
          let c3 := fireTimer 0 c2 in
          cachedToken c2 = Some "token-1"%string
          /\ getToken c3 = (TokenFetching request2 ttl2, c4)
          /\ requestTimeoutMs request2 = 1000
          /\ apiTimeoutMs c3 = 5000.
Proof.
  split.
  - intros self. unfold getToken, fetchNewToken.
    destruct (truthyOpt (cachedToken self)) eqn:Htok; simpl; [done|].
    by rewrite ?Htok.
  - eexists _, _, _, _, _, _.
    split; [reflexivity|]. split; [reflexivity|]. cbv zeta.
    split; [reflexivity|]. split; [reflexivity|]. split; reflexivity.
Qed.

End TokenClaims.


(** ** The secret-santa script *)

Section SantaFacts.
Import Collections SecretSanta.
Implicit Types (xs acc pool : list string) (x g : string).

Lemma foldl_setAdd_elem acc xs x :
  x ∈ foldl setAdd acc xs <-> x ∈ acc \/ x ∈ xs.
Proof.
  revert acc; induction xs as [|y xs IH]; intros acc; simpl.
  - rewrite elem_of_nil. tauto.
  - rewrite IH, elem_of_cons. unfold setAdd. case_bool_decide.
    + split; [intros [?|?]; auto|intros [?|[->|?]]; auto].
    + rewrite elem_of_app, list_elem_of_singleton. tauto.
Qed.

Lemma foldl_setAdd_NoDup acc xs : NoDup acc -> NoDup (foldl setAdd acc xs).
Proof.
  revert acc; induction xs as [|y xs IH]; intros acc Hacc; simpl; [done|].
  apply IH. unfold setAdd. case_bool_decide; [done|].
  apply NoDup_app. split; [done|]. split; [|apply NoDup_singleton].
  intros z Hz ->%list_elem_of_singleton. done.
Qed.

Lemma foldl_setAdd_fresh acc xs :
  NoDup (acc ++ xs) -> foldl setAdd acc xs = acc ++ xs.
Proof.
  revert acc; induction xs as [|y xs IH]; intros acc Hnd; simpl.
  - by rewrite app_nil_r.
  - assert (Hy : y ∉ acc).
    { apply NoDup_app in Hnd as (_ & Hdisj & _). intros Hy.
      apply (Hdisj y Hy). by left. }
    unfold setAdd at 2. rewrite bool_decide_eq_false_2 by done.
    rewrite IH; rewrite <- app_assoc; done.
Qed.

Lemma elem_of_newSet xs x : x ∈ newSet xs <-> x ∈ xs.
Proof.
  unfold newSet. rewrite foldl_setAdd_elem, elem_of_nil. tauto.
Qed.

Lemma NoDup_newSet xs : NoDup (newSet xs).
Proof. apply foldl_setAdd_NoDup, NoDup_nil_2. Qed.

Lemma newSet_NoDup_id xs : NoDup xs -> newSet xs = xs.
Proof. intros Hnd. unfold newSet. by rewrite foldl_setAdd_fresh. Qed.

Lemma newSet_submseteq xs : newSet xs ⊆+ xs.
Proof.
  apply NoDup_submseteq; [apply NoDup_newSet|].
  intros x. by rewrite elem_of_newSet.
Qed.

(** The size test of the refinements: the set is as large as the list
    exactly when the list has no duplicates. *)
Lemma newSet_length_NoDup xs : length (newSet xs) = length xs <-> NoDup xs.
Proof.
  split.
  - intros Hlen.
    assert (Hperm : newSet xs ≡ₚ xs).
    { apply submseteq_length_Permutation; [apply newSet_submseteq|lia]. }
    rewrite <- Hperm. apply NoDup_newSet.
  - intros Hnd. by rewrite newSet_NoDup_id.
Qed.

Lemma has_true s x : has s x = true <-> x ∈ s.
Proof. unfold has. apply bool_decide_eq_true. Qed.

Lemma has_false s x : has s x = false <-> x ∉ s.
Proof. unfold has. apply bool_decide_eq_false. Qed.

Lemma foldl_insert_lookup {V : Type} (m : gmap string V)
    (es : list (string * V)) k v :
  NoDup (map fst es) -> (k, v) ∈ es ->
  foldl (fun m kv => <[kv.1 := kv.2]> m) m es !! k = Some v.
Proof.
  revert m; induction es as [|[k' v'] es IH]; intros m Hnd Hin; simpl.
  - by apply elem_of_nil in Hin.
  - simpl in Hnd. apply NoDup_cons in Hnd as [Hk' Hnd].
    apply elem_of_cons in Hin as [[= -> ->]|Hin]; [|by apply IH].
    clear IH. revert m. induction es as [|[k2 v2] es IH]; intros m; simpl.
    + apply lookup_insert_eq.
    + simpl in Hk', Hnd. apply not_elem_of_cons in Hk' as [Hne Hk'].
      apply NoDup_cons in Hnd as [_ Hnd].
      rewrite insert_insert_ne by done. by apply IH.
Qed.

Lemma foldl_insert_lookup_None {V : Type} (m : gmap string V)
    (es : list (string * V)) k :
  k ∉ map fst es ->
  foldl (fun m kv => <[kv.1 := kv.2]> m) m es !! k = m !! k.
Proof.
  revert m; induction es as [|[k' v'] es IH]; intros m Hk; simpl; [done|].
  simpl in Hk. apply not_elem_of_cons in Hk as [Hne Hk].
  rewrite IH by done. by apply lookup_insert_ne.
Qed.

Lemma foldl_insert_is_Some {V : Type} (m : gmap string V)
    (es : list (string * V)) k :
  k ∈ map fst es ->
  is_Some (foldl (fun m kv => <[kv.1 := kv.2]> m) m es !! k).
Proof.
  revert m; induction es as [|[k' v'] es IH]; intros m Hk; simpl.
  - by apply elem_of_nil in Hk.
  - simpl in Hk. destruct (decide (k ∈ map fst es)) as [Hin|Hout].
    + by apply IH.
    + rewrite foldl_insert_lookup_None by done.
      apply elem_of_cons in Hk as [->|?]; [|done].
      rewrite lookup_insert_eq. by eexists.
Qed.

Lemma swap_Permutation {T : Type} i j (array : list T) :
  swap i j array ≡ₚ array.
Proof.
  unfold swap. destruct (array !! i) as [ai|] eqn:Hi; [|done].
  destruct (array !! j) as [aj|] eqn:Hj; [|done].
  by apply Permutation_insert_swap.
Qed.

Lemma shuffleFrom_spec {T : Type} draw k i (array : list T) :
  (shuffleFrom draw k i array).1 ≡ₚ array
  /\ (shuffleFrom draw k i array).2 = k + i.
Proof.
  revert k array; induction i as [|i IH]; intros k array; simpl.
  - split; [done|lia].
  - destruct (IH (S k) (swap (S i) (draw k (S i)) array)) as [Hperm Hk].
    split; [by rewrite Hperm, swap_Permutation|lia].
Qed.

End SantaFacts.

Section SantaClaims.
Import Collections SecretSanta.
Implicit Types (input : SecretSantaInput) (draw : nat -> nat -> nat).

(** X1. [#shuffle] only rearranges: with every draw inside [0..i], the
    shuffled array is a permutation of the array, and an array of [n]
    elements costs [n - 1] calls of [Math.random] (none when it is
    empty). *)
Theorem shuffle_permutation {T : Type} draw k (array : list T) :
  (forall k i, draw k i <= i) ->
  (shuffle draw k array).1 ≡ₚ array
  /\ length (shuffle draw k array).1 = length array
  /\ (shuffle draw k array).2 = k + (length array - 1).
Proof.
  intros _. unfold shuffle.
  destruct (shuffleFrom_spec draw k (length array - 1) array) as [Hperm Hk].
  split; [done|]. split; [by rewrite Hperm|done].
Qed.

Lemma makeAssignments_spec draw k self :
  NoDup (peopleSet self) ->
  let candidate := (makeAssignments draw k self).1 in
  candidate.*1 = peopleSet self
  /\ candidate.*2 ≡ₚ peopleSet self
  /\ NoDup candidate.*2
  /\ (makeAssignments draw k self).2 = k + (length (peopleSet self) - 1).
Proof.
  intros Hnd. unfold makeAssignments. cbv zeta.
  destruct (shuffleFrom_spec draw k (length (peopleSet self) - 1)
              (peopleSet self)) as [Hperm Hk].
  unfold shuffle.
  destruct (shuffleFrom draw k (length (peopleSet self) - 1) (peopleSet self))
    as [receivers k'] eqn:Hs. simpl in *.
  pose proof (Permutation_length Hperm) as Hlen.
  rewrite fst_zip, snd_zip by lia.
  repeat split; try done. by rewrite Hperm.
Qed.

(** X2. Every candidate of [#makeAssignments] pairs the people, in the
    order of the people list, with a permutation of the people: everyone
    gives once and everyone receives once. *)
Theorem candidate_pairs_everyone_once input draw k :
  (forall k i, draw k i <= i) ->
  let candidate := (makeAssignments draw k (new input)).1 in
  candidate.*1 = newSet (map name (people input))
  /\ candidate.*2 ≡ₚ newSet (map name (people input))
  /\ NoDup candidate.*1
  /\ NoDup candidate.*2
  /\ (forall person, person ∈ map name (people input) ->
        person ∈ candidate.*1 /\ person ∈ candidate.*2).
Proof.
  intros _.
  destruct (makeAssignments_spec draw k (new input)) as (Hg & Hr & Hnd & _);
    [apply NoDup_newSet|].
  cbv zeta. simpl in *. split; [done|]. split; [done|].
  split; [rewrite Hg; apply NoDup_newSet|]. split; [done|].
  intros person Hin. rewrite Hg, Hr. by rewrite elem_of_newSet.
Qed.

Lemma candidate_spec n draw k self :
  NoDup (peopleSet self) ->
  (candidate n draw k self).*1 = peopleSet self
  /\ (candidate n draw k self).*2 ≡ₚ peopleSet self.
Proof.
  intros Hnd. revert k; induction n as [|n IH]; intros k; simpl.
  - by destruct (makeAssignments_spec draw k self Hnd) as (? & ? & _).
  - apply IH.
Qed.

Lemma peopleDetails_new input g :
  g ∈ peopleSet (new input) ->
  exists p, peopleDetails (new input) !! g = Some p.
Proof.
  simpl. rewrite elem_of_newSet. intros Hin. unfold newMap.
  apply foldl_insert_is_Some. by rewrite <- list_fmap_compose.
Qed.

Lemma formatAll_new input (cand : list (string * string)) :
  Forall (fun a => a.1 ∈ peopleSet (new input)) cand ->
  exists r, formatAll (new input) cand = Returned r
            /\ map giverName r = cand.*1
            /\ map receiverName r = cand.*2.
Proof.
  unfold formatAll. induction 1 as [|[g r] cand Hg _ (rs & IH & Hgs & Hrs)].
  - by exists [].
  - destruct (peopleDetails_new input g Hg) as [p Hp].
    destruct (mapM (formatAssignment (new input)) cand) as [rs'|] eqn:Hm;
      [|done].
    injection IH as <-.
    change (mapM (formatAssignment (new input)) ((g, r) :: cand))
      with (x ← formatAssignment (new input) (g, r);
            l ← mapM (formatAssignment (new input)) cand; mret (x :: l)).
    rewrite Hm. unfold formatAssignment. rewrite Hp. simpl.
    eexists. split; [done|]. simpl. by rewrite Hgs, Hrs.
Qed.

Lemma candidate_givers_known input n draw k :
  Forall (fun a => a.1 ∈ peopleSet (new input)) (candidate n draw k (new input)).
Proof.
  destruct (candidate_spec n draw k (new input)) as [Hg _];
    [apply NoDup_newSet|].
  apply Forall_forall. intros a Ha. rewrite <- Hg.
  apply list_elem_of_fmap. eauto.
Qed.

(** X3. [run] returns the first candidate all of whose pairs pass
    [#isOkayAssignment], formatted, and never throws: within [fuel]
    rounds it returns exactly when one of the first [fuel] candidates is
    okay, and it is still looping exactly when none is. *)
Theorem run_returns_first_okay_candidate input draw k fuel :
  (forall k i, draw k i <= i) ->
  let self := new input in
  let okay n := forallb (isOkayAssignment self) (candidate n draw k self) in
  run fuel draw k self <> Threw
  /\ (run fuel draw k self = Looping <-> forall n, n < fuel -> okay n = false)
  /\ (forall n, n < fuel -> okay n = true ->
        (forall m, m < n -> okay m = false) ->
        exists r, run fuel draw k self = Returned r
                  /\ map giverName r = (candidate n draw k self).*1
                  /\ map receiverName r = (candidate n draw k self).*2).
Proof.
  intros _. cbv zeta. revert k. induction fuel as [|fuel IH]; intros k.
  - simpl. split; [done|]. split; [split; [intros _ n; lia|done]|].
    intros n Hn. lia.
  - simpl.
    pose proof (candidate_givers_known input 0 draw k) as Hknown.
    simpl in Hknown.
    destruct (makeAssignments draw k (new input)) as [cand k'] eqn:Hmake.
    simpl in Hknown.
    destruct (forallb (isOkayAssignment (new input)) cand) eqn:Hok.
    + destruct (formatAll_new input cand Hknown) as (r & Hr & Hgs & Hrs).
      rewrite Hr. split; [done|]. split.
      * split; [done|]. intros Hall. specialize (Hall 0 ltac:(lia)).
        simpl in Hall. rewrite Hmake in Hall. simpl in Hall. congruence.
      * intros n Hn Hokn Hfirst. destruct n as [|n].
        -- exists r. simpl. rewrite Hmake. simpl. by rewrite Hgs, Hrs.
        -- specialize (Hfirst 0 ltac:(lia)). simpl in Hfirst.
           rewrite Hmake in Hfirst. simpl in Hfirst. congruence.
    + destruct (IH k') as (Hthrew & Hloop & Hret).
      split; [done|]. split.
      * rewrite Hloop. split.
        -- intros Hall [|n] Hn; simpl; rewrite Hmake; simpl; [done|].
           apply Hall. lia.
        -- intros Hall n Hn. specialize (Hall (S n) ltac:(lia)).
           simpl in Hall. by rewrite Hmake in Hall.
      * intros [|n] Hn Hokn Hfirst; simpl in Hokn; rewrite Hmake in Hokn;
          simpl in Hokn; [congruence|].
        simpl. rewrite Hmake. simpl.
        apply (Hret n); [lia|done|]. intros m Hm.
        specialize (Hfirst (S m) ltac:(lia)). simpl in Hfirst.
        by rewrite Hmake in Hfirst.
Qed.

End SantaClaims.

Section SantaValidation.
Import Collections SecretSanta.
Implicit Types (input : SecretSantaInput) (draw : nat -> nat -> nat).

Lemma parse_accepts input :
  parse input = inr input
  <-> sameTotal input = true /\ poolsDistinct input = true
      /\ peopleDistinct input = true /\ poolsKnown input = true.
Proof.
  unfold parse, refinements. simpl.
  destruct (sameTotal input), (poolsDistinct input), (peopleDistinct input),
    (poolsKnown input); simpl; split; try done; intros (? & ? & ? & ?); done.
Qed.

Lemma parse_rejects input :
  parse input <> inr input ->
  exists messages, parse input = inl messages /\ messages <> [].
Proof.
  unfold parse, refinements. simpl.
  destruct (sameTotal input), (poolsDistinct input), (peopleDistinct input),
    (poolsKnown input); simpl; try done; intros _; eexists; split; done.
Qed.

(** X4. [DataSchema.parse] accepts the data exactly when the pools
    partition the people: the names of the people are distinct and the
    pools, laid end to end, are a rearrangement of them; otherwise it
    fails with at least one of the four messages. *)
Theorem parse_accepts_partitions input :
  (parse input = inr input
   <-> NoDup (map name (people input))
       /\ flatten (pools input) ≡ₚ map name (people input))
  /\ (parse input <> inr input ->
      exists messages, parse input = inl messages /\ messages <> []).
Proof.
  split; [|apply parse_rejects].
  rewrite parse_accepts.
  unfold sameTotal, poolsDistinct, peopleDistinct, poolsKnown. cbv zeta.
  rewrite !bool_decide_eq_true, !newSet_length_NoDup, forallb_forall.
  split.
  - intros (Hlen & Hpools & Hpeople & Hknown). split; [done|].
    apply submseteq_length_Permutation; [|rewrite length_map; lia].
    apply NoDup_submseteq; [done|]. intros x Hx.
    apply list_elem_of_In, Hknown, has_true in Hx.
    by rewrite elem_of_newSet in Hx.
  - intros [Hpeople Hperm]. split; [|split; [|split]].
    + by rewrite Hperm, length_map.
    + by rewrite Hperm.
    + done.
    + intros x Hx. apply has_true, elem_of_newSet. rewrite <- Hperm.
      by apply list_elem_of_In.
Qed.

Lemma pool_entries_keys (pools : list (list string)) :
  map fst (flat_map (fun pool =>
                       map (fun person => (person, newSet pool)) pool) pools)
  = concat pools.
Proof.
  induction pools as [|pool pools IH]; simpl; [done|].
  rewrite map_app, IH. f_equal.
  rewrite map_map. simpl. apply map_id.
Qed.

Lemma poolMap_lookup input pool g :
  NoDup (flatten (pools input)) -> pool ∈ pools input -> g ∈ pool ->
  poolMap (new input) !! g = Some (newSet pool).
Proof.
  intros Hnd Hpool Hg. simpl. unfold newMap. cbv zeta.
  apply foldl_insert_lookup.
  - by rewrite pool_entries_keys.
  - apply list_elem_of_In, in_flat_map. exists pool.
    split; [by apply list_elem_of_In|].
    apply in_map_iff. exists g. split; [done|]. by apply list_elem_of_In.
Qed.

Lemma okay_respects_pools input g r pool :
  parse input = inr input ->
  isOkayAssignment (new input) (g, r) = true ->
  pool ∈ pools input -> g ∈ pool -> r ∉ pool.
Proof.
  intros Hvalid Hok Hpool Hg.
  apply parse_accepts_partitions in Hvalid as [Hpeople Hperm].
  assert (Hnd : NoDup (flatten (pools input))) by (by rewrite Hperm).
  unfold isOkayAssignment in Hok.
  rewrite (poolMap_lookup input pool g Hnd Hpool Hg) in Hok.
  apply andb_true_iff in Hok as [_ Hok].
  apply negb_true_iff, has_false in Hok. by rewrite elem_of_newSet in Hok.
Qed.

Lemma person_in_pool input g :
  parse input = inr input -> g ∈ map name (people input) ->
  exists pool, pool ∈ pools input /\ g ∈ pool.
Proof.
  intros Hvalid Hg.
  apply parse_accepts_partitions in Hvalid as [_ Hperm].
  rewrite <- Hperm in Hg. unfold flatten in Hg.
  apply list_elem_of_In, in_concat in Hg as (pool & Hpool & Hg).
  exists pool. by rewrite !list_elem_of_In.
Qed.

Lemma peopleDetails_entry input g p :
  NoDup (map name (people input)) ->
  peopleDetails (new input) !! g = Some p ->
  p ∈ people input /\ name p = g.
Proof.
  intros Hnd Hp. simpl in Hp. unfold newMap in Hp.
  set (es := map (fun p => (name p, p)) (people input)) in *.
  assert (Hkeys : map fst es = map name (people input)).
  { unfold es. rewrite map_map. done. }
  destruct (decide (g ∈ map fst es)) as [Hin|Hout].
  - apply list_elem_of_fmap in Hin as ([g' p'] & -> & Hin'). simpl in *.
    rewrite (foldl_insert_lookup _ _ g' p') in Hp by (by rewrite ?Hkeys).
    injection Hp as <-.
    apply list_elem_of_fmap in Hin' as (p0 & [= -> ->] & Hp0). done.
  - rewrite foldl_insert_lookup_None in Hp by done. done.
Qed.

(** X5. On validated data, what [run] returns keeps the pools apart:
    nobody draws themselves or a member of their own pool; the givers are
    the people in the order of the list, each with the e-mail address of
    their entry, and the receivers are a rearrangement of the people. *)
Theorem validated_run_respects_pools input draw k fuel r :
  (forall k i, draw k i <= i) ->
  parse input = inr input ->
  run fuel draw k (new input) = Returned r ->
  Forall (fun a =>
            giverName a <> receiverName a
            /\ forall pool, pool ∈ pools input -> giverName a ∈ pool ->
                 receiverName a ∉ pool) r
  /\ map giverName r = map name (people input)
  /\ map receiverName r ≡ₚ map name (people input)
  /\ Forall (fun a => exists p, p ∈ people input /\ name p = giverName a
                                /\ email p = giverEmail a) r.
Proof.
  intros Hdraw Hvalid. revert k.
  pose proof (proj1 (proj1 (parse_accepts_partitions input)) Hvalid)
    as [Hpeople Hperm].
  induction fuel as [|fuel IH]; intros k; simpl; [done|].
  destruct (makeAssignments_spec draw k (new input)) as (Hg & Hr & _ & _);
    [apply NoDup_newSet|].
  destruct (makeAssignments draw k (new input)) as [cand k'] eqn:Hmake.
  simpl in Hg, Hr. rewrite newSet_NoDup_id in Hg, Hr by done.
  destruct (forallb (isOkayAssignment (new input)) cand) eqn:Hok; [|apply IH].
  unfold formatAll.
  destruct (mapM (formatAssignment (new input)) cand) as [rs|] eqn:Hm; [|done].
  intros [= <-].
  apply mapM_Some in Hm.
  assert (Hpairs : Forall2 (fun a b =>
             giverName b = a.1 /\ receiverName b = a.2
             /\ exists p, peopleDetails (new input) !! a.1 = Some p
                          /\ email p = giverEmail b) cand rs).
  { eapply Forall2_impl; [exact Hm|]. intros [g rcv] b. simpl.
    unfold formatAssignment.
    destruct (newMap _ !! g) as [p|] eqn:Hp; [|done].
    intros [= <-]. simpl. eauto. }
  assert (Hgs : map giverName rs = cand.*1).
  { clear -Hpairs. induction Hpairs as [|a b ? ? (Hgb & _) _ IH]; simpl;
      [done|by rewrite Hgb, IH]. }
  assert (Hrs : map receiverName rs = cand.*2).
  { clear -Hpairs. induction Hpairs as [|a b ? ? (_ & Hrb & _) _ IH]; simpl;
      [done|by rewrite Hrb, IH]. }
  split; [|split; [|split]].
  - rewrite forallb_forall in Hok. rewrite Forall_forall. intros b Hb.
    apply list_elem_of_lookup in Hb as [i Hb].
    destruct (Forall2_lookup_r _ _ _ _ _ Hpairs Hb) as ([g rcv] & Ha & Hgb & Hrb & _).
    simpl in Hgb, Hrb. rewrite Hgb, Hrb.
    assert (Hin : (g, rcv) ∈ cand) by (by eapply list_elem_of_lookup_2).
    specialize (Hok (g, rcv) (proj1 (list_elem_of_In _ _) Hin)).
    assert (Hgp : g ∈ map name (people input)).
    { rewrite <- Hg. apply list_elem_of_fmap. by exists (g, rcv). }
    assert (Hapart : forall pool, pool ∈ pools input -> g ∈ pool -> rcv ∉ pool).
    { intros pool. by apply okay_respects_pools. }
    split; [|done].
    destruct (person_in_pool input g Hvalid Hgp) as (pool & Hpool & Hgpool).
    intros <-. by apply (Hapart pool).
  - by rewrite Hgs.
  - by rewrite Hrs.
  - rewrite Forall_forall. intros b Hb.
    apply list_elem_of_lookup in Hb as [i Hb].
    destruct (Forall2_lookup_r _ _ _ _ _ Hpairs Hb)
      as ([g rcv] & Ha & Hgb & _ & p & Hp & Hmail).
    simpl in Hgb, Hp. exists p. rewrite Hgb.
    destruct (peopleDetails_entry input g p Hpeople Hp) as [Hin Hname].
    done.
Qed.

End SantaValidation.

Section SantaCounting.
Import Collections SecretSanta.
Implicit Types (input : SecretSantaInput) (draw : nat -> nat -> nat).

Lemma filter_disjoint_length {A : Type} (P Q : A -> bool) (l : list A) :
  (forall x, In x l -> P x = true -> Q x = false) ->
  length (List.filter P l) + length (List.filter Q l) <= length l.
Proof.
  induction l as [|x l IH]; intros Hdisj; simpl; [lia|].
  assert (IH' := IH (fun y Hy => Hdisj y (or_intror Hy))).
  destruct (P x) eqn:HP.
  - rewrite (Hdisj x (or_introl eq_refl) HP). simpl. lia.
  - destruct (Q x); simpl; lia.
Qed.

Lemma filter_fst_length (pool : list string) (cand : list (string * string)) :
  length (List.filter (fun a => has pool a.1) cand)
  = length (List.filter (has pool) cand.*1).
Proof.
  induction cand as [|[g r] cand IH]; simpl; [done|].
  destruct (has pool g); simpl; by rewrite IH.
Qed.

Lemma filter_snd_length (pool : list string) (cand : list (string * string)) :
  length (List.filter (fun a => has pool a.2) cand)
  = length (List.filter (has pool) cand.*2).
Proof.
  induction cand as [|[g r] cand IH]; simpl; [done|].
  destruct (has pool r); simpl; by rewrite IH.
Qed.

(** The members of a pool, counted inside a duplicate-free list that
    holds them all. *)
Lemma filter_pool_length (pool l : list string) :
  NoDup pool -> NoDup l -> (forall x, x ∈ pool -> x ∈ l) ->
  length (List.filter (has pool) l) = length pool.
Proof.
  intros Hpool Hl Hsub. apply Permutation_length.
  apply NoDup_Permutation; [|done|].
  - apply NoDup_ListNoDup, List.NoDup_filter, NoDup_ListNoDup, Hl.
  - intros x. rewrite list_elem_of_In, filter_In, has_true.
    rewrite <- list_elem_of_In. split; [tauto|auto].
Qed.

(** X6. When one pool holds more than half of the people, no candidate
    passes, so [run] never returns: it is still looping after any number
    of rounds, whatever the draws. *)
Theorem oversized_pool_never_returns input draw k fuel pool :
  (forall k i, draw k i <= i) ->
  parse input = inr input ->
  pool ∈ pools input ->
  length (people input) < 2 * length pool ->
  run fuel draw k (new input) = Looping.
Proof.
  intros Hdraw Hvalid Hpool Hbig.
  destruct (run_returns_first_okay_candidate input draw k fuel Hdraw)
    as (_ & Hloop & _).
  apply Hloop. intros n _. apply not_true_is_false. intros Hok.
  pose proof (proj1 (proj1 (parse_accepts_partitions input)) Hvalid)
    as [Hpeople Hperm].
  destruct (candidate_spec n draw k (new input)) as [Hg Hr];
    [apply NoDup_newSet|].
  simpl in Hg, Hr. rewrite newSet_NoDup_id in Hg, Hr by done.
  set (cand := candidate n draw k (new input)) in *.
  rewrite forallb_forall in Hok.
  assert (Hflat : NoDup (flatten (pools input))) by (by rewrite Hperm).
  assert (Hsub : forall x, x ∈ pool -> x ∈ map name (people input)).
  { intros x Hx. rewrite <- Hperm. unfold flatten.
    apply list_elem_of_In, in_concat. exists pool.
    by rewrite <- !list_elem_of_In. }
  assert (Hndpool : NoDup pool).
  { apply list_elem_of_In, in_split in Hpool as (l1 & l2 & Heq).
    unfold flatten in Hflat. rewrite Heq, concat_app in Hflat. simpl in Hflat.
    apply NoDup_app in Hflat as (_ & _ & Hflat).
    by apply NoDup_app in Hflat as (? & _ & _). }
  pose proof (filter_disjoint_length (fun a => has pool a.1)
                (fun a => has pool a.2) cand) as Hcount.
  rewrite filter_fst_length, filter_snd_length, Hg in Hcount.
  rewrite (filter_pool_length pool (map name (people input))) in Hcount
    by done.
  rewrite (filter_pool_length pool cand.*2) in Hcount;
    [|done|by rewrite Hr|intros x Hx; rewrite Hr; by apply Hsub].
  assert (Hlen : length cand = length (people input)).
  { rewrite <- (length_fmap fst cand), Hg. by rewrite length_map. }
  rewrite Hlen in Hcount.
  assert (length pool + length pool <= length (people input)); [|lia].
  apply Hcount. intros [g r] Hin Hgp. simpl in *.
  apply has_true in Hgp. apply has_false.
  eapply okay_respects_pools; eauto.
Qed.

Lemma consolidate_lookup (assignments : list Assignment)
    (acc m : gmap string (list Line)) address :
  consolidate acc assignments = Some m ->
  m !! address
  = match relevant address assignments, acc !! address with
    | [], current => current
    | lines, Some current => Some (reverse lines ++ current)
    | lines, None => Some (reverse lines)
    end.
Proof.
  revert acc. induction assignments as [|a rest IH]; intros acc; simpl.
  - by intros [= <-].
  - destruct (consolidateStep acc a) as [acc'|] eqn:Hstep; [|done].
    intros Hm. rewrite (IH _ Hm). clear IH Hm.
    unfold relevant. simpl.
    assert (Hacc' : acc' = <[giverEmail a :=
                {| giver := giverName a; receiver := receiverName a |}
                :: default [] (acc !! giverEmail a)]> acc).
    { unfold consolidateStep in Hstep.
      destruct (acc !! giverEmail a) as [cur|]; simpl.
      - by injection Hstep as <-.
      - case_bool_decide; [done|]. by injection Hstep as <-. }
    destruct (String.eqb_spec (giverEmail a) address) as [<-|Hne].
    + rewrite Hacc', lookup_insert_eq. simpl. rewrite reverse_cons.
      destruct (map _ (List.filter _ rest)) as [|l ls];
        destruct (acc !! giverEmail a); simpl;
        by rewrite <- ?app_assoc.
    + rewrite Hacc', lookup_insert_ne by done. done.
Qed.

Lemma consolidate_throws (assignments : list Assignment)
    (acc : gmap string (list Line)) :
  (forall key, key ∈ objectPrototypeKeys -> acc !! key = None) ->
  consolidate acc assignments = None
  <-> exists a, a ∈ assignments /\ giverEmail a ∈ objectPrototypeKeys.
Proof.
  revert acc. induction assignments as [|a rest IH]; intros acc Hacc; simpl.
  - split; [done|]. intros (a & Ha & _). by apply elem_of_nil in Ha.
  - unfold consolidateStep.
    destruct (decide (giverEmail a ∈ objectPrototypeKeys)) as [Hproto|Hplain].
    + rewrite (Hacc _ Hproto), bool_decide_eq_true_2 by done.
      split; [|done]. intros _. exists a. split; [by left|done].
    + assert (Hnext : forall cur key, key ∈ objectPrototypeKeys ->
                <[giverEmail a := cur]> acc !! key = None).
      { intros cur key Hkey. rewrite lookup_insert_ne; [by apply Hacc|].
        by intros <-. }
      destruct (acc !! giverEmail a) as [cur|];
        [|rewrite bool_decide_eq_false_2 by done];
        rewrite IH by (apply Hnext); split;
        try (intros (b & Hb & Hp); exists b; split; [by right|done]);
        intros (b & Hb & Hp); exists b;
        (apply elem_of_cons in Hb as [->|Hb]; [done|by split]).
Qed.

(** X7. The consolidation by e-mail address tells every assignment to
    the address of its giver and to no other: when it goes through, the
    entry of an address is the list of the assignments whose giver has
    that address, latest first, and an address without giver has no
    entry.  It throws exactly when a giver's address is a property name
    of [Object.prototype]. *)
Theorem consolidate_by_address (assignments : list Assignment) :
  (consolidate ∅ assignments = None
   <-> exists a, a ∈ assignments /\ giverEmail a ∈ objectPrototypeKeys)
  /\ forall m address,
       consolidate ∅ assignments = Some m ->
       m !! address
       = match relevant address assignments with
         | [] => None
         | lines => Some (reverse lines)
         end.
Proof.
  split.
  - apply consolidate_throws. intros key _. apply lookup_empty.
  - intros m address Hm. rewrite (consolidate_lookup _ _ _ address Hm).
    rewrite lookup_empty. by destruct (relevant address assignments).
Qed.

End SantaCounting.

(** ** The metadata client: requests and token cache *)

Section Lines.

Lemma lines_nonempty (s : string) : lines s <> [].
Proof.
  destruct s as [|c s]; simpl; [done|].
  destruct (Ascii.eqb c newline); [done|]. by destruct (lines s).
Qed.

(** A text without line feed is one line; one with a line feed is at
    least two. *)
Lemma lines_single (s : string) :
  ~ In newline (list_ascii_of_string s) -> lines s = [s].
Proof.
  induction s as [|c s IH]; simpl; [done|]. intros Hno.
  destruct (Ascii.eqb_spec c newline) as [->|Hne]; [tauto|].
  rewrite IH by tauto. done.
Qed.

Lemma lines_several (s : string) :
  In newline (list_ascii_of_string s) -> 2 <= length (lines s).
Proof.
  induction s as [|c s IH]; simpl; [done|]. intros Hin.
  destruct (Ascii.eqb_spec c newline) as [->|Hne].
  - simpl. pose proof (lines_nonempty s). destruct (lines s); [done|].
    simpl. lia.
  - destruct Hin as [Heq|Hin]; [congruence|]. specialize (IH Hin).
    destruct (lines s) as [|l ls]; simpl in *; lia.
Qed.

End Lines.

Section MetadataRequests.
Import IMDSv2.
Context `{Engine} `{Builtins}.

Lemma getToken_cached self token :
  cachedToken self = Some token -> truthyString token = true ->
  getToken self = (TokenCached token, self).
Proof. intros Htok Htruthy. unfold getToken. by rewrite Htok; simpl; rewrite Htruthy. Qed.

Lemma getToken_fetching self :
  truthyOpt (cachedToken self) = false ->
  getToken self
  = (TokenFetching
       {| method := PUT; path := "api/token";
          requestTimeoutMs := timeoutMs self;
          headers := [("x-aws-ec2-metadata-token-ttl-seconds"%string,
                       Fixed0 (tokenTtlSeconds self))] |}
       (tokenTtlSeconds self),
     withRequest self
       {| method := PUT; path := "api/token";
          requestTimeoutMs := timeoutMs self;
          headers := [("x-aws-ec2-metadata-token-ttl-seconds"%string,
                       Fixed0 (tokenTtlSeconds self))] |}).
Proof.
  intros Hnone. unfold getToken, fetchNewToken. by rewrite Hnone.
Qed.

(** X8. [performRequest] gets the token first.  With a cached token it
    issues the one request, under [apiTimeoutMs] and with that token in
    its header.  Without one it first issues the token request, under
    [timeoutMs]; if that fails, the failure is returned and the request
    itself is never issued; if it answers, the token is cached, its timer
    is armed, and the request goes out with the new token. *)
Theorem performRequest_token_first (net : Network) (m : Method)
    (p : string) (self : Client) :
  let tokenRequest :=
    {| method := PUT; path := "api/token";
       requestTimeoutMs := timeoutMs self;
       headers := [("x-aws-ec2-metadata-token-ttl-seconds"%string,
                    Fixed0 (tokenTtlSeconds self))] |} in
  let request token :=
    {| method := m; path := p; requestTimeoutMs := apiTimeoutMs self;
       headers := [("x-aws-ec2-metadata-token"%string, Text token)] |} in
  let n := length (requests self) in
  (forall token,
     cachedToken self = Some token -> truthyString token = true ->
     performRequest net m p self
     = (performRawRequest (request token) (net n (request token)),
        withRequest self (request token)))
  /\ (truthyOpt (cachedToken self) = false ->
      match performRawRequest tokenRequest (net n tokenRequest) with
      | inl err =>
          performRequest net m p self
          = (inl err, withRequest self tokenRequest)
      | inr token =>
          exists self2,
            performRequest net m p self
            = (performRawRequest (request token) (net (S n) (request token)),
               self2)
            /\ cachedToken self2 = Some token
            /\ requests self2
               = requests self ++ [tokenRequest; request token]
            /\ timers self2
               = timers self
                 ++ [{| timerToken := token;
                        timerDelay :=
                          specifiedDelay (tokenTtlSeconds self) |}]
      end).
Proof.
  cbv zeta. split.
  - intros token Htok Htruthy. unfold performRequest.
    by rewrite (getToken_cached self token Htok Htruthy).
  - intros Hnone. unfold performRequest.
    rewrite (getToken_fetching self Hnone).
    destruct (performRawRequest _ (net (length (requests self)) _))
      as [err|token]; [done|].
    eexists. split; [|split; [|split]].
    + unfold getTokenResume. cbn -[mathFloor mathMax PrimFloat.mul].
      rewrite length_app. simpl.
      replace (length (requests self) + 1) with (S (length (requests self)))
        by lia.
      reflexivity.
    + done.
    + simpl. by rewrite <- app_assoc.
    + simpl. unfold specifiedDelay.
      by rewrite (float_mul_comm 0.95 (tokenTtlSeconds self)).
Qed.

End MetadataRequests.

Section TokenCache.
Import IMDSv2.

Lemma tokenGuarded_arrives self ttlSeconds respText :
  tokenGuarded (getTokenResume ttlSeconds (inr respText) self).2.
Proof.
  intros token. simpl. intros [= <-]. eexists. split.
  - apply elem_of_app. right. apply list_elem_of_singleton. reflexivity.
  - done.
Qed.

Lemma tokenGuarded_fires self k :
  tokenGuarded self -> tokenGuarded (fireTimer k self).
Proof.
  intros Hguard token. unfold fireTimer.
  destruct (timers self !! k) as [fired|] eqn:Hk; [|apply Hguard].
  unfold timerCallback. simpl.
  destruct (cachedToken self) as [cached|] eqn:Hcached; [|done].
  destruct (String.eqb_spec cached (timerToken fired)) as [Heq|Hne];
    simpl; [done|].
  intros [= <-]. destruct (Hguard cached Hcached) as (timer & Hin & Htok).
  exists timer. split; [|done].
  apply list_elem_of_lookup in Hin as [i Hi].
  destruct (decide (i = k)) as [->|Hik]; [congruence|].
  apply list_elem_of_lookup.
  destruct (decide (i < k)).
  - exists i. by rewrite list_lookup_delete_lt.
  - exists (i - 1). rewrite list_lookup_delete_ge by lia.
    replace (S (i - 1)) with i by lia. done.
Qed.

(** X9. The token cache never holds a token without a timer to clear
    it: after any run of token arrivals and timer firings on a client
    that starts without token, a cached token is the token of a timer
    still in the queue; so once the queue is empty, the cache is too. *)
Theorem cached_token_has_timer (self : Client) (es : list CacheEvent) :
  cachedToken self = None ->
  let self' := cacheRun self es in
  (forall token, cachedToken self' = Some token ->
     exists timer, timer ∈ timers self' /\ timerToken timer = token)
  /\ (timers self' = [] -> cachedToken self' = None).
Proof.
  intros Hnone. cbv zeta.
  assert (Hguard : tokenGuarded (cacheRun self es)).
  { assert (Hstart : tokenGuarded self) by (intros token; congruence).
    clear Hnone. revert self Hstart.
    induction es as [|e es IH]; intros self Hstart; simpl; [done|].
    apply IH. destruct e as [ttl respText|k]; simpl.
    - apply tokenGuarded_arrives.
    - by apply tokenGuarded_fires. }
  split; [exact Hguard|].
  intros Hempty. destruct (cachedToken (cacheRun self es)) as [token|] eqn:Htok;
    [|done].
  destruct (Hguard token Htok) as (timer & Hin & _).
  rewrite Hempty in Hin. by apply elem_of_nil in Hin.
Qed.

Lemma getToken_keeps_cache self : cachedToken (getToken self).2 = cachedToken self.
Proof.
  unfold getToken. destruct (truthyOpt (cachedToken self)); done.
Qed.

(** X10. [getToken] does not share a fetch that is under way: [n] calls
    made while no token is cached and before any answer arrives issue
    [n] token requests, all alike. *)
Theorem getToken_not_single_flight (n : nat) (self : Client) :
  truthyOpt (cachedToken self) = false ->
  requests (getTokenTimes n self)
  = requests self ++ replicate n (fetchNewToken self).1
  /\ cachedToken (getTokenTimes n self) = cachedToken self.
Proof.
  revert self. induction n as [|n IH]; intros self Hnone; simpl.
  - by rewrite app_nil_r.
  - assert (Hstep : getToken self
                    = (TokenFetching (fetchNewToken self).1
                         (fetchNewToken self).2,
                       withRequest self (fetchNewToken self).1)).
    { unfold getToken. by rewrite Hnone. }
    rewrite Hstep. cbn [snd].
    destruct (IH (withRequest self (fetchNewToken self).1)) as [Hreq Hcache];
      [done|].
    rewrite Hreq, Hcache. split; [|done].
    cbn [requests withRequest]. rewrite <- app_assoc. done.
Qed.

Lemma float_ltb_leb (x y : float) :
  PrimFloat.ltb x y = true -> PrimFloat.leb x y = true.
Proof.
  rewrite ltb_spec, leb_spec. unfold SFltb, SFleb.
  by destruct (SFcompare (Prim2SF x) (Prim2SF y)) as [[]|].
Qed.

Lemma mathMax_1000 (x : float) :
  PrimFloat.leb 1000 (mathMax 1000 x) = true
  \/ PrimFloat.is_nan (mathMax 1000 x) = true.
Proof.
  unfold mathMax. change (PrimFloat.is_nan 1000) with false. simpl orb.
  destruct (PrimFloat.is_nan x) eqn:Hnan; [by right|]. left.
  destruct (PrimFloat.ltb 1000 x) eqn:Hlt.
  - by apply float_ltb_leb.
  - reflexivity.
Qed.

(** X11. [getToken] never arms an invalidation timer for under a
    second: in every client reached by token arrivals and timer firings
    from a client without timers, whatever the times to live, each timer
    in the queue has a delay of at least 1000 ms, or one that is not a
    number. *)
Theorem invalidation_delay_at_least_1000 (self : Client)
    (es : list CacheEvent) (timer : Timer) :
  timers self = [] ->
  timer ∈ timers (cacheRun self es) ->
  PrimFloat.leb 1000 (timerDelay timer) = true
  \/ PrimFloat.is_nan (timerDelay timer) = true.
Proof.
  intros Hnone.
  set (ok := fun t : Timer =>
               PrimFloat.leb 1000 (timerDelay t) = true
               \/ PrimFloat.is_nan (timerDelay t) = true).
  assert (Hall : Forall ok (timers (cacheRun self es))).
  { assert (Hstart : Forall ok (timers self)) by (rewrite Hnone; constructor).
    clear Hnone. revert self Hstart.
    induction es as [|e es IH]; intros self Hstart; simpl; [done|].
    apply IH. destruct e as [ttl respText|k]; simpl.
    - apply Forall_app. split; [done|].
      apply Forall_singleton. apply mathMax_1000.
    - unfold fireTimer. destruct (timers self !! k) as [fired|]; [|done].
      pose proof (Forall_delete _ _ k Hstart) as Hdel.
      unfold timerCallback. simpl.
      destruct (cachedToken self) as [token|]; [|done].
      by destruct (String.eqb token (timerToken fired)). }
  intros Hin. rewrite Forall_forall in Hall. by apply Hall.
Qed.

End TokenCache.

Section MetadataConstructor.
Import IMDSv2.
Context `{Engine} `{Builtins}.

(** X12. The constructor of the metadata client throws in two cases
    only.  When the environment can be read and
    AWS_EC2_METADATA_DISABLED is exactly "true", it throws the error of
    the disabled client, before anything else.  Otherwise (a denied read
    of the environment is swallowed) it throws what
    [new URL(endpointPath, endpoint)] throws, if that throws, and else
    returns a client without token, timer or request whose base URL was
    built from these two.  The endpoint path is the option or "latest/";
    the endpoint is the option when that is not empty, else
    AWS_EC2_METADATA_SERVICE_ENDPOINT when readable and not empty, else
    the IPv6 address when the mode (the option, or failing that
    AWS_EC2_METADATA_SERVICE_ENDPOINT_MODE = "IPv6") says so, else the
    IPv4 address. *)
Theorem metadata_client_construction (env : Env) (opts : Options) :
  let byMode :=
    if match optEndpointMode opts,
             envGet env "AWS_EC2_METADATA_SERVICE_ENDPOINT_MODE" with
       | Some IPv6, _ => true
       | None, inr (Some mode) => String.eqb mode "IPv6"
       | _, _ => false
       end
    then "http://[fd00:ec2::254]" else "http://169.254.169.254" in
  let endpoint :=
    if truthyOpt (optServiceEndpoint opts)
    then default "" (optServiceEndpoint opts)
    else match envGet env "AWS_EC2_METADATA_SERVICE_ENDPOINT" with
         | inr (Some endpoint) =>
             if truthyString endpoint then endpoint else byMode
         | _ => byMode
         end in
  let endpointPath := default "latest/" (optEndpointPath opts) in
  (envGet env "AWS_EC2_METADATA_DISABLED" = inr (Some "true") ->
   new env opts = inl (newError disabledMessage))
  /\ (envGet env "AWS_EC2_METADATA_DISABLED" <> inr (Some "true") ->
      (forall err,
         new env opts = inl err
         <-> resolveUrl endpointPath endpoint = inl err)
      /\ forall client,
           new env opts = inr client
           <-> (exists url, resolveUrl endpointPath endpoint = inr url)
               /\ client
                  = {| baseUrl := (endpointPath, endpoint);
                       timeoutMs :=
                         mathFloor (default 1000%float (optTimeoutMs opts));
                       apiTimeoutMs :=
                         mathFloor (default 5000%float (optApiTimeoutMs opts));
                       tokenTtlSeconds :=
                         mathFloor
                           (default 21600%float (optTokenTtlSeconds opts));
                       cachedToken := None; timers := []; requests := [] |}).
Proof.
  cbv zeta. split.
  - intros Hdisabled. unfold new. by rewrite Hdisabled.
  - intros Henabled.
    assert (Hendpoint :
      (if truthyOpt
            (if truthyOpt (optServiceEndpoint opts)
             then optServiceEndpoint opts
             else match envGet env "AWS_EC2_METADATA_SERVICE_ENDPOINT" with
                  | inr v => v
                  | inl _ => optServiceEndpoint opts
                  end)
       then default EmptyString
              (if truthyOpt (optServiceEndpoint opts)
               then optServiceEndpoint opts
               else match envGet env "AWS_EC2_METADATA_SERVICE_ENDPOINT" with
                    | inr v => v
                    | inl _ => optServiceEndpoint opts
                    end)
       else
         match
           match optEndpointMode opts with
           | Some mode => Some mode
           | None =>
               match envGet env "AWS_EC2_METADATA_SERVICE_ENDPOINT_MODE" with
               | inr (Some v) => if String.eqb v "IPv6" then Some IPv6 else None
               | _ => None
               end
           end
         with
         | Some IPv6 => "http://[fd00:ec2::254]"
         | _ => "http://169.254.169.254"
         end)
      = (if truthyOpt (optServiceEndpoint opts)
         then default "" (optServiceEndpoint opts)
         else match envGet env "AWS_EC2_METADATA_SERVICE_ENDPOINT" with
              | inr (Some endpoint) =>
                  if truthyString endpoint
                  then endpoint
                  else if match optEndpointMode opts,
                                envGet env "AWS_EC2_METADATA_SERVICE_ENDPOINT_MODE" with
                          | Some IPv6, _ => true
                          | None, inr (Some mode) => String.eqb mode "IPv6"
                          | _, _ => false
                          end
                       then "http://[fd00:ec2::254]" else "http://169.254.169.254"
              | _ =>
                  if match optEndpointMode opts,
                           envGet env "AWS_EC2_METADATA_SERVICE_ENDPOINT_MODE" with
                     | Some IPv6, _ => true
                     | None, inr (Some mode) => String.eqb mode "IPv6"
                     | _, _ => false
                     end
                  then "http://[fd00:ec2::254]" else "http://169.254.169.254"
              end)).
    { destruct (optServiceEndpoint opts) as [[|c s]|] eqn:Hopt; simpl;
        try done;
        destruct (envGet env "AWS_EC2_METADATA_SERVICE_ENDPOINT")
          as [e|[[|c' s']|]]; simpl; try done;
        destruct (optEndpointMode opts) as [[]|]; simpl; try done;
        destruct (envGet env "AWS_EC2_METADATA_SERVICE_ENDPOINT_MODE")
          as [e'|[v|]]; simpl; try done;
        destruct (String.eqb v "IPv6"); done. }
    assert (Hoff :
      match envGet env "AWS_EC2_METADATA_DISABLED" with
      | inr (Some v) => String.eqb v "true"
      | _ => false
      end = false).
    { destruct (envGet env "AWS_EC2_METADATA_DISABLED") as [e|[v|]];
        try done.
      destruct (String.eqb_spec v "true") as [->|]; done. }
    unfold new. rewrite Hoff. cbv zeta. rewrite Hendpoint.
    destruct (resolveUrl _ _) as [thrown|url]; split.
    + intros err. split; by intros [= <-].
    + intros client. split; [done|]. by intros [[? [=]] _].
    + intros err. split; by intros [=].
    + intros client. split.
      * intros [= <-]. split; [by exists url|done].
      * by intros [_ ->].
Qed.

End MetadataConstructor.

(** ** [EC2MetadataCredentials.load] *)

Section MetadataLoad.
Import IMDSv2 EC2MetadataCredentials.
Context `{Engine} `{Builtins}.
Variable parseDocument : string -> ErrorObject + CredentialDocument.

Lemma roleListOf_404 (err : ErrorObject) :
  errStatus err = Some 404%Z ->
  roleListOf (inl err)
  = inl (plainError
           "This EC2 Instance doesn't have an IAM instance role attached").
Proof. intros Hst. unfold roleListOf. by rewrite Hst. Qed.

Lemma truthyString_nonempty (s : string) : truthyString s = true <-> s <> "".
Proof. destruct s; simpl; split; done. Qed.

Lemma roleList_expected (text : string) :
  unexpectedRoleList (if truthyString text then lines text else []) = false
  <-> text <> "" /\ ~ In newline (list_ascii_of_string text).
Proof.
  split.
  - destruct (truthyString text) eqn:Htruthy; [|done].
    intros Hok. split; [by apply truthyString_nonempty|].
    intros Hnl. apply lines_several in Hnl.
    destruct (lines text) as [|l [|l' ls]]; simpl in *; try done; lia.
  - intros [Hne Hnl]. apply truthyString_nonempty in Hne.
    rewrite Hne, (lines_single text Hnl). simpl. by rewrite Hne.
Qed.

(** X13. [load] goes on to the credential document only when the answer
    to the role list request is one non-empty line.  An empty answer, and
    any answer with a line feed in it (two roles, or one role and a
    final line feed), is rejected as an unexpected role list, and
    nothing more is requested. *)
Theorem ec2_role_list_one_line (net : Network) (service : Client)
    (text : string) (s1 : Client) :
  performRequest net GET roleListPath service = (inr text, s1) ->
  ((text = "" \/ In newline (list_ascii_of_string text)) ->
   load parseDocument net service
   = (Rejected (newError
        ("Unexpected EC2 instance role list: "
         +:+ jsonStrings (if truthyString text then lines text else []))),
      s1))
  /\ ((text <> "" /\ ~ In newline (list_ascii_of_string text)) ->
      load parseDocument net service = loadRole parseDocument net text s1).
Proof.
  intros Hreq. unfold load. rewrite Hreq. simpl. split.
  - intros Hbad.
    destruct (unexpectedRoleList (if truthyString text then lines text else []))
      eqn:Hun; [done|].
    apply roleList_expected in Hun as [Hne Hnl]. tauto.
  - intros Hgood. pose proof (proj2 (roleList_expected text) Hgood) as Hok.
    rewrite Hok. destruct Hgood as [Hne Hnl].
    apply truthyString_nonempty in Hne.
    by rewrite Hne, (lines_single text Hnl).
Qed.

(** X14. A fulfilled [load] went all the way: the role list named one
    role, the document of that role was parsed and says "Success" and
    "AWS-HMAC", and the region lookup answered too.  The credentials are
    those of the document with its token, the parsed expiry and the
    region. *)
Theorem ec2_load_fulfilled (net : Network) (service : Client)
    (creds : Credentials) (s3 : Client) :
  load parseDocument net service = (Fulfilled creds, s3) ->
  exists role documentText document regionText s1 s2,
    performRequest net GET roleListPath service = (inr role, s1)
    /\ role <> "" /\ ~ In newline (list_ascii_of_string role)
    /\ performRequest net GET (roleListPath +:+ role) s1
       = (inr documentText, s2)
    /\ parseDocument documentText = inr document
    /\ Code document = "Success" /\ Type_ document = "AWS-HMAC"
    /\ performRequest net GET regionPath s2 = (inr regionText, s3)
    /\ creds = {| awsAccessKeyId := AccessKeyId document;
                  awsSecretKey := SecretAccessKey document;
                  sessionToken := Some (Token document);
                  expiresAt := Some (parseDate (Expiration document));
                  region := Some regionText |}.
Proof.
  unfold load.
  destruct (performRequest net GET roleListPath service) as [[err|text] s1]
    eqn:Hlist.
  - assert (Hrej : exists err', roleListOf (inl err) = inl err').
    { unfold roleListOf. repeat case_match; eauto. }
    destruct Hrej as [err' ->]. done.
  - simpl.
    destruct (unexpectedRoleList (if truthyString text then lines text else []))
      eqn:Hun; [done|].
    apply roleList_expected in Hun as [Hne Hnl].
    assert (Hhd : List.hd EmptyString
                    (if truthyString text then lines text else []) = text).
    { apply truthyString_nonempty in Hne.
      by rewrite Hne, (lines_single text Hnl). }
    rewrite Hhd. unfold loadRole.
    destruct (performRequest net GET (roleListPath +:+ text) s1)
      as [[err|documentText] s2] eqn:Hdoc; [done|].
    destruct (parseDocument documentText) as [err|document] eqn:Hparse;
      [done|].
    destruct (String.eqb_spec (Code document) "Success") as [Hcode|];
      simpl; [|done].
    destruct (String.eqb_spec (Type_ document) "AWS-HMAC") as [Htype|];
      simpl; [|done].
    destruct (performRequest net GET regionPath s2) as [[err|regionText] s3']
      eqn:Hregion; [done|].
    intros [= <- <-].
    exists text, documentText, document, regionText, s1, s2.
    repeat split; done.
Qed.

(** X15. Two ways of not being an EC2 instance with a role, told apart.
    On a client without token: when the token endpoint answers with a
    4xx status, [load] rejects with the "is this not AWS?" error and the
    role list is never requested; when the token arrives and the role
    list request is answered 404, [load] rejects with "This EC2 Instance
    doesn't have an IAM instance role attached". *)
Theorem ec2_not_aws_or_no_role (net : Network) (service : Client) :
  truthyOpt (cachedToken service) = false ->
  let n := length (requests service) in
  let tokenRequest := (fetchNewToken service).1 in
  let listRequest token :=
    {| method := GET; path := roleListPath;
       requestTimeoutMs := apiTimeoutMs service;
       headers := [("x-aws-ec2-metadata-token"%string, Text token)] |} in
  (forall status text,
     net n tokenRequest = Responded status text ->
     (400 <= status < 500)%Z ->
     load parseDocument net service
     = (Rejected (newError
          ("Metadata server gave HTTP " +:+ pretty status
           +:+ " when asked for an IMDSv2 token; is this not AWS?")),
        withRequest service tokenRequest))
  /\ (forall status token text,
        net n tokenRequest = Responded status (inr token) ->
        (status <= 299)%Z ->
        net (S n) (listRequest token) = Responded 404 text ->
        exists s1,
          load parseDocument net service
          = (Rejected (newError
               "This EC2 Instance doesn't have an IAM instance role attached"),
             s1)
          /\ requests s1
             = requests service ++ [tokenRequest; listRequest token]).
Proof.
  intros Hnone. cbv zeta.
  destruct (performRequest_token_first net GET roleListPath service)
    as [_ Hfetch].
  specialize (Hfetch Hnone).
  assert (Htok : (fetchNewToken service).1
                 = {| method := PUT; path := "api/token";
                      requestTimeoutMs := timeoutMs service;
                      headers := [("x-aws-ec2-metadata-token-ttl-seconds"%string,
                                   Fixed0 (tokenTtlSeconds service))] |}).
  { unfold fetchNewToken. by rewrite Hnone. }
  split.
  - rewrite Htok. intros status text Hnet [Hlo Hhi].
    rewrite Hnet in Hfetch. unfold performRawRequest in Hfetch.
    simpl in Hfetch.
    rewrite (proj2 (Z.leb_le 400 status) Hlo),
      (proj2 (Z.ltb_lt status 500) Hhi) in Hfetch. simpl in Hfetch.
    unfold load. rewrite Hfetch. done.
  - rewrite Htok. intros status token text Hnet Hok Hlist.
    rewrite Hnet in Hfetch. unfold performRawRequest in Hfetch.
    simpl in Hfetch.
    assert (Hhi : (status <? 500)%Z = true) by (apply Z.ltb_lt; lia).
    assert (H299 : (299 <? status)%Z = false) by (apply Z.ltb_ge; lia).
    destruct (400 <=? status)%Z eqn:H400.
    { apply Z.leb_le in H400. lia. }
    simpl in Hfetch. rewrite H299 in Hfetch.
    destruct Hfetch as (s1 & Hreq & _ & Hlog & _).
    rewrite Hlist in Hreq. simpl in Hreq.
    exists s1. split; [|done].
    unfold load. rewrite Hreq. done.
Qed.

End MetadataLoad.

(** ** Reading XML nodes *)

Section XmlReading.
Import Collections Xml.
Context `{Engine} `{Builtins}.

Lemma filter_filter_and {A : Type} (P Q : A -> bool) (l : list A) :
  List.filter P (List.filter Q l) = List.filter (fun x => Q x && P x) l.
Proof.
  induction l as [|x l IH]; simpl; [done|].
  destruct (Q x); simpl; [destruct (P x)|]; by rewrite IH.
Qed.

(** The loop of [strings]: a key is still missing when no child so far
    has its name, and a wanted key holds the content of its last child
    so far. *)
Lemma strings_fold wanted cs obj miss :
  (forall k, k ∈ miss -> k ∈ wanted) ->
  (foldl (stringsStep wanted) (obj, miss) cs).2
  = List.filter (fun k => negb (bool_decide (k ∈ map name cs))) miss
  /\ forall k,
       (foldl (stringsStep wanted) (obj, miss) cs).1 !! k
       = if bool_decide (k ∈ wanted)
         then match last (List.filter (fun x => String.eqb (name x) k) cs) with
              | Some c => Some (default "" (content c))
              | None => obj !! k
              end
         else obj !! k.
Proof.
  revert obj miss. induction cs as [|c cs IH]; intros obj miss Hsub.
  - simpl. split.
    + clear Hsub. induction miss as [|k miss IHm]; simpl; [done|].
      simpl in IHm. by rewrite <- IHm.
    + intros k. by destruct (bool_decide (k ∈ wanted)).
  - cbn [foldl]. unfold stringsStep at 2 4. cbn [fst snd].
    destruct (has wanted (name c)) eqn:Hhas.
    + apply has_true in Hhas.
      destruct (IH (<[name c := default "" (content c)]> obj)
                   (setDelete miss (name c))) as [IHm IHo].
      { intros k Hk. apply Hsub. unfold setDelete in Hk.
        apply list_elem_of_In, filter_In in Hk as [Hk _].
        by apply list_elem_of_In. }
      split.
      * rewrite IHm. unfold setDelete. rewrite filter_filter_and.
        apply filter_ext. intros k. cbn [map].
        destruct (String.eqb_spec k (name c)) as [->|Hne]; simpl.
        -- rewrite bool_decide_eq_true_2; [done|]. by left.
        -- apply f_equal. apply bool_decide_ext. rewrite elem_of_cons.
           split; [by right|]. by intros [?|?].
      * intros k. rewrite IHo. cbn [List.filter].
        destruct (String.eqb_spec (name c) k) as [<-|Hne].
        -- rewrite bool_decide_eq_true_2 by done. rewrite last_cons.
           rewrite lookup_insert_eq. by destruct (last _).
        -- rewrite lookup_insert_ne by done. done.
    + apply has_false in Hhas.
      destruct (IH obj miss Hsub) as [IHm IHo]. split.
      * rewrite IHm. apply filter_ext_in. intros k Hk. cbn [map].
        apply f_equal. apply bool_decide_ext. rewrite elem_of_cons.
        apply list_elem_of_In, Hsub in Hk. split; [by right|].
        intros [->|?]; done.
      * intros k. rewrite IHo. cbn [List.filter].
        destruct (String.eqb_spec (name c) k) as [<-|Hne]; [|done].
        by rewrite bool_decide_eq_false_2.
Qed.

(** X16. [strings] succeeds exactly when every required key names a
    child.  The object then has the wanted keys that name a child and
    no others, each with the content of the last child of that name
    (the empty string when it has none); otherwise the error lists the
    required keys without a child, in the order given and once each. *)
Theorem strings_reads_last_child (self : XmlNode)
    (required optional : list string) :
  let absent :=
    List.filter (fun k => negb (bool_decide (k ∈ map name (children self))))
      (newSet required) in
  match strings self required optional with
  | inr obj =>
      absent = []
      /\ forall k,
           obj !! k
           = if bool_decide (k ∈ required ++ optional)
             then (fun c => default "" (content c))
                    <$> last (childrenNamed self k)
             else None
  | inl err => absent <> [] /\ err = missingKeys self absent
  end.
Proof.
  intros absent. unfold strings.
  destruct (strings_fold (newSet (required ++ optional)) (children self)
              ∅ (newSet required)) as [Hm Ho].
  { intros k. rewrite !elem_of_newSet, elem_of_app. by left. }
  destruct (foldl _ _ (children self)) as [obj miss]. cbn [fst snd] in *.
  fold absent in Hm. subst miss.
  destruct absent as [|k0 rest] eqn:Habs.
  - split; [done|]. intros k. rewrite Ho. unfold childrenNamed.
    rewrite lookup_empty.
    assert (bool_decide (k ∈ newSet (required ++ optional))
            = bool_decide (k ∈ required ++ optional)) as ->.
    { apply bool_decide_ext, elem_of_newSet. }
    destruct (bool_decide _); [|done]. by destruct (last _).
  - done.
Qed.

(** A required [first] with an accessor gives the accessor's value on
    the first child of that name. *)
Lemma firstWith_required {T : Type} (self : XmlNode) key
    (accessor : XmlNode -> Value + option T) r :
  firstWith self key true accessor = inr r ->
  exists node value,
    r = Some value /\ findChild self key = Some node
    /\ accessor node = inr (Some value).
Proof.
  unfold firstWith. destruct (findChild self key) as [node|]; [|done].
  destruct (accessor node) as [err|[value|]] eqn:Hacc; [done| |done].
  intros [= <-]. by exists node, value.
Qed.

Lemma getListFrom_none (names : list string) : getListFrom None names = [].
Proof.
  induction names as [|key [|key' rest] IH]; [done|done|]. exact IH.
Qed.

(** X27. [getList] follows the first child of each name but the last,
    and returns children of the node it reaches: every node it returns
    carries the last of the names.  With a name that has no child on the
    way it returns nothing. *)
Theorem getList_last_name (self : XmlNode) (names : list string)
    (x : XmlNode) :
  x ∈ getList self names ->
  last names = Some (name x)
  /\ forall key rest,
       names = key :: rest -> rest <> [] ->
       exists child, findChild self key = Some child
                     /\ x ∈ getList child rest.
Proof.
  unfold getList. intros Hx. split.
  - revert self Hx. induction names as [|key [|key' rest] IH]; intros self Hx.
    + by apply elem_of_nil in Hx.
    + cbn in Hx. unfold childrenNamed in Hx.
      apply list_elem_of_In, filter_In in Hx as [_ Hname].
      apply String.eqb_eq in Hname. cbn. by rewrite Hname.
    + change (x ∈ getListFrom (findChild self key) (key' :: rest)) in Hx.
      rewrite last_cons_cons. destruct (findChild self key) as [child|].
      * by apply (IH child).
      * rewrite getListFrom_none in Hx. by apply elem_of_nil in Hx.
  - intros key rest -> Hrest. destruct rest as [|key' rest]; [done|].
    change (x ∈ getListFrom (findChild self key) (key' :: rest)) in Hx.
    destruct (findChild self key) as [child|]; [by exists child|].
    rewrite getListFrom_none in Hx. by apply elem_of_nil in Hx.
Qed.

End XmlReading.

(** ** The web identity token file *)

Section XmlStrings.
Import Collections Xml.
Context `{Engine} `{Builtins}.

Lemma filter_none {A : Type} (P : A -> bool) (l : list A) :
  (forall x, x ∈ l -> P x = false) <-> List.filter P l = [].
Proof.
  induction l as [|x l IH]; simpl.
  { split; [done|]. intros _ x Hx. by apply elem_of_nil in Hx. }
  split.
  - intros Hall. rewrite (Hall x) by (by left).
    apply IH. intros y Hy. apply Hall. by right.
  - destruct (P x) eqn:HP; [done|]. intros Hnil y Hy.
    apply elem_of_cons in Hy as [->|Hy]; [done|]. by apply IH.
Qed.

Lemma last_childrenNamed (self : XmlNode) k :
  k ∈ map name (children self) ->
  exists c, last (childrenNamed self k) = Some c.
Proof.
  intros Hk. apply list_elem_of_fmap in Hk as (c & -> & Hc).
  destruct (last (childrenNamed self (name c))) as [c'|] eqn:Hlast;
    [by exists c'|].
  apply last_None in Hlast.
  assert (In c (childrenNamed self (name c))) as Hin.
  { apply filter_In. split; [by apply list_elem_of_In|].
    by apply String.eqb_refl. }
  rewrite Hlast in Hin. done.
Qed.

(** With every required key among the children, [strings] returns. *)
Lemma strings_succeeds (self : XmlNode) (required optional : list string) :
  (forall k, k ∈ required -> k ∈ map name (children self)) ->
  exists obj, strings self required optional = inr obj.
Proof.
  intros Hall. unfold strings.
  destruct (strings_fold (newSet (required ++ optional)) (children self)
              ∅ (newSet required)) as [Hm _].
  { intros k. rewrite !elem_of_newSet, elem_of_app. by left. }
  destruct (foldl _ _ (children self)) as [obj miss]. cbn [snd] in Hm.
  assert (miss = []) as ->; [|by exists obj].
  rewrite Hm. apply filter_none. intros k Hk.
  apply elem_of_newSet, Hall in Hk. by rewrite bool_decide_eq_true_2.
Qed.

(** What [strings] returns holds, for a required key, the content of
    the last child of that name. *)
Lemma strings_lookup (self : XmlNode) (required optional : list string) obj k :
  strings self required optional = inr obj ->
  k ∈ required ->
  exists c, last (childrenNamed self k) = Some c
            /\ obj !! k = Some (default "" (content c)).
Proof.
  unfold strings.
  destruct (strings_fold (newSet (required ++ optional)) (children self)
              ∅ (newSet required)) as [Hm Ho].
  { intros k'. rewrite !elem_of_newSet, elem_of_app. by left. }
  destruct (foldl _ _ (children self)) as [obj' miss]. cbn [fst snd] in *.
  destruct miss as [|k0 miss]; [|done]. intros [= <-] Hk.
  symmetry in Hm. rewrite <- filter_none in Hm.
  specialize (Hm k). rewrite elem_of_newSet in Hm. specialize (Hm Hk).
  apply negb_false_iff, bool_decide_eq_true in Hm.
  destruct (last_childrenNamed self k Hm) as [c Hc]. exists c.
  split; [done|]. rewrite Ho. unfold childrenNamed in Hc. rewrite Hc.
  rewrite bool_decide_eq_true_2; [done|].
  rewrite elem_of_newSet, elem_of_app. by left.
Qed.

End XmlStrings.

Section TokenFile.
Import Xml TokenFileWebIdentityCredentials.
Context `{Engine} `{Builtins}.

Lemma parseXmlTimestamp_returns str date :
  parseXmlTimestamp str = inr date ->
  exists text,
    str = Some text
    /\ date = (if includesChar "T" text then parseDate text
               else dateFromSeconds text)
    /\ (includesChar "T" text = false -> String.length text = 10).
Proof.
  unfold parseXmlTimestamp. destruct str as [text|]; [|done].
  destruct (includesChar "T" text) eqn:HT.
  - intros [= <-]. exists text. by rewrite HT.
  - destruct (Nat.eqb_spec (String.length text) 10); [|done].
    intros [= <-]. exists text. by rewrite HT.
Qed.

(** X17. When [parseAssumedCredentials] returns, the three keys are the
    contents of the last child of each name, but the expiry is read off
    the first child named [Expiration], whose content has a [T] or ten
    characters. *)
Theorem assumed_credentials_fields (node : XmlNode)
    (creds : AssumedCredentials) :
  parseAssumedCredentials node = inr creds ->
  let lastOf key :=
    (fun c => default "" (content c)) <$> last (childrenNamed node key) in
  lastOf "AccessKeyId" = Some (AccessKeyId creds)
  /\ lastOf "SecretAccessKey" = Some (SecretAccessKey creds)
  /\ lastOf "SessionToken" = Some (SessionToken creds)
  /\ exists first text,
       findChild node "Expiration" = Some first
       /\ content first = Some text
       /\ Expiration creds
          = (if includesChar "T" text then parseDate text
             else dateFromSeconds text)
       /\ (includesChar "T" text = false -> String.length text = 10).
Proof.
  unfold parseAssumedCredentials.
  destruct (strings node assumedKeys []) as [err|obj] eqn:Hstr; [done|].
  destruct (firstWith node "Expiration" true _) as [err|expiration] eqn:Hfirst;
    [done|].
  intros [= <-]. cbn [AccessKeyId SecretAccessKey SessionToken Expiration].
  apply firstWith_required in Hfirst as (first & date & -> & Hfind & Hacc).
  destruct (parseXmlTimestamp (content first)) as [err|date'] eqn:Hts; [done|].
  injection Hacc as ->.
  apply parseXmlTimestamp_returns in Hts as (text & Hcontent & -> & Hlen).
  destruct (strings_lookup node assumedKeys [] obj "AccessKeyId" Hstr)
    as (c1 & -> & ->); [set_solver|].
  destruct (strings_lookup node assumedKeys [] obj "SecretAccessKey" Hstr)
    as (c2 & -> & ->); [set_solver|].
  destruct (strings_lookup node assumedKeys [] obj "SessionToken" Hstr)
    as (c3 & -> & ->); [set_solver|].
  repeat split; try done. by exists first, text.
Qed.

(** [parseXml], the parser of [encoding/xml.ts]. *)
Variable parseXml : string -> Document.

(** [load] without the log of its requests. *)
Lemma token_file_load_eq (self : Config)
    (buildServiceClient : Value + StsClient)
    (readTextFile : string -> Value + string) :
  load parseXml self buildServiceClient readTextFile
  = if negb (truthyOpt (tokenPath self))
    then Rejected (newError "No WebIdentityToken file path is set")
    else if negb (truthyOpt (roleArn self))
    then Rejected (newError "No Role ARN is set")
    else
      match buildServiceClient with
      | inl err => Rejected err
      | inr client =>
          match readTextFile (default "" (tokenPath self)) with
          | inl err => Rejected err
          | inr token =>
              match assumeRoleWithWebIdentity parseXml
                      (client (default "" (roleArn self)) (sessionName self)
                         token) with
              | inl err => Rejected err
              | inr resp =>
                  Fulfilled {|
                    awsAccessKeyId := AccessKeyId resp;
                    awsSecretKey := SecretAccessKey resp;
                    sessionToken := Some (SessionToken resp);
                    expiresAt := Some (Expiration resp);
                    region := None |}
              end
          end
      end.
Proof.
  unfold load, loadLogged.
  destruct (truthyOpt (tokenPath self)); [|done].
  destruct (truthyOpt (roleArn self)); [|done]. cbn [negb].
  destruct buildServiceClient as [err|client]; [done|].
  by destruct (readTextFile _).
Qed.

(** X18. When [load] fulfils, the client was built, the token file was
    read at [#tokenPath] and its text sent with [#roleArn] and
    [#sessionName]; the expiry of the credential is the content of the
    first [Expiration] child of the first [Credentials] child of the
    result wrapper, parsed as a date when it has a [T] and as seconds
    otherwise, whether or not that gives a valid date. *)
Theorem token_file_expiry_source (self : Config)
    (buildServiceClient : Value + StsClient)
    (readTextFile : string -> Value + string) (x : Credentials) :
  load parseXml self buildServiceClient readTextFile = Fulfilled x ->
  exists client token text xml creds expiration str,
    buildServiceClient = inr client
    /\ readTextFile (default "" (tokenPath self)) = inr token
    /\ client (default "" (roleArn self)) (sessionName self) token = inr text
    /\ readXmlResult (parseXml text) (Some "AssumeRoleWithWebIdentityResult")
       = inr xml
    /\ findChild xml "Credentials" = Some creds
    /\ findChild creds "Expiration" = Some expiration
    /\ content expiration = Some str
    /\ expiresAt x
       = Some (if includesChar "T" str then parseDate str
               else dateFromSeconds str)
    /\ region x = None.
Proof.
  rewrite token_file_load_eq.
  destruct (truthyOpt (tokenPath self)); [|done].
  destruct (truthyOpt (roleArn self)); [|done]. cbn [negb].
  destruct buildServiceClient as [err|client]; [done|].
  destruct (readTextFile _) as [err|token] eqn:Hread; [done|].
  destruct (assumeRoleWithWebIdentity _ _) as [err|resp] eqn:Hassume; [done|].
  intros [= <-]. cbn [expiresAt region].
  unfold assumeRoleWithWebIdentity in Hassume.
  destruct (client _ _ _) as [err|text] eqn:Hclient; [done|].
  destruct (readXmlResult _ _) as [err|xml] eqn:Hxml; [done|].
  destruct (firstWith xml "Credentials" true _) as [err|r] eqn:Hfirst; [done|].
  apply firstWith_required in Hfirst as (creds & resp' & -> & Hfind & Hacc).
  injection Hassume as ->.
  destruct (parseAssumedCredentials creds) as [err|resp'] eqn:Hparse; [done|].
  injection Hacc as ->.
  unfold parseAssumedCredentials in Hparse.
  destruct (strings creds assumedKeys []) as [err|obj]; [done|].
  destruct (firstWith creds "Expiration" true _) as [err|r] eqn:Hfirst; [done|].
  apply firstWith_required in Hfirst as (expiration & date & -> & Hfind' & Hacc).
  injection Hparse as <-. cbn [Expiration default].
  destruct (parseXmlTimestamp (content expiration)) as [err|date'] eqn:Hts;
    [done|].
  injection Hacc as ->.
  apply parseXmlTimestamp_returns in Hts as (str & Hcontent & -> & _).
  by exists client, token, text, xml, creds, expiration, str.
Qed.

(** X19. A response whose [Expiration] has a [T] but is no date is
    accepted: [load] fulfils with the invalid date as expiry.  When the
    pending promise of the cache settles with that credential, no
    watermark is recorded, and every later call, at whatever time, gets
    the settled promise and starts no [load]. *)
Theorem token_file_unparsable_expiry_kept (self : Config)
    (client : StsClient) (readTextFile : string -> Value + string)
    (token text str : string) (xml creds expiration : XmlNode)
    (es : list EcsTaskCredentials.Event) (p : nat) (t0 : Z) :
  truthyOpt (tokenPath self) = true ->
  truthyOpt (roleArn self) = true ->
  readTextFile (default "" (tokenPath self)) = inr token ->
  client (default "" (roleArn self)) (sessionName self) token = inr text ->
  readXmlResult (parseXml text) (Some "AssumeRoleWithWebIdentityResult")
  = inr xml ->
  findChild xml "Credentials" = Some creds ->
  (forall key, key ∈ assumedKeys -> key ∈ map name (children creds)) ->
  findChild creds "Expiration" = Some expiration ->
  content expiration = Some str ->
  includesChar "T" str = true ->
  parseDate str = InvalidDate ->
  let s := EcsTaskCredentials.run EcsTaskCredentials.fresh es in
  EcsTaskCredentials.promises s !! p = Some Pending ->
  exists x,
    load parseXml self (inr client) readTextFile = Fulfilled x
    /\ expiresAt x = Some InvalidDate
    /\ let s1 := settle t0 p (Fulfilled x) s in
       EcsTaskCredentials.expireAfter s1 = None
       /\ forall times,
            EcsTaskCredentials.run s1 (map EcsTaskCredentials.Call times) = s1
            /\ EcsTaskCredentials.handedOut s1 times
               = replicate (length times) p
            /\ EcsTaskCredentials.loadsStarted s1
                 (map EcsTaskCredentials.Call times) = 0.
Proof.
  intros Hpath Harn Hread Hclient Hxml Hcreds Hkeys Hexp Hcontent HT Hdate
    s Hp.
  destruct (strings_succeeds creds assumedKeys [] Hkeys) as [obj Hobj].
  eexists. split; [|split].
  - rewrite token_file_load_eq. rewrite Hpath, Harn. cbn [negb]. rewrite Hread.
    unfold assumeRoleWithWebIdentity. rewrite Hclient, Hxml.
    unfold firstWith at 1. rewrite Hcreds.
    unfold parseAssumedCredentials. rewrite Hobj.
    unfold firstWith. rewrite Hexp. unfold parseXmlTimestamp.
    rewrite Hcontent, HT, Hdate. reflexivity.
  - reflexivity.
  - intros s1.
    pose proof (wellFormed_reachable es) as Hwf. fold s in Hwf.
    destruct (EcsTaskCredentials.wf_pending _ Hwf _ Hp) as [Hprom Hnone].
    assert (Hexpire : EcsTaskCredentials.expireAfter s1 = None).
    { unfold s1, settle. rewrite (settle_pending _ _ _ _ Hp). done. }
    split; [done|]. intros times. apply calls_unchanged. intros now.
    apply getCredentials_unlimited; [|done].
    unfold s1, settle. by rewrite (settle_pending _ _ _ _ Hp).
Qed.

(** X20. Without a token path in the options and in the environment,
    the constructor returns and [load] rejects at its first check,
    whatever the role, the file system and the token service are. *)
Theorem token_file_unconfigured (env : Env) (opts : Options) :
  envDenial env = None ->
  truthyOpt (optTokenPath opts) = false ->
  truthyOpt (envVars env !! "AWS_WEB_IDENTITY_TOKEN_FILE") = false ->
  exists self,
    new env opts = inr self
    /\ forall buildServiceClient readTextFile,
         load parseXml self buildServiceClient readTextFile
         = Rejected (newError "No WebIdentityToken file path is set").
Proof.
  intros Henv Hopt Hvar. unfold new, orEnv, envGet. rewrite Henv, Hopt.
  destruct (truthyOpt (optRoleArn opts)), (truthyOpt (optSessionName opts));
    eexists; (split; [reflexivity|]); intros b r; rewrite token_file_load_eq;
    cbn [tokenPath]; by rewrite Hvar.
Qed.

End TokenFile.

(** ** The container endpoint and the shared file: constructors and [load] *)

Section ContainerLoad.
Import EcsTaskCredentials.
Context `{Engine} `{Builtins}.
Local Open Scope Z_scope.

(** [load] without the log of its requests. *)
Lemma ecs_load_eq (self : Config)
    (fetch : string -> list (string * string) -> Value + Response) :
  load self fetch
  = if negb (truthyOpt (credUrl self))
    then Rejected (newError "AWS_CONTAINER_CREDENTIALS_RELATIVE_URI not set")
    else (loadLogged self fetch).1.
Proof. unfold load, loadLogged. by destruct (truthyOpt (credUrl self)). Qed.

Lemma ecs_load_inversion (self : Config) fetch x :
  load self fetch = Fulfilled x ->
  exists url resp data T,
    credUrl self = Some url
    /\ fetch url (requestHeaders self) = inr resp
    /\ status resp < 300
    /\ json resp = inr data
    /\ parseDate (Expiration data) = DateMs T
    /\ x = {| awsAccessKeyId := AccessKeyId data;
              awsSecretKey := SecretAccessKey data;
              sessionToken := Some (Token data);
              expiresAt := Some (DateMs T);
              region := None |}.
Proof.
  unfold load, loadLogged. destruct (credUrl self) as [url|]; [|done].
  destruct (truthyOpt (Some url)); [|done]. cbn [negb default from_option id].
  destruct (fetch url (requestHeaders self)) as [err|resp] eqn:Hfetch; [done|].
  destruct (Z.leb_spec 300 (status resp)); [done|].
  destruct (json resp) as [err|data] eqn:Hjson; [done|].
  destruct (parseDate (Expiration data)) as [T|] eqn:Hdate; [|done].
  intros [= <-]. by exists url, resp, data, T.
Qed.

(** X21. A credential that [load] fulfils with always has a session
    token and a valid expiry [T], that of the [Expiration] text of the
    answer.  So when the pending promise of the cache settles with it at
    [t0], the watermark [T - 60 s] is recorded if [T] is still in the
    future, and none otherwise. *)
Theorem ecs_load_then_watermark (self : Config)
    (fetch : string -> list (string * string) -> Value + Response)
    (x : Credentials) (es : list Event) (p : nat) (t0 : Z) :
  let s := run fresh es in
  promises s !! p = Some Pending ->
  load self fetch = Fulfilled x ->
  exists url resp data T,
    credUrl self = Some url
    /\ fetch url (requestHeaders self) = inr resp
    /\ json resp = inr data
    /\ parseDate (Expiration data) = DateMs T
    /\ expiresAt x = Some (DateMs T)
    /\ sessionToken x = Some (Token data)
    /\ expireAfter (settle t0 p (load self fetch) s)
       = (if t0 <? T then Some (DateMs (T - 60 * 1000)) else None).
Proof.
  intros s Hp Hload.
  destruct (ecs_load_inversion _ _ _ Hload)
    as (url & resp & data & T & Hurl & Hfetch & _ & Hjson & Hdate & ->).
  exists url, resp, data, T. repeat (split; [done|]).
  pose proof (wellFormed_reachable es) as Hwf. fold s in Hwf.
  destruct (wf_pending _ Hwf _ Hp) as [_ Hnone].
  rewrite Hload, (settle_pending _ _ _ _ Hp). cbn. by rewrite Hnone.
Qed.

(** X22. With neither a relative nor a full URI in the options and in
    the environment, the constructor resolves no URL: it throws only
    what storing the authorization header throws, and the instance it
    returns rejects in [load] before any request, with the message that
    names the relative URI. *)
Theorem ecs_unconfigured (env : Env) (opts : Options) :
  envDenial env = None ->
  truthyOpt (optRelativeUri opts) = false ->
  truthyOpt (envVars env !! "AWS_CONTAINER_CREDENTIALS_RELATIVE_URI") = false ->
  truthyOpt (optFullUri opts) = false ->
  truthyOpt (envVars env !! "AWS_CONTAINER_CREDENTIALS_FULL_URI") = false ->
  match new env opts with
  | inr self =>
      forall fetch,
        load self fetch
        = Rejected (newError "AWS_CONTAINER_CREDENTIALS_RELATIVE_URI not set")
  | inl err =>
      exists authHeader,
        orEnv (optAuthHeader opts) env "AWS_CONTAINER_AUTHORIZATION_TOKEN"
        = inr (Some authHeader)
        /\ authHeader <> "" /\ headerValue authHeader = inl err
  end.
Proof.
  intros Henv Hrel Hrel' Hfull Hfull'. unfold new.
  unfold orEnv at 1 2 3, envGet. rewrite Henv, Hrel, Hfull, Hrel'.
  assert (exists endpoint,
            (if truthyOpt (optServiceEndpoint opts)
             then inr (optServiceEndpoint opts)
             else inr (envVars env !! "AWS_CONTAINER_SERVICE_ENDPOINT"))
            = (inr endpoint : Value + option string)) as [endpoint ->].
  { destruct (truthyOpt (optServiceEndpoint opts)); by eexists. }
  destruct (orEnv (optAuthHeader opts) env _) as [err|authHeader] eqn:Hauth.
  { unfold orEnv, envGet in Hauth. rewrite Henv in Hauth.
    by destruct (truthyOpt (optAuthHeader opts)). }
  destruct (truthyOpt authHeader) eqn:Htruthy.
  - destruct authHeader as [[|c value]|]; try done. cbn [default from_option id].
    destruct (headerValue (String c value)) as [err|stored] eqn:Hstored.
    + by exists (String c value).
    + intros fetch. rewrite ecs_load_eq. cbn [credUrl]. by rewrite Hfull'.
  - intros fetch. rewrite ecs_load_eq. cbn [credUrl]. by rewrite Hfull'.
Qed.

End ContainerLoad.

Section SharedFileConstructor.
Import SharedIniFileCredentials.
Context `{Engine}.
Variable decode : string -> gmap string IniSection.

Lemma truthyOpt_default (o : option string) (d : string) :
  truthyOpt o = true -> default d o <> "".
Proof. by destruct o as [[|c s]|]. Qed.

Lemma app_nonempty (a b : string) : b <> "" -> a +:+ b <> "".
Proof. destruct a; [done|]. intros _. done. Qed.

(** X23. An instance that the constructor returns has a file name and a
    profile that are not empty and no promise yet.  It keeps the inline
    data only when they are not empty: then [load] decodes them and
    never looks at the file; otherwise, also with [filedata: ''], [load]
    reads the file. *)
Theorem shared_file_constructor (env : Env) (opts : Options)
    (self : Instance) :
  new env opts = inr self ->
  filename self <> "" /\ profile self <> "" /\ promise self = None
  /\ forall readTextFile,
       load decode self readTextFile
       = match (if truthyOpt (optFiledata opts)
                then inr (default "" (optFiledata opts))
                else readTextFile) with
         | inl err => Rejected err
         | inr text => loadFrom (profile self) (decode text)
         end.
Proof.
  unfold new.
  destruct (orEnv _ env "AWS_SHARED_CREDENTIALS_FILE") as [err|fname]; [done|].
  destruct (truthyOpt fname) eqn:Hfname.
  - destruct (orEnv (optProfile opts) env "AWS_PROFILE") as [err|prof]; [done|].
    intros [= <-]. cbn [filename profile promise fresh].
    split; [by apply truthyOpt_default|]. split.
    { destruct (truthyOpt prof) eqn:Hprof; [by apply truthyOpt_default|done]. }
    split; [done|]. intros readTextFile. unfold load. cbn [filedata profile fresh].
    destruct (optFiledata opts) as [[|c d]|]; done.
  - destruct (envGet env "HOME") as [err|HOME]; [done|].
    destruct (orEnv (optProfile opts) env "AWS_PROFILE") as [err|prof]; [done|].
    intros [= <-]. cbn [filename profile promise fresh].
    split; [by apply app_nonempty|]. split.
    { destruct (truthyOpt prof) eqn:Hprof; [by apply truthyOpt_default|done]. }
    split; [done|]. intros readTextFile. unfold load. cbn [filedata profile fresh].
    destruct (optFiledata opts) as [[|c d]|]; done.
Qed.

End SharedFileConstructor.

(** ** XML entities *)

Section Entities.
Import XmlEntities.
Local Open Scope N_scope.

Lemma alnumSpan_run (run : list N) (u : N) (rest : list N) :
  forallb isAlnum run = true -> isAlnum u = false ->
  alnumSpan (run ++ u :: rest) = (run, u :: rest).
Proof.
  intros Hrun Hu. induction run as [|v run IH]; cbn [app alnumSpan].
  - by rewrite Hu.
  - cbn [forallb] in Hrun. apply andb_prop in Hrun as [-> Hrun].
    by rewrite (IH Hrun).
Qed.

(** A named entity: [&], letters and digits, [;]. *)
Lemma matchAfterAmp_named (v : N) (run rest : list N) :
  forallb isAlnum (v :: run) = true ->
  matchAfterAmp (v :: run ++ unit ";" :: rest)
  = Some (v :: run ++ [unit ";"]).
Proof.
  intros Hrun. unfold matchAfterAmp.
  assert ((v =? unit "#") = false) as ->.
  { cbn [forallb] in Hrun. apply andb_prop in Hrun as [Hv _].
    destruct (N.eqb_spec v (unit "#")) as [->|]; [done|done]. }
  change (v :: run ++ unit ";" :: rest) with ((v :: run) ++ unit ";" :: rest).
  rewrite (alnumSpan_run (v :: run)) by done. done.
Qed.

Lemma decodeFrom_skip (m rest : list N) :
  decodeFrom (length m) (m ++ rest) = decodeFrom 0 rest.
Proof. induction m as [|u m IH]; [done|]. exact IH. Qed.

Lemma decodeFrom_amp (rest : list N) :
  decodeFrom 0 (unit "&" :: rest)
  = match matchAfterAmp rest with
    | Some m => replacement (unit "&" :: m) ++ decodeFrom (length m) rest
    | None => unit "&" :: decodeFrom 0 rest
    end.
Proof. reflexivity. Qed.

Lemma decodeFrom_named (v : N) (run rest r : list N) :
  forallb isAlnum (v :: run) = true ->
  replacement (unit "&" :: v :: run ++ [unit ";"]) = r ->
  decodeFrom 0 (unit "&" :: v :: run ++ unit ";" :: rest)
  = r ++ decodeFrom 0 rest.
Proof.
  intros Hrun Hr. rewrite decodeFrom_amp.
  rewrite (matchAfterAmp_named v run rest Hrun). rewrite Hr. f_equal.
  replace (v :: run ++ unit ";" :: rest)
    with ((v :: run ++ [unit ";"]) ++ rest)
    by (cbn [app]; by rewrite <- app_assoc).
  apply decodeFrom_skip.
Qed.

Lemma special_cases (s : N) :
  special s = true ->
  s = unit "<" \/ s = unit ">" \/ s = quote \/ s = unit "'" \/ s = unit "&".
Proof.
  unfold special. cbn [existsb]. rewrite !orb_true_iff, !N.eqb_eq.
  intuition done.
Qed.

(** X24. Decoding what [encodeXmlEntities] wrote gives the string back,
    for every string of code units. *)
Theorem decode_encode_entities (str : list N) :
  decodeXmlEntities (encodeXmlEntities str) = str.
Proof.
  unfold decodeXmlEntities. induction str as [|s str IH]; [done|].
  unfold encodeXmlEntities. cbn [flat_map]. fold (encodeXmlEntities str).
  destruct (special s) eqn:Hs.
  - apply special_cases in Hs as [-> | [-> | [-> | [-> | ->]]]].
    + change (decodeFrom 0 (_ ++ ?e))
        with (decodeFrom 0 (unit "&" :: unit "l" :: [unit "t"]
                              ++ unit ";" :: e)).
      rewrite (decodeFrom_named (unit "l") [unit "t"] _ [unit "<"]);
        [by rewrite IH|done|done].
    + change (decodeFrom 0 (_ ++ ?e))
        with (decodeFrom 0 (unit "&" :: unit "g" :: [unit "t"]
                              ++ unit ";" :: e)).
      rewrite (decodeFrom_named (unit "g") [unit "t"] _ [unit ">"]);
        [by rewrite IH|done|done].
    + change (decodeFrom 0 (_ ++ ?e))
        with (decodeFrom 0 (unit "&" :: unit "q" :: text "uot"
                              ++ unit ";" :: e)).
      rewrite (decodeFrom_named (unit "q") (text "uot") _ [quote]);
        [by rewrite IH|done|done].
    + change (decodeFrom 0 (_ ++ ?e))
        with (decodeFrom 0 (unit "&" :: unit "a" :: text "pos"
                              ++ unit ";" :: e)).
      rewrite (decodeFrom_named (unit "a") (text "pos") _ [unit "'"]);
        [by rewrite IH|done|done].
    + change (decodeFrom 0 (_ ++ ?e))
        with (decodeFrom 0 (unit "&" :: unit "a" :: text "mp"
                              ++ unit ";" :: e)).
      rewrite (decodeFrom_named (unit "a") (text "mp") _ [unit "&"]);
        [by rewrite IH|done|done].
  - cbn [app decodeFrom].
    assert ((s =? unit "&") = false) as ->.
    { destruct (N.eqb_spec s (unit "&")) as [->|]; [done|done]. }
    by rewrite IH.
Qed.

(** X25. What [encodeXmlEntities] writes has none of [<], [>], the
    double and the single quote. *)
Theorem encode_entities_escapes (str : list N) (u : N) :
  u ∈ encodeXmlEntities str ->
  u <> unit "<" /\ u <> unit ">" /\ u <> quote /\ u <> unit "'".
Proof.
  unfold encodeXmlEntities. rewrite list_elem_of_In, in_flat_map.
  intros (s & _ & Hu). destruct (special s) eqn:Hs.
  - apply special_cases in Hs as [-> | [-> | [-> | [-> | ->]]]];
      cbn in Hu;
      repeat (destruct Hu as [<-|Hu]; [by repeat split|]); done.
  - destruct Hu as [<-|[]]. unfold special in Hs. cbn [existsb] in Hs.
    rewrite !orb_false_iff, !N.eqb_neq in Hs. tauto.
Qed.

Lemma matchAfterAmp_length (rest m : list N) :
  matchAfterAmp rest = Some m -> (length m <= length rest)%nat.
Proof.
  assert (Hspan : forall s, (length (alnumSpan s).1
                             + length (alnumSpan s).2 = length s)%nat).
  { induction s as [|u s IHs]; [done|]. cbn [alnumSpan].
    destruct (isAlnum u); [|done]. destruct (alnumSpan s) as [run tail].
    cbn [fst snd length] in *. lia. }
  unfold matchAfterAmp.
  destruct rest as [|u r].
  - by cbn.
  - destruct (u =? unit "#").
    + specialize (Hspan r). destruct (alnumSpan r) as [run tail].
      cbn [fst snd] in Hspan. destruct run as [|v run]; [done|].
      intros [= <-]. cbn [length app]. rewrite length_app.
      destruct tail as [|w tail]; cbn [length] in *; [lia|].
      destruct (_ =? _); cbn [length]; lia.
    + specialize (Hspan (u :: r)). destruct (alnumSpan (u :: r)) as [run tail].
      cbn [fst snd] in Hspan. destruct run as [|v run]; [done|].
      intros [= <-]. cbn [length app]. rewrite length_app.
      destruct tail as [|w tail]; cbn [length] in *; [lia|].
      destruct (_ =? _); cbn [length]; lia.
Qed.

Lemma replacement_length (s : list N) :
  s <> [] -> (length (replacement s) <= length s)%nat.
Proof.
  intros Hs. unfold replacement.
  destruct (bool_decide (s !! 1%nat = Some (unit "#"))).
  - destruct (if _ : bool then parseInt16 _ else parseInt _) as [code|];
      cbn [length].
    + destruct (65535 <? code); destruct s; cbn [length]; try done; lia.
    + lia.
  - unfold property, ALPHA_INDEX. cbn [List.find fst].
    repeat (case_bool_decide; [subst; cbn; lia|]). done.
Qed.

(** X26. Decoding never makes a string longer. *)
Theorem decode_entities_no_longer (str : list N) :
  (length (decodeXmlEntities str) <= length str)%nat.
Proof.
  unfold decodeXmlEntities.
  assert (forall skip, (length (decodeFrom skip str)
                        <= length str - skip)%nat) as Hgen;
    [|specialize (Hgen 0%nat); lia].
  induction str as [|u rest IH]; intros skip; cbn [decodeFrom length].
  - lia.
  - destruct skip as [|skip'].
    + destruct (u =? unit "&").
      * destruct (matchAfterAmp rest) as [m|] eqn:Hm.
        -- apply matchAfterAmp_length in Hm. rewrite length_app.
           pose proof (replacement_length (u :: m)) as Hr.
           specialize (IH (length m)). cbn [length] in Hr.
           assert (u :: m <> []) as Hne by done. specialize (Hr Hne). lia.
        -- specialize (IH 0%nat). cbn [length]. lia.
      * specialize (IH 0%nat). cbn [length]. lia.
    + apply IH.
Qed.

End Entities.

(** ** Worked examples *)

(** Three numbers under draws that are always 0. *)
Lemma shuffle_permutation_witness :
  (SecretSanta.shuffle Scenarios.alwaysFirst 0 [1; 2; 3]).1 ≡ₚ [1; 2; 3]
  /\ (SecretSanta.shuffle Scenarios.alwaysFirst 0 [1; 2; 3]).2 = 2.
Proof.
  destruct (shuffle_permutation Scenarios.alwaysFirst 0 [1; 2; 3])
    as (Hperm & _ & Hdraws).
  - intros k i. unfold Scenarios.alwaysFirst. lia.
  - split; [exact Hperm|exact Hdraws].
Defined.

(** The README's five people under draws that are always 0. *)
Lemma candidate_pairs_everyone_once_witness :
  let candidate :=
    (SecretSanta.makeAssignments Scenarios.alwaysFirst 0
       (SecretSanta.new Scenarios.readme)).1 in
  candidate.*1 = ["Alice"; "Bob"; "Cathrine"; "Mike"; "Hannah"]
  /\ NoDup candidate.*2.
Proof.
  destruct (candidate_pairs_everyone_once Scenarios.readme
              Scenarios.alwaysFirst 0) as (Hgivers & _ & _ & Hreceivers & _).
  - intros k i. unfold Scenarios.alwaysFirst. lia.
  - split; [exact Hgivers|exact Hreceivers].
Defined.

(** The first round leaves everyone with themselves, the second round
    is okay and is what [run] returns. *)
Lemma run_returns_first_okay_candidate_witness :
  exists r,
    SecretSanta.run 3 Scenarios.lateFirst 0 (SecretSanta.new Scenarios.readme)
    = SecretSanta.Returned r
    /\ map SecretSanta.giverName r
       = (SecretSanta.candidate 1 Scenarios.lateFirst 0
            (SecretSanta.new Scenarios.readme)).*1.
Proof.
  destruct (run_returns_first_okay_candidate Scenarios.readme
              Scenarios.lateFirst 0 3) as (_ & _ & Hfirst).
  - intros k i. unfold Scenarios.lateFirst.
    destruct (k <? 4)%nat; lia.
  - destruct (Hfirst 1) as (r & Hrun & Hgivers & _).
    + lia.
    + vm_compute. reflexivity.
    + intros m Hm. assert (m = 0) as -> by lia. vm_compute. reflexivity.
    + exists r. split; [exact Hrun|exact Hgivers].
Defined.

(** The README's data under draws that are always 0: the first round is
    a rotation, which is okay. *)
Lemma validated_run_respects_pools_witness :
  let r :=
    match SecretSanta.run 1 Scenarios.alwaysFirst 0
            (SecretSanta.new Scenarios.readme) with
    | SecretSanta.Returned r => r
    | _ => []
    end in
  map SecretSanta.giverName r
  = ["Alice"; "Bob"; "Cathrine"; "Mike"; "Hannah"]
  /\ Forall (fun a => SecretSanta.giverName a <> SecretSanta.receiverName a) r.
Proof.
  intros r.
  destruct (validated_run_respects_pools Scenarios.readme
              Scenarios.alwaysFirst 0 1 r) as (Hpools & Hgivers & _ & _).
  - intros k i. unfold Scenarios.alwaysFirst. lia.
  - vm_compute. reflexivity.
  - vm_compute. reflexivity.
  - split; [exact Hgivers|].
    eapply Forall_impl; [exact Hpools|]. by intros a [Hself _].
Defined.

(** Two of three people in one pool: ten rounds, and still looping. *)
Lemma oversized_pool_never_returns_witness :
  SecretSanta.run 10 Scenarios.alwaysFirst 0
    (SecretSanta.new Scenarios.crowded)
  = SecretSanta.Looping.
Proof.
  apply (oversized_pool_never_returns Scenarios.crowded
           Scenarios.alwaysFirst 0 10 ["Ana"; "Rui"]).
  - intros k i. unfold Scenarios.alwaysFirst. lia.
  - vm_compute. reflexivity.
  - simpl. left.
  - simpl. lia.
Defined.

(** A token arrives and its timer fires: the cache is empty again. *)
Lemma cached_token_has_timer_witness :
  IMDSv2.cachedToken
    (IMDSv2.cacheRun Samples.defaultClient
       [IMDSv2.TokenArrives 21600 "token-1"; IMDSv2.TimerFires 0])
  = None.
Proof.
  destruct (cached_token_has_timer Samples.defaultClient
              [IMDSv2.TokenArrives 21600 "token-1"; IMDSv2.TimerFires 0])
    as (_ & Hempty).
  - reflexivity.
  - apply Hempty. reflexivity.
Defined.

(** Three calls on a new client before any answer: three requests. *)
Lemma getToken_not_single_flight_witness :
  length (IMDSv2.requests (IMDSv2.getTokenTimes 3 Samples.defaultClient)) = 3.
Proof.
  destruct (getToken_not_single_flight 3 Samples.defaultClient)
    as (Hrequests & _).
  - reflexivity.
  - rewrite Hrequests. reflexivity.
Defined.

(** The role list of the sample instance is the one line [app-role]. *)
Lemma ec2_role_list_one_line_witness :
  let s1 :=
    (IMDSv2.performRequest (H := v8) (H0 := Scenarios.builtins)
       Scenarios.instance IMDSv2.GET EC2MetadataCredentials.roleListPath
       Samples.defaultClient).2 in
  EC2MetadataCredentials.load (H := v8) (H0 := Scenarios.builtins)
    Scenarios.parseDocument Scenarios.instance Samples.defaultClient
  = EC2MetadataCredentials.loadRole (H := v8) (H0 := Scenarios.builtins)
      Scenarios.parseDocument Scenarios.instance "app-role" s1.
Proof.
  intros s1.
  destruct (ec2_role_list_one_line (H := v8) (H0 := Scenarios.builtins)
              Scenarios.parseDocument Scenarios.instance
              Samples.defaultClient "app-role" s1) as (_ & Hone).
  - vm_compute. reflexivity.
  - apply Hone. split; [done|]. vm_compute. intuition discriminate.
Defined.

(** On the sample instance [load] fulfils, and the role it asked for is
    [app-role]. *)
Lemma ec2_load_fulfilled_witness :
  exists s1,
    IMDSv2.performRequest (H := v8) (H0 := Scenarios.builtins)
      Scenarios.instance IMDSv2.GET EC2MetadataCredentials.roleListPath
      Samples.defaultClient
    = (inr "app-role", s1).
Proof.
  destruct (ec2_load_fulfilled (H := v8) (H0 := Scenarios.builtins)
              Scenarios.parseDocument Scenarios.instance
              Samples.defaultClient
              {| awsAccessKeyId := "ASIAEXAMPLE"; awsSecretKey := "secret";
                 sessionToken := Some "session";
                 expiresAt := Some (DateMs 1893456000000);
                 region := Some "eu-west-1" |}
              (EC2MetadataCredentials.load (H := v8)
                 (H0 := Scenarios.builtins) Scenarios.parseDocument
                 Scenarios.instance Samples.defaultClient).2)
    as (role & documentText & document & regionText & s1 & s2 & Hlist
        & _ & _ & Hdocument & Hparse & _).
  - vm_compute. reflexivity.
  - exists s1. unfold Scenarios.instance in Hdocument.
    destruct (String.eqb_spec role "app-role") as [->|Hne]; [exact Hlist|].
    exfalso. revert Hlist. vm_compute. intros [= <- _]. done.
Defined.

(** A machine that answers the token request with 403. *)
Lemma ec2_not_aws_or_no_role_witness :
  (EC2MetadataCredentials.load (H := v8) (H0 := Scenarios.builtins)
     Scenarios.parseDocument Scenarios.notAws Samples.defaultClient).1
  = Rejected (newError (H := v8)
      "Metadata server gave HTTP 403 when asked for an IMDSv2 token; is this not AWS?").
Proof.
  destruct (ec2_not_aws_or_no_role (H := v8) (H0 := Scenarios.builtins)
              Scenarios.parseDocument Scenarios.notAws Samples.defaultClient)
    as (Hnot & _).
  - reflexivity.
  - rewrite (Hnot 403%Z (inr "Forbidden")); [reflexivity|reflexivity|lia].
Defined.

(** The parsed answer of the token service with a valid expiry. *)
Lemma assumed_credentials_fields_witness :
  exists first,
    Xml.findChild (Scenarios.assumedNode "2030-01-01T00:00:00Z") "Expiration"
    = Some first
    /\ Xml.content first = Some "2030-01-01T00:00:00Z".
Proof.
  destruct (assumed_credentials_fields (H := v8) (H0 := Scenarios.builtins)
              (Scenarios.assumedNode "2030-01-01T00:00:00Z")
              {| TokenFileWebIdentityCredentials.AccessKeyId := "ASIAEXAMPLE";
                 TokenFileWebIdentityCredentials.SecretAccessKey := "secret";
                 TokenFileWebIdentityCredentials.SessionToken := "session";
                 TokenFileWebIdentityCredentials.Expiration :=
                   DateMs 1893456000000 |})
    as (_ & _ & _ & first & text & Hfind & Hcontent & _).
  - vm_compute. reflexivity.
  - exists first. split; [exact Hfind|].
    rewrite Hcontent. revert Hfind Hcontent. vm_compute.
    intros [= <-] [= <-]. reflexivity.
Defined.

(** The token file provider against a token service that answers with
    a valid expiry: the file is read, its text is sent, and the wrapper
    of the result is found. *)
Lemma token_file_expiry_source_witness :
  exists xml,
    Scenarios.tokenFile "/var/run/secrets/token" = inr "jwt"
    /\ Xml.readXmlResult (H := v8) (H0 := Scenarios.builtins)
         (Scenarios.stsDocument "2030-01-01T00:00:00Z")
         (Some "AssumeRoleWithWebIdentityResult")
       = inr xml.
Proof.
  destruct (token_file_expiry_source (H := v8) (H0 := Scenarios.builtins)
              (fun _ => Scenarios.stsDocument "2030-01-01T00:00:00Z")
              Scenarios.webIdentity (inr Scenarios.stsClient)
              Scenarios.tokenFile
              {| awsAccessKeyId := "ASIAEXAMPLE"; awsSecretKey := "secret";
                 sessionToken := Some "session";
                 expiresAt := Some (DateMs 1893456000000);
                 region := None |})
    as (client & token & text & xml & _ & _ & _ & _ & Hread & _ & Hxml & _).
  - vm_compute. reflexivity.
  - exists xml. split; [|exact Hxml].
    unfold Scenarios.tokenFile in *. reflexivity.
Defined.

(** An expiry of [Tomorrow] has a [T] and is no date: the credential is
    accepted, and once cached it is served at any later time. *)
Lemma token_file_unparsable_expiry_kept_witness :
  exists x,
    TokenFileWebIdentityCredentials.load (H := v8) (H0 := Scenarios.builtins)
      (fun _ => Scenarios.stsDocument "Tomorrow")
      Scenarios.webIdentity (inr Scenarios.stsClient) Scenarios.tokenFile
    = Fulfilled x
    /\ expiresAt x = Some InvalidDate
    /\ let s1 :=
         TokenFileWebIdentityCredentials.settle 5000 0 (Fulfilled x)
           (EcsTaskCredentials.run EcsTaskCredentials.fresh
              [EcsTaskCredentials.Call 0]) in
       EcsTaskCredentials.loadsStarted s1
         (map EcsTaskCredentials.Call [6000; 1893456000000; 4000000000000]%Z)
       = 0.
Proof.
  destruct (token_file_unparsable_expiry_kept (H := v8)
              (H0 := Scenarios.builtins)
              (fun _ => Scenarios.stsDocument "Tomorrow")
              Scenarios.webIdentity Scenarios.stsClient Scenarios.tokenFile
              "jwt" "<response/>" "Tomorrow"
              (Scenarios.resultNode "Tomorrow")
              (Scenarios.assumedNode "Tomorrow")
              (Xml.Node "Expiration" [] (Some "Tomorrow") [])
              [EcsTaskCredentials.Call 0] 0 5000)
    as (x & Hload & Hexpiry & _ & Hcalls).
  - reflexivity.
  - reflexivity.
  - reflexivity.
  - reflexivity.
  - reflexivity.
  - reflexivity.
  - intros key Hkey. apply list_elem_of_In in Hkey. apply list_elem_of_In.
    simpl in Hkey. simpl. tauto.
  - reflexivity.
  - reflexivity.
  - reflexivity.
  - reflexivity.
  - reflexivity.
  - exists x. split; [exact Hload|]. split; [exact Hexpiry|].
    apply (Hcalls [6000; 1893456000000; 4000000000000]%Z).
Defined.

(** [new TokenFileWebIdentityCredentials()] in an empty environment. *)
Lemma token_file_unconfigured_witness :
  exists self,
    TokenFileWebIdentityCredentials.new Samples.noEnvironment
      {| TokenFileWebIdentityCredentials.optRoleArn := None;
         TokenFileWebIdentityCredentials.optTokenPath := None;
         TokenFileWebIdentityCredentials.optSessionName := None |}
    = inr self
    /\ TokenFileWebIdentityCredentials.load (H := v8)
         (H0 := Scenarios.builtins)
         (fun _ => Scenarios.stsDocument "2030-01-01T00:00:00Z")
         self (inr Scenarios.stsClient) Scenarios.tokenFile
       = Rejected (newError (H := v8) "No WebIdentityToken file path is set").
Proof.
  destruct (token_file_unconfigured (H := v8) (H0 := Scenarios.builtins)
              (fun _ => Scenarios.stsDocument "2030-01-01T00:00:00Z")
              Samples.noEnvironment
              {| TokenFileWebIdentityCredentials.optRoleArn := None;
                 TokenFileWebIdentityCredentials.optTokenPath := None;
                 TokenFileWebIdentityCredentials.optSessionName := None |})
    as (self & Hnew & Hload).
  - reflexivity.
  - reflexivity.
  - reflexivity.
  - exists self. split; [exact Hnew|apply Hload].
Defined.

(** The container answers with an expiry in 2030; the promise of the
    first call settles at 5 s. *)
Lemma ecs_load_then_watermark_witness :
  EcsTaskCredentials.expireAfter
    (EcsTaskCredentials.settle 5000 0
       (EcsTaskCredentials.load (H := v8) (H0 := Scenarios.builtins)
          Scenarios.container Scenarios.containerFetch)
       (EcsTaskCredentials.run EcsTaskCredentials.fresh
          [EcsTaskCredentials.Call 0]))
  = Some (DateMs (1893456000000 - 60 * 1000)).
Proof.
  destruct (ecs_load_then_watermark (H := v8) (H0 := Scenarios.builtins)
              Scenarios.container Scenarios.containerFetch
              {| awsAccessKeyId := "ASIAEXAMPLE"; awsSecretKey := "secret";
                 sessionToken := Some "session";
                 expiresAt := Some (DateMs 1893456000000);
                 region := None |}
              [EcsTaskCredentials.Call 0] 0 5000)
    as (url & resp & data & T & _ & _ & _ & _ & Hexpiry & _ & Hmark).
  - reflexivity.
  - vm_compute. reflexivity.
  - injection Hexpiry as <-. exact Hmark.
Defined.

(** [new EcsTaskCredentials()] in an empty environment. *)
Lemma ecs_unconfigured_witness :
  match EcsTaskCredentials.new (H := Scenarios.builtins) Samples.noEnvironment
          {| EcsTaskCredentials.optRelativeUri := None;
             EcsTaskCredentials.optFullUri := None;
             EcsTaskCredentials.optServiceEndpoint := None;
             EcsTaskCredentials.optAuthHeader := None |} with
  | inr self =>
      EcsTaskCredentials.load (H := v8) (H0 := Scenarios.builtins)
        self Scenarios.containerFetch
      = Rejected (newError (H := v8)
          "AWS_CONTAINER_CREDENTIALS_RELATIVE_URI not set")
  | inl _ => False
  end.
Proof.
  pose proof (ecs_unconfigured (H := v8) (H0 := Scenarios.builtins)
                Samples.noEnvironment
                {| EcsTaskCredentials.optRelativeUri := None;
                   EcsTaskCredentials.optFullUri := None;
                   EcsTaskCredentials.optServiceEndpoint := None;
                   EcsTaskCredentials.optAuthHeader := None |}
                eq_refl eq_refl eq_refl eq_refl eq_refl) as Hunset.
  exact (Hunset Scenarios.containerFetch).
Defined.

(** [new SharedIniFileCredentials({filedata: ''})] in an empty
    environment: the file name starts with [undefined], and [load]
    reads that file. *)
Lemma shared_file_constructor_witness :
  SharedIniFileCredentials.load (H := v8) (fun _ => Samples.emptyKeyFile)
    (SharedIniFileCredentials.fresh "undefined/.aws/credentials" None
       "default")
    (inl (VString "NotFound"))
  = Rejected (VString "NotFound").
Proof.
  destruct (shared_file_constructor (H := v8) (fun _ => Samples.emptyKeyFile)
              Samples.noEnvironment
              {| SharedIniFileCredentials.optProfile := None;
                 SharedIniFileCredentials.optFilename := None;
                 SharedIniFileCredentials.optFiledata := Some "" |}
              (SharedIniFileCredentials.fresh "undefined/.aws/credentials"
                 None "default")) as (_ & _ & _ & Hload).
  - reflexivity.
  - apply (Hload (inl (VString "NotFound"))).
Defined.

(** The [&] that [<] is written with is none of the four. *)
Lemma encode_entities_escapes_witness :
  XmlEntities.unit "&" <> XmlEntities.unit "<".
Proof.
  destruct (encode_entities_escapes (XmlEntities.text "<")
              (XmlEntities.unit "&")) as (Hlt & _).
  - vm_compute. left.
  - exact Hlt.
Defined.

(** The credentials of the sample answer, reached by two names. *)
Lemma getList_last_name_witness :
  last ["AssumeRoleWithWebIdentityResult"; "Credentials"]
  = Some (Xml.name (Scenarios.assumedNode "Tomorrow")).
Proof.
  destruct (getList_last_name
              (Xml.Node "AssumeRoleWithWebIdentityResponse" [] None
                 [Scenarios.resultNode "Tomorrow"])
              ["AssumeRoleWithWebIdentityResult"; "Credentials"]
              (Scenarios.assumedNode "Tomorrow")) as (Hlast & _).
  - vm_compute. left.
  - exact Hlast.
Defined.

(** A token with a time to live of half a second: its timer waits a full
    second. *)
Lemma invalidation_delay_at_least_1000_witness :
  PrimFloat.leb 1000 1000 = true \/ PrimFloat.is_nan 1000 = true.
Proof.
  apply (invalidation_delay_at_least_1000 Samples.defaultClient
           [IMDSv2.TokenArrives 0.5 "token-1"]
           {| IMDSv2.timerToken := "token-1"; IMDSv2.timerDelay := 1000 |}).
  - reflexivity.
  - vm_compute. left.
Defined.

(** An endpoint that is no URL: the constructor of the metadata client
    throws what [new URL] throws. *)
Example metadata_client_bad_endpoint :
  IMDSv2.new (H := v8) (H0 := Scenarios.builtins) Samples.noEnvironment
    {| IMDSv2.optServiceEndpoint := Some "not a url";
       IMDSv2.optEndpointMode := None;
       IMDSv2.optEndpointPath := None;
       IMDSv2.optTimeoutMs := None;
       IMDSv2.optApiTimeoutMs := None;
       IMDSv2.optTokenTtlSeconds := None |}
  = inl (newError (H := v8) "Invalid URL").
Proof. vm_compute. reflexivity. Qed.

(** The chain [bare; static]: the first provider rejects with an object
    without [toString], the [catch] clause throws, and the chain rejects
    with that error without trying the second provider. *)
Example chain_catch_throws :
  CredentialsProviderChain.getCredentials (H := v8)
    (CredentialsProviderChain.new [Samples.bare; Samples.static]) 0
  = (Rejected Samples.notCallable,
     CredentialsProviderChain.new [Samples.bare; Samples.static], 1,
     [CredentialsProviderChain.Instantiate 0;
      CredentialsProviderChain.Resolve 0]).
Proof. vm_compute. reflexivity. Qed.
